(** * osf-api-mcp: the indexing and query-resolution engine

    A shallow embedding of [src/utils/swagger-loader.ts], of the resolvers
    under [src/search/] (endpoint, tag, schema and fulltext search, endpoint
    listing) and of the tool handlers of [src/server.ts], followed by the
    properties established about them.

    Conventions of the embedding.
    - A JavaScript string is a [string]: a sequence of code units below 256
      (the Latin-1 block).  Case mapping, the regular-expression class [\s]
      and [includes] are the ECMAScript ones restricted to that range.
    - A [Map] is an association list in insertion order ([map_set] replaces
      in place, or appends), a [Set] a duplicate-free list in insertion
      order; a JSON object is the sequence [Object.entries] yields.
    - An optional member [x?: T] is an [option T]; [undefined] is [None].
    - A thrown exception is the [Throw] branch of [Result]; it carries the
      [message] of the error.  The call stack is finite: a builder that
      recurses takes the number of nested calls the engine leaves room for,
      and throws the engine's [RangeError] beyond it.
    - A [number] holding a count or an index is a [Z]; a score is a
      [JS.number]: a real, or one of the IEEE special values. *)

From Stdlib Require Import String Ascii List ZArith Bool Lia Permutation Sorted.
From Stdlib Require Import Reals Lra.
From Stdlib Require OrderedTypeEx.
Import ListNotations.
Set Warnings "-register-all".
Open Scope string_scope.
Open Scope list_scope.

(* ===================================================================== *)
(** * JavaScript primitives used by the sources                           *)
(* ===================================================================== *)

Module JS.

(** ** Exceptions *)

Inductive Result (A : Type) : Type :=
| Ok (a : A)
| Throw (message : string).
Arguments Ok {A} a.
Arguments Throw {A} message.

Definition bind {A B} (r : Result A) (k : A -> Result B) : Result B :=
  match r with
  | Ok a => k a
  | Throw m => Throw m
  end.

(** ** Characters and case mapping *)

Definition code (c : ascii) : nat := nat_of_ascii c.

Definition between (lo hi n : nat) : bool := (lo <=? n)%nat && (n <=? hi)%nat.

(** [A-Z], and the Latin-1 capitals U+00C0..U+00DE without the
    multiplication sign U+00D7. *)
Definition is_upper (c : ascii) : bool :=
  between 65 90 (code c) || (between 192 222 (code c) && negb (code c =? 215)%nat).

(** [a-z], and U+00E0..U+00FE without the division sign U+00F7. *)
Definition is_lower_paired (c : ascii) : bool :=
  between 97 122 (code c) || (between 224 254 (code c) && negb (code c =? 247)%nat).

Definition lower_char (c : ascii) : ascii :=
  if is_upper c then ascii_of_nat (code c + 32) else c.

(** [String.prototype.toLowerCase] *)
Fixpoint toLowerCase (s : string) : string :=
  match s with
  | EmptyString => EmptyString
  | String c rest => String (lower_char c) (toLowerCase rest)
  end.

(** Upper-casing one code unit.  U+00DF (sharp s) expands to "SS".  The
    upper-case forms of U+00B5 and U+00FF are U+039C and U+0178, outside
    the modelled range: the two code units stand for them, which keeps
    every equality between upper-cased strings as it is in ECMAScript. *)
Definition upper_char (c : ascii) : string :=
  if is_lower_paired c then String (ascii_of_nat (code c - 32)) EmptyString
  else if (code c =? 223)%nat then "SS"
  else String c EmptyString.

(** [String.prototype.toUpperCase] *)
Fixpoint toUpperCase (s : string) : string :=
  match s with
  | EmptyString => EmptyString
  | String c rest => upper_char c ++ toUpperCase rest
  end.

(** [String.prototype.includes]: [needle] occurs in [hay] as a substring. *)
Fixpoint includes (hay needle : string) : bool :=
  String.prefix needle hay ||
  match hay with
  | EmptyString => false
  | String _ rest => includes rest needle
  end.

(** Truthiness of an optional string: [undefined] and [""] are falsy. *)
Definition truthy (o : option string) : bool :=
  match o with
  | Some s => negb (s =? "")
  | None => false
  end.

(** The string held by an optional string that passed a truthiness test. *)
Definition value (o : option string) : string :=
  match o with
  | Some s => s
  | None => ""
  end.

(** A template-literal hole [${x}] for an optional string. *)
Definition show (o : option string) : string :=
  match o with
  | Some s => s
  | None => "undefined"
  end.

(** [Array.prototype.join] *)
Fixpoint join (sep : string) (parts : list string) : string :=
  match parts with
  | [] => ""
  | [p] => p
  | p :: rest => p ++ sep ++ join sep rest
  end.

(** ** The regular expressions of the tokenizer *)

(** The class [\s] below U+0100: TAB, LF, VT, FF, CR, SPACE, NBSP. *)
Definition is_space (c : ascii) : bool :=
  between 9 13 (code c) || (code c =? 32)%nat || (code c =? 160)%nat.

(** The class [a-z0-9]. *)
Definition is_alnum (c : ascii) : bool :=
  between 97 122 (code c) || between 48 57 (code c).

(** [.replace(/[^a-z0-9\s]/g, ' ')] *)
Fixpoint replace_non_alnum (s : string) : string :=
  match s with
  | EmptyString => EmptyString
  | String c rest =>
      String (if is_alnum c || is_space c then c else " "%char)
             (replace_non_alnum rest)
  end.

(** [.split(/\s+/)]: the pieces between the maximal runs of white space.
    [prev] tells that the code unit before [s] belongs to a separator.  A
    leading or trailing separator yields an empty first or last piece, and
    the empty string splits into one empty piece. *)
Fixpoint split_ws_from (prev : bool) (s : string) : list string :=
  match s with
  | EmptyString => [EmptyString]
  | String c rest =>
      if is_space c then
        if prev then split_ws_from true rest
        else EmptyString :: split_ws_from true rest
      else
        match split_ws_from false rest with
        | [] => [String c EmptyString]
        | piece :: pieces => String c piece :: pieces
        end
  end.

Definition split_ws (s : string) : list string := split_ws_from false s.

(** ** Map and Set, in insertion order *)

Definition Map (V : Type) : Type := list (string * V).

Fixpoint map_get {V} (m : Map V) (k : string) : option V :=
  match m with
  | [] => None
  | (k', v) :: rest => if k' =? k then Some v else map_get rest k
  end.

Definition map_has {V} (m : Map V) (k : string) : bool :=
  match map_get m k with Some _ => true | None => false end.

(** [m.set(k, v)]: an existing key keeps its position. *)
Fixpoint map_set {V} (m : Map V) (k : string) (v : V) : Map V :=
  match m with
  | [] => [(k, v)]
  | (k', v') :: rest =>
      if k' =? k then (k', v) :: rest else (k', v') :: map_set rest k v
  end.

Definition map_keys {V} (m : Map V) : list string := map fst m.
Definition map_values {V} (m : Map V) : list V := map snd m.
Definition map_size {V} (m : Map V) : nat := length m.

Definition StrSet : Type := list string.

Definition set_has (s : StrSet) (x : string) : bool :=
  existsb (String.eqb x) s.

Definition set_add (s : StrSet) (x : string) : StrSet :=
  if set_has s x then s else s ++ [x].

(** ** [Array.prototype.slice] on integral bounds *)

Definition slice {A} (l : list A) (start stop : Z) : list A :=
  let len := Z.of_nat (length l) in
  let k := if (start <? 0)%Z then Z.max (len + start) 0 else Z.min start len in
  let final := if (stop <? 0)%Z then Z.max (len + stop) 0 else Z.min stop len in
  firstn (Z.to_nat (final - k)) (skipn (Z.to_nat k) l).

(** ** Numbers that carry a score

    The finite values are reals (rounding is not modelled); the special
    values and the operations on them follow IEEE 754 as ECMAScript
    prescribes: a division by zero, the logarithm of zero or of a negative
    number and every operation on a special value give the special value
    the language gives. *)

Inductive number : Type :=
| NaN
| PosInf
| NegInf
| Finite (x : R).

Definition of_nat (n : nat) : number := Finite (INR n).

Definition is_finite (a : number) : bool :=
  match a with Finite _ => true | _ => false end.

Definition neg (a : number) : number :=
  match a with
  | NaN => NaN
  | PosInf => NegInf
  | NegInf => PosInf
  | Finite x => Finite (- x)
  end.

Definition add (a b : number) : number :=
  match a, b with
  | NaN, _ | _, NaN => NaN
  | PosInf, NegInf | NegInf, PosInf => NaN
  | PosInf, _ | _, PosInf => PosInf
  | NegInf, _ | _, NegInf => NegInf
  | Finite x, Finite y => Finite (x + y)
  end.

Definition sub (a b : number) : number := add a (neg b).

(** The sign of a real: [Gt] positive, [Lt] negative, [Eq] zero. *)
Definition sign (x : R) : comparison :=
  if Rlt_dec 0 x then Gt else if Rlt_dec x 0 then Lt else Eq.

Definition signed_inf (s1 s2 : comparison) : number :=
  match s1, s2 with
  | Eq, _ | _, Eq => NaN
  | Gt, Gt | Lt, Lt => PosInf
  | _, _ => NegInf
  end.

Definition mul (a b : number) : number :=
  match a, b with
  | NaN, _ | _, NaN => NaN
  | Finite x, Finite y => Finite (x * y)
  | Finite x, PosInf | PosInf, Finite x => signed_inf (sign x) Gt
  | Finite x, NegInf | NegInf, Finite x => signed_inf (sign x) Lt
  | PosInf, PosInf | NegInf, NegInf => PosInf
  | PosInf, NegInf | NegInf, PosInf => NegInf
  end.

(** Division; a zero divisor is the positive zero (a size). *)
Definition div (a b : number) : number :=
  match a, b with
  | NaN, _ | _, NaN => NaN
  | Finite x, Finite y =>
      match sign y with
      | Eq => signed_inf (sign x) Gt
      | _ => Finite (x / y)
      end
  | Finite _, _ => Finite 0
  | PosInf, Finite y => match sign y with Lt => NegInf | _ => PosInf end
  | NegInf, Finite y => match sign y with Lt => PosInf | _ => NegInf end
  | _, _ => NaN
  end.

(** [Math.log] *)
Definition Math_log (a : number) : number :=
  match a with
  | NaN | NegInf => NaN
  | PosInf => PosInf
  | Finite x =>
      match sign x with
      | Gt => Finite (ln x)
      | Eq => NegInf
      | Lt => NaN
      end
  end.

(** The test [v > 0] that [Array.prototype.sort] applies to the value of
    its comparator ([NaN] counts as zero). *)
Definition positive (a : number) : bool :=
  match a with
  | PosInf => true
  | Finite x => match sign x with Gt => true | _ => false end
  | _ => false
  end.

(** [Array.prototype.sort(cmp)]: the sort is stable, and [a] moves behind
    [b] exactly when [cmp a b > 0]. *)
Section Sort.
Context {A : Type} (after : A -> A -> bool).

Fixpoint insert_sorted (x : A) (l : list A) : list A :=
  match l with
  | [] => [x]
  | y :: rest => if after x y then y :: insert_sorted x rest else x :: y :: rest
  end.

Fixpoint sort (l : list A) : list A :=
  match l with
  | [] => []
  | x :: rest => insert_sorted x (sort rest)
  end.
End Sort.

End JS.

Notation "'do' x <- e1 ; e2" := (JS.bind e1 (fun x => e2))
  (at level 10, x name, e1 at level 100, e2 at level 200).

(* ===================================================================== *)
(** * src/types.ts                                                        *)
(* ===================================================================== *)

Module Tag.
Record t : Type := mk { name : string; description : option string }.
End Tag.

(** A schema as [JSON.parse] delivers it: a finite tree.  [ref] is the
    member [$ref], a string that no code of the repository dereferences. *)
Module Schema.
Inductive t : Type :=
| mk (type : option string)
     (items : option t)
     (properties : option (list (string * t)))
     (title : option string)
     (ref : option string).

Definition type (s : t) : option string := let 'mk x _ _ _ _ := s in x.
Definition items (s : t) : option t := let 'mk _ x _ _ _ := s in x.
Definition properties (s : t) : option (list (string * t)) :=
  let 'mk _ _ x _ _ := s in x.
Definition title (s : t) : option string := let 'mk _ _ _ x _ := s in x.
Definition ref (s : t) : option string := let 'mk _ _ _ _ x := s in x.
End Schema.

Module Param.
Record t : Type := mk {
  name : string;
  in_ : string;
  description : option string;
  schema : option Schema.t }.
End Param.

Module Response.
Record t : Type := mk { description : string; schema : option Schema.t }.
End Response.

Module Operation.
Record t : Type := mk {
  summary : option string;
  description : option string;
  operationId : option string;
  tags : option (list string);
  parameters : option (list Param.t);
  responses : option (list (string * Response.t));
  x_response_schema : option string }.
End Operation.

Module PathItem.
Record t : Type := mk {
  get : option Operation.t;
  post : option Operation.t;
  put : option Operation.t;
  patch : option Operation.t;
  delete : option Operation.t;
  head : option Operation.t;
  options : option Operation.t }.

(** [pathItem[method]] *)
Definition at_ (pathItem : t) (method : string) : option Operation.t :=
  if method =? "get" then get pathItem
  else if method =? "post" then post pathItem
  else if method =? "put" then put pathItem
  else if method =? "patch" then patch pathItem
  else if method =? "delete" then delete pathItem
  else if method =? "head" then head pathItem
  else if method =? "options" then options pathItem
  else None.
End PathItem.

(** [tags] and [paths] are declared mandatory, but [JSON.parse] validates
    nothing: in a document without such a member it is [undefined], here
    [None]. *)
Module SwaggerSpec.
Record t : Type := mk {
  tags : option (list Tag.t);
  paths : option (list (string * PathItem.t)) }.
End SwaggerSpec.

Module EndpointResult.
Record t : Type := mk {
  path : string;
  method : string;
  summary : option string;
  description : option string;
  operationId : option string;
  tags : option (list string);
  parameters : option (list Param.t) }.
End EndpointResult.

Module TagSearchResult.
Record t : Type := mk {
  tagName : string;
  description : option string;
  endpoints : list EndpointResult.t }.
End TagSearchResult.

Module SchemaResult.
Record t : Type := mk {
  schemaName : option string;
  path : option string;
  method : option string;
  schema : Schema.t }.
End SchemaResult.

Module FulltextSearchResult.
Record t : Type := mk {
  path : string;
  method : string;
  summary : option string;
  description : option string;
  score : JS.number;
  matchedFields : list string }.
End FulltextSearchResult.

Module Location.
Record t : Type := mk { path : string; method : string }.
End Location.

Module EndpointIndex.
Record t : Type := mk {
  paths : JS.Map (JS.Map Operation.t);
  tags : JS.Map (list EndpointResult.t);
  operationIds : JS.Map Location.t }.
End EndpointIndex.

Module SchemaIndex.
Record t : Type := mk {
  byName : JS.Map (list SchemaResult.t);
  byProperty : JS.Map (list SchemaResult.t) }.
End SchemaIndex.

Module Document.
Record t : Type := mk {
  path : string;
  method : string;
  content : string;
  summary : option string;
  description : option string }.
End Document.

Module FulltextIndex.
Record t : Type := mk {
  words : JS.Map JS.StrSet;
  documents : JS.Map Document.t }.
End FulltextIndex.

(* ===================================================================== *)
(** * src/utils/swagger-loader.ts                                         *)
(* ===================================================================== *)

Module SwaggerLoader.
Import JS.

(** The instance: four private fields, all [null] at construction. *)
Record t : Type := mk {
  spec : option SwaggerSpec.t;
  endpointIndex : option EndpointIndex.t;
  schemaIndex : option SchemaIndex.t;
  fulltextIndex : option FulltextIndex.t }.

Definition new : t := mk None None None None.

Definition getSpec (this : t) : Result SwaggerSpec.t :=
  match spec this with
  | None => Throw "Swagger spec not loaded. Call load() first."
  | Some s => Ok s
  end.

Definition getEndpointIndex (this : t) : Result EndpointIndex.t :=
  match endpointIndex this with
  | None => Throw "Indexes not built. Call load() first."
  | Some i => Ok i
  end.

Definition getSchemaIndex (this : t) : Result SchemaIndex.t :=
  match schemaIndex this with
  | None => Throw "Indexes not built. Call load() first."
  | Some i => Ok i
  end.

Definition getFulltextIndex (this : t) : Result FulltextIndex.t :=
  match fulltextIndex this with
  | None => Throw "Indexes not built. Call load() first."
  | Some i => Ok i
  end.

(** The seven method names every builder iterates over. *)
Definition methods : list string :=
  ["get"; "post"; "put"; "patch"; "delete"; "head"; "options"].

(** [Object.entries(this.spec!.paths)]: a [TypeError] when the document
    has no [paths] member. *)
Definition entries_of_paths (this : t)
  : Result (list (string * PathItem.t)) :=
  match spec this with
  | None => Throw "Cannot read properties of null (reading 'paths')"
  | Some s =>
      match SwaggerSpec.paths s with
      | None => Throw "Cannot convert undefined or null to object"
      | Some ps => Ok ps
      end
  end.

(** [m.get(k)!.push(x)], after [if (!m.has(k)) m.set(k, [])]. *)
Definition push_at {V} (m : Map (list V)) (k : string) (x : V) : Map (list V) :=
  let m := if map_has m k then m else map_set m k [] in
  match map_get m k with
  | Some l => map_set m k (l ++ [x])
  | None => m
  end.

(** ** buildEndpointIndex *)

Definition summary_of (path method : string) (operation : Operation.t)
  : EndpointResult.t :=
  EndpointResult.mk path method
    (Operation.summary operation) (Operation.description operation)
    (Operation.operationId operation) (Operation.tags operation)
    (Operation.parameters operation).

(** The body of the loop over the methods, for one path. *)
Definition endpoint_method_step (path : string) (pathItem : PathItem.t)
    (st : Map Operation.t * Map (list EndpointResult.t) * Map Location.t)
    (method : string)
  : Map Operation.t * Map (list EndpointResult.t) * Map Location.t :=
  let '(methodMap, tags, operationIds) := st in
  match PathItem.at_ pathItem method with
  | None => st
  | Some operation =>
      let methodMap := map_set methodMap (toUpperCase method) operation in
      let tags :=
        match Operation.tags operation with
        | Some ts =>
            fold_left
              (fun tags tag =>
                 push_at tags tag (summary_of path (toUpperCase method) operation))
              ts tags
        | None => tags
        end in
      let operationIds :=
        if truthy (Operation.operationId operation)
        then map_set operationIds (value (Operation.operationId operation))
               (Location.mk path (toUpperCase method))
        else operationIds in
      (methodMap, tags, operationIds)
  end.

(** The body of the loop over the paths. *)
Definition endpoint_path_step
    (st : Map (Map Operation.t) * Map (list EndpointResult.t) * Map Location.t)
    (entry : string * PathItem.t)
  : Map (Map Operation.t) * Map (list EndpointResult.t) * Map Location.t :=
  let '(paths, tags, operationIds) := st in
  let '(path, pathItem) := entry in
  let '(methodMap, tags, operationIds) :=
    fold_left (endpoint_method_step path pathItem) methods ([], tags, operationIds) in
  let paths :=
    if (0 <? map_size methodMap)%nat then map_set paths path methodMap else paths in
  (paths, tags, operationIds).

Definition buildEndpointIndex (this : t) : Result EndpointIndex.t :=
  do entries <- entries_of_paths this;
  let '(paths, tags, operationIds) :=
    fold_left endpoint_path_step entries ([], [], []) in
  Ok (EndpointIndex.mk paths tags operationIds).

(** ** buildSchemaIndex *)

(** [indexSchemaProperties]: the names of [schema.properties] are
    registered, then the function calls itself on [schema.items].  Nothing
    limits the recursion but the call stack: [room] is the number of
    nested calls of this function that the stack still takes, and a call
    made without room is the engine's [RangeError]. *)
Fixpoint indexSchemaProperties (room : N) (schema : Schema.t)
    (schemaResult : SchemaResult.t) (byProperty : Map (list SchemaResult.t))
  : Result (Map (list SchemaResult.t)) :=
  if (room =? 0)%N then Throw "Maximum call stack size exceeded"
  else
    match schema with
    | Schema.mk _ items properties _ _ =>
        let byProperty :=
          match properties with
          | Some props =>
              fold_left (fun byProperty propName => push_at byProperty propName schemaResult)
                        (map fst props) byProperty
          | None => byProperty
          end in
        match items with
        | Some items => indexSchemaProperties (room - 1) items schemaResult byProperty
        | None => Ok byProperty
        end
    end.

(** [operation['x-response-schema'] || response.schema.title] *)
Definition schemaName_of (operation : Operation.t) (schema : Schema.t)
  : option string :=
  if truthy (Operation.x_response_schema operation)
  then Operation.x_response_schema operation
  else Schema.title schema.

(** The body of the loop over the responses.  The two maps are local to
    [buildSchemaIndex]: an exception discards them. *)
Definition schema_response_step (room : N) (path method : string)
    (operation : Operation.t)
    (acc : Result (Map (list SchemaResult.t) * Map (list SchemaResult.t)))
    (entry : string * Response.t)
  : Result (Map (list SchemaResult.t) * Map (list SchemaResult.t)) :=
  do st <- acc;
  let '(byName, byProperty) := st in
  match Response.schema (snd entry) with
  | None => Ok st
  | Some schema =>
      let schemaName := schemaName_of operation schema in
      let schemaResult :=
        SchemaResult.mk schemaName (Some path) (Some (toUpperCase method)) schema in
      let byName :=
        if truthy schemaName then push_at byName (value schemaName) schemaResult
        else byName in
      do byProperty <- indexSchemaProperties room schema schemaResult byProperty;
      Ok (byName, byProperty)
  end.

Definition schema_method_step (room : N) (path : string) (pathItem : PathItem.t)
    (acc : Result (Map (list SchemaResult.t) * Map (list SchemaResult.t)))
    (method : string)
  : Result (Map (list SchemaResult.t) * Map (list SchemaResult.t)) :=
  match PathItem.at_ pathItem method with
  | None => acc
  | Some operation =>
      match Operation.responses operation with
      | None => acc
      | Some responses =>
          fold_left (schema_response_step room path method operation) responses acc
      end
  end.

Definition schema_path_step (room : N)
    (acc : Result (Map (list SchemaResult.t) * Map (list SchemaResult.t)))
    (entry : string * PathItem.t)
  : Result (Map (list SchemaResult.t) * Map (list SchemaResult.t)) :=
  fold_left (schema_method_step room (fst entry) (snd entry)) methods acc.

Definition buildSchemaIndex (room : N) (this : t) : Result SchemaIndex.t :=
  do entries <- entries_of_paths this;
  do st <- fold_left (schema_path_step room) entries (Ok ([], []));
  let '(byName, byProperty) := st in
  Ok (SchemaIndex.mk byName byProperty).

(** ** buildFulltextIndex *)

(** The private method [tokenize]. *)
Definition tokenize (text : string) : list string :=
  filter (fun word => (2 <? String.length word)%nat)
         (split_ws (replace_non_alnum (toLowerCase text))).

(** The parts pushed for the parameters: the description when it is
    truthy, then the name. *)
Definition parameter_parts (param : Param.t) : list string :=
  (if truthy (Param.description param)
   then [value (Param.description param)] else [])
  ++ [Param.name param].

Definition contentParts (operation : Operation.t) : list string :=
  (if truthy (Operation.summary operation)
   then [value (Operation.summary operation)] else [])
  ++ (if truthy (Operation.description operation)
      then [value (Operation.description operation)] else [])
  ++ match Operation.parameters operation with
     | Some params => flat_map parameter_parts params
     | None => []
     end.

(** [if (!words.has(token)) words.set(token, new Set());
     words.get(token)!.add(docId)] *)
Definition add_word (docId : string) (words : Map StrSet) (token : string)
  : Map StrSet :=
  let words := if map_has words token then words else map_set words token [] in
  match map_get words token with
  | Some docs => map_set words token (set_add docs docId)
  | None => words
  end.

Definition fulltext_method_step (path : string) (pathItem : PathItem.t)
    (st : Map StrSet * Map Document.t) (method : string)
  : Map StrSet * Map Document.t :=
  let '(words, documents) := st in
  match PathItem.at_ pathItem method with
  | None => st
  | Some operation =>
      let docId := (toUpperCase method ++ ":" ++ path)%string in
      let content := join " " (contentParts operation) in
      let documents :=
        map_set documents docId
          (Document.mk path (toUpperCase method) content
             (Operation.summary operation) (Operation.description operation)) in
      (fold_left (add_word docId) (tokenize content) words, documents)
  end.

Definition fulltext_path_step (st : Map StrSet * Map Document.t)
    (entry : string * PathItem.t) : Map StrSet * Map Document.t :=
  fold_left (fulltext_method_step (fst entry) (snd entry)) methods st.

Definition buildFulltextIndex (this : t) : Result FulltextIndex.t :=
  do entries <- entries_of_paths this;
  let '(words, documents) := fold_left fulltext_path_step entries ([], []) in
  Ok (FulltextIndex.mk words documents).

(** ** buildIndexes and load *)

(** The three fields are assigned one after the other; an exception leaves
    the assignments already made in place.  [room] is what the stack takes
    of nested calls of [indexSchemaProperties] when [buildSchemaIndex]
    runs. *)
Definition buildIndexes (room : N) (this : t) : t * Result unit :=
  match spec this with
  | None => (this, Throw "Spec not loaded")
  | Some _ =>
      match buildEndpointIndex this with
      | Throw m => (this, Throw m)
      | Ok ei =>
          let this := mk (spec this) (Some ei) (schemaIndex this) (fulltextIndex this) in
          match buildSchemaIndex room this with
          | Throw m => (this, Throw m)
          | Ok si =>
              let this := mk (spec this) (endpointIndex this) (Some si) (fulltextIndex this) in
              match buildFulltextIndex this with
              | Throw m => (this, Throw m)
              | Ok fi =>
                  (mk (spec this) (endpointIndex this) (schemaIndex this) (Some fi), Ok tt)
              end
          end
      end
  end.

(** What [readFile] and [JSON.parse] make of the file at the given path:
    the read is rejected, the text is not JSON, or the text parses: to a
    falsy value ([null], [false], [0], [""]; here [None]) or to a document. *)
Inductive Source : Type :=
| Unreadable (message : string)
| Malformed (message : string)
| Parsed (value : option SwaggerSpec.t).

Definition load (room : N) (this : t) (file : Source) : t * Result unit :=
  match file with
  | Unreadable m => (this, Throw m)
  | Malformed m => (this, Throw m)
  | Parsed value =>
      buildIndexes room
        (mk value (endpointIndex this) (schemaIndex this) (fulltextIndex this))
  end.

End SwaggerLoader.

(* ===================================================================== *)
(** * src/search/endpoint-search.ts                                       *)
(* ===================================================================== *)

Module EndpointSearch.
Import JS.

Record EndpointSearchParams : Type := mkParams {
  path : option string;
  method : option string;
  operationId : option string;
  tag : option string;
  limit : option Z }.

(** [path && !pathStr.toLowerCase().includes(path.toLowerCase())] *)
Definition path_rejects (path : option string) (pathStr : string) : bool :=
  truthy path && negb (includes (toLowerCase pathStr) (toLowerCase (value path))).

(** [method && methodStr.toUpperCase() !== method.toUpperCase()] *)
Definition method_rejects (method : option string) (methodStr : string) : bool :=
  truthy method && negb (toUpperCase methodStr =? toUpperCase (value method)).

(** [tag && !operation.tags?.some(t => t.toLowerCase().includes(tag.toLowerCase()))] *)
Definition tag_rejects (tag : option string) (operation : Operation.t) : bool :=
  truthy tag &&
  negb match Operation.tags operation with
       | Some ts =>
           existsb (fun t => includes (toLowerCase t) (toLowerCase (value tag))) ts
       | None => false
       end.

(** [index.paths.get(location.path)?.get(location.method)] *)
Definition operation_at (index : EndpointIndex.t) (path method : string)
  : option Operation.t :=
  match map_get (EndpointIndex.paths index) path with
  | Some methods => map_get methods method
  | None => None
  end.

(** The results pushed by the scan of [operationIds]. *)
Definition by_operationId (index : EndpointIndex.t) (operationId : string)
  : list EndpointResult.t :=
  let normalizedOpId := toLowerCase operationId in
  flat_map
    (fun entry : string * Location.t =>
       let '(opId, location) := entry in
       if includes (toLowerCase opId) normalizedOpId then
         match operation_at index (Location.path location) (Location.method location) with
         | Some operation =>
             [SwaggerLoader.summary_of (Location.path location)
                (Location.method location) operation]
         | None => []
         end
       else [])
    (EndpointIndex.operationIds index).

(** The results pushed by the scan of [paths] under the three filters. *)
Definition by_filters (index : EndpointIndex.t) (path method tag : option string)
  : list EndpointResult.t :=
  flat_map
    (fun entry : string * Map Operation.t =>
       let '(pathStr, methods) := entry in
       if path_rejects path pathStr then []
       else
         flat_map
           (fun m : string * Operation.t =>
              let '(methodStr, operation) := m in
              if method_rejects method methodStr then []
              else if tag_rejects tag operation then []
              else [SwaggerLoader.summary_of pathStr methodStr operation])
           methods)
    (EndpointIndex.paths index).

Definition searchEndpoints (loader : SwaggerLoader.t) (params : EndpointSearchParams)
  : Result (list EndpointResult.t) :=
  let limit := match limit params with Some l => l | None => 10%Z end in
  do index <- SwaggerLoader.getEndpointIndex loader;
  let results :=
    if truthy (operationId params)
    then by_operationId index (value (operationId params))
    else by_filters index (path params) (method params) (tag params) in
  Ok (slice results 0 limit).

End EndpointSearch.

(* ===================================================================== *)
(** * src/search/tag-search.ts                                            *)
(* ===================================================================== *)

Module TagSearch.
Import JS.

Record TagSearchParams : Type := mkParams {
  tag : string;
  includeDescription : option bool }.

(** [spec.tags.find(t => t.name === tagName)?.description]: a [TypeError]
    when the document has no [tags] member. *)
Definition tag_description (spec : SwaggerSpec.t) (tagName : string)
  : Result (option string) :=
  match SwaggerSpec.tags spec with
  | None => Throw "Cannot read properties of undefined (reading 'find')"
  | Some tags =>
      Ok match find (fun t => Tag.name t =? tagName) tags with
         | Some tagInfo => Tag.description tagInfo
         | None => None
         end
  end.

(** The body of the loop over [index.tags.entries()]. *)
Definition tag_step (spec : SwaggerSpec.t) (includeDescription : bool)
    (normalizedTag : string) (acc : Result (list TagSearchResult.t))
    (entry : string * list EndpointResult.t) : Result (list TagSearchResult.t) :=
  do results <- acc;
  let '(tagName, endpoints) := entry in
  if includes (toLowerCase tagName) normalizedTag then
    do description <-
      (if includeDescription then tag_description spec tagName else Ok None);
    Ok (results ++ [TagSearchResult.mk tagName description endpoints])
  else Ok results.

Definition searchByTag (loader : SwaggerLoader.t) (params : TagSearchParams)
  : Result (list TagSearchResult.t) :=
  let includeDescription :=
    match includeDescription params with Some b => b | None => false end in
  do spec <- SwaggerLoader.getSpec loader;
  do index <- SwaggerLoader.getEndpointIndex loader;
  let normalizedTag := toLowerCase (tag params) in
  fold_left (tag_step spec includeDescription normalizedTag)
            (EndpointIndex.tags index) (Ok []).

End TagSearch.

(* ===================================================================== *)
(** * src/search/schema-search.ts                                         *)
(* ===================================================================== *)

Module SchemaSearch.
Import JS.

Record SchemaSearchParams : Type := mkParams {
  schemaName : option string;
  property : option string;
  path : option string;
  method : option string }.

(** The scan shared by the first two modes: every list whose key contains
    the normalized name is spread into the results. *)
Definition collect (m : Map (list SchemaResult.t)) (name : string)
  : list SchemaResult.t :=
  let normalized := toLowerCase name in
  flat_map
    (fun entry : string * list SchemaResult.t =>
       if includes (toLowerCase (fst entry)) normalized then snd entry else [])
    m.

(** The third mode: one result for each response of the exact operation
    that carries a schema. *)
Definition of_endpoint (pathIndex : EndpointIndex.t) (path method : string)
  : list SchemaResult.t :=
  match EndpointSearch.operation_at pathIndex path (toUpperCase method) with
  | Some operation =>
      match Operation.responses operation with
      | Some responses =>
          flat_map
            (fun entry : string * Response.t =>
               match Response.schema (snd entry) with
               | Some schema =>
                   [SchemaResult.mk (SwaggerLoader.schemaName_of operation schema)
                      (Some path) (Some (toUpperCase method)) schema]
               | None => []
               end)
            responses
      | None => []
      end
  | None => []
  end.

(** [`${result.path}:${result.method}:${result.schemaName}`] *)
Definition key (result : SchemaResult.t) : string :=
  (show (SchemaResult.path result) ++ ":" ++ show (SchemaResult.method result)
   ++ ":" ++ show (SchemaResult.schemaName result))%string.

(** The loop that removes duplicates: the first result of each key stays. *)
Definition unique_step (uniqueResults : Map SchemaResult.t) (result : SchemaResult.t)
  : Map SchemaResult.t :=
  if map_has uniqueResults (key result) then uniqueResults
  else map_set uniqueResults (key result) result.

Definition removeDuplicates (results : list SchemaResult.t) : list SchemaResult.t :=
  map_values (fold_left unique_step results []).

Definition searchSchemas (loader : SwaggerLoader.t) (params : SchemaSearchParams)
  : Result (list SchemaResult.t) :=
  do index <- SwaggerLoader.getSchemaIndex loader;
  do results <-
    (if truthy (schemaName params) then
       Ok (collect (SchemaIndex.byName index) (value (schemaName params)))
     else if truthy (property params) then
       Ok (collect (SchemaIndex.byProperty index) (value (property params)))
     else if truthy (path params) && truthy (method params) then
       do pathIndex <- SwaggerLoader.getEndpointIndex loader;
       Ok (of_endpoint pathIndex (value (path params)) (value (method params)))
     else Ok []);
  Ok (removeDuplicates results).

End SchemaSearch.

(* ===================================================================== *)
(** * src/search/fulltext-search.ts                                       *)
(* ===================================================================== *)

Module FulltextSearch.
Import JS.

Record FulltextSearchParams : Type := mkParams {
  query : string;
  limit : option Z }.

(** The module's own [tokenize], a copy of the loader's private method. *)
Definition tokenize (text : string) : list string :=
  filter (fun word => (2 <? String.length word)%nat)
         (split_ws (replace_non_alnum (toLowerCase text))).

(** The value of a [scores] entry. *)
Record ScoreData : Type := mkScore {
  score : number;
  matchedFields : StrSet }.

(** [field?.toLowerCase().includes(token)] *)
Definition field_includes (field : option string) (token : string) : bool :=
  match field with
  | Some text => includes (toLowerCase text) token
  | None => false
  end.

(** The body of the loop over [docIds], for one query token.  The entry of
    the document is created on first sight and updated in place; a document
    identifier without a document makes [doc.summary] a [TypeError]. *)
Definition score_step (index : FulltextIndex.t) (queryTokens : list string)
    (token : string) (docIds : StrSet)
    (acc : Result (Map ScoreData)) (docId : string) : Result (Map ScoreData) :=
  do scores <- acc;
  let scores :=
    if map_has scores docId then scores
    else map_set scores docId (mkScore (Finite 0) []) in
  match map_get scores docId with
  | None => Ok scores
  | Some scoreData =>
      let tf := div (Finite 1) (of_nat (length queryTokens)) in
      let idf :=
        Math_log (div (of_nat (map_size (FulltextIndex.documents index)))
                      (of_nat (length docIds))) in
      let score := add (score scoreData) (mul tf idf) in
      match map_get (FulltextIndex.documents index) docId with
      | None => Throw "Cannot read properties of undefined (reading 'summary')"
      | Some doc =>
          let fields := matchedFields scoreData in
          let fields :=
            if field_includes (Document.summary doc) token
            then set_add fields "summary" else fields in
          let fields :=
            if field_includes (Document.description doc) token
            then set_add fields "description" else fields in
          Ok (map_set scores docId (mkScore score fields))
      end
  end.

(** The body of the loop over the query tokens. *)
Definition token_step (index : FulltextIndex.t) (queryTokens : list string)
    (acc : Result (Map ScoreData)) (token : string) : Result (Map ScoreData) :=
  match map_get (FulltextIndex.words index) token with
  | Some docIds => fold_left (score_step index queryTokens token docIds) docIds acc
  | None => acc
  end.

(** The loop that converts [scores] to results. *)
Definition result_step (index : FulltextIndex.t)
    (acc : Result (list FulltextSearchResult.t)) (entry : string * ScoreData)
  : Result (list FulltextSearchResult.t) :=
  do results <- acc;
  match map_get (FulltextIndex.documents index) (fst entry) with
  | None => Throw "Cannot read properties of undefined (reading 'path')"
  | Some doc =>
      Ok (results ++
          [FulltextSearchResult.mk (Document.path doc) (Document.method doc)
             (Document.summary doc) (Document.description doc)
             (score (snd entry)) (matchedFields (snd entry))])
  end.

(** The comparator [(a, b) => b.score - a.score] is positive. *)
Definition after (a b : FulltextSearchResult.t) : bool :=
  positive (sub (FulltextSearchResult.score b) (FulltextSearchResult.score a)).

Definition fulltextSearch (loader : SwaggerLoader.t) (params : FulltextSearchParams)
  : Result (list FulltextSearchResult.t) :=
  let limit := match limit params with Some l => l | None => 10%Z end in
  do index <- SwaggerLoader.getFulltextIndex loader;
  let queryTokens := tokenize (query params) in
  if (length queryTokens =? 0)%nat then Ok []
  else
    do scores <- fold_left (token_step index queryTokens) queryTokens (Ok []);
    do results <- fold_left (result_step index) scores (Ok []);
    Ok (slice (sort after results) 0 limit).

End FulltextSearch.

(* ===================================================================== *)
(** * src/search/list-endpoints.ts                                        *)
(* ===================================================================== *)

Module ListEndpoints.
Import JS.

Record ListEndpointsParams : Type := mkParams {
  limit : option Z;
  offset : option Z }.

Record EndpointListItem : Type := mkItem {
  path : string;
  method : string;
  summary : option string;
  operationId : option string;
  tags : option (list string) }.

Section Collation.

(** [String.prototype.localeCompare]: the collation of the host's locale,
    negative, zero or positive. *)
Variable localeCompare : string -> string -> Z.

(** [a.path.localeCompare(b.path) || a.method.localeCompare(b.method)] *)
Definition compare (a b : EndpointListItem) : Z :=
  if (localeCompare (path a) (path b) =? 0)%Z
  then localeCompare (method a) (method b)
  else localeCompare (path a) (path b).

Definition after (a b : EndpointListItem) : bool := (0 <? compare a b)%Z.

(** The two nested loops over the index. *)
Definition collect (index : EndpointIndex.t) : list EndpointListItem :=
  flat_map
    (fun entry : string * Map Operation.t =>
       map (fun m : string * Operation.t =>
              mkItem (fst entry) (toUpperCase (fst m))
                (Operation.summary (snd m)) (Operation.operationId (snd m))
                (Operation.tags (snd m)))
           (snd entry))
    (EndpointIndex.paths index).

Definition listEndpoints (loader : SwaggerLoader.t) (params : ListEndpointsParams)
  : Result (list EndpointListItem) :=
  do index <- SwaggerLoader.getEndpointIndex loader;
  let limit := match limit params with Some l => l | None => 50%Z end in
  let offset := match offset params with Some o => o | None => 0%Z end in
  Ok (slice (sort after (collect index)) offset (offset + limit)).

End Collation.
End ListEndpoints.


(* ===================================================================== *)
(** * src/server.ts                                                       *)
(* ===================================================================== *)

Module McpServer.
Import JS.

(** The arguments of a tool call, for a caller that keeps to the declared
    input schemas: every member is absent or of its declared type. *)
Record Arguments : Type := mkArguments {
  path : option string;
  method : option string;
  operationId : option string;
  tag : option string;
  limit : option Z;
  includeDescription : option bool;
  schemaName : option string;
  property : option string;
  query : option string }.

(** [{}] *)
Definition no_arguments : Arguments :=
  mkArguments None None None None None None None None None.

(** The object that [handleGetEndpointDetails] serializes. *)
Record EndpointDetails : Type := mkDetails {
  details_path : string;
  details_method : string;
  details_summary : option string;
  details_description : option string;
  details_operationId : option string;
  details_tags : option (list string);
  details_parameters : option (list Param.t);
  details_responses : option (list (string * Response.t)) }.

(** A member of [x-tagGroups]. *)
Record TagGroup : Type := mkGroup {
  group_name : string;
  group_tags : list string }.

(** The objects that [handleListTags] serializes. *)
Record TagInfo : Type := mkTagInfo {
  info_name : string;
  info_description : option string }.

Record TagGroupInfo : Type := mkGroupInfo {
  groupInfo_name : string;
  groupInfo_tags : list TagInfo }.

Record TagList : Type := mkTagList {
  tagGroups : list TagGroupInfo;
  allTags : list TagInfo }.

(** The values handed to [JSON.stringify]. *)
Inductive Payload : Type :=
| Endpoints (results : list EndpointResult.t)
| TagResults (results : list TagSearchResult.t)
| Schemas (results : list SchemaResult.t)
| Fulltext (results : list FulltextSearchResult.t)
| Details (result : EndpointDetails)
| Tags (result : TagList).

(** [{ type: 'text', text }] and [{ content: [...] }] *)
Record TextContent : Type := mkText {
  type_ : string;
  text : string }.

Record CallToolResult : Type := mkResult {
  content : list TextContent }.

Section Handlers.

(** [JSON.stringify(value, null, 2)] *)
Variable stringify : Payload -> string.

(** The member [x-tagGroups] of the document. *)
Variable x_tagGroups : SwaggerSpec.t -> option (list TagGroup).

Definition respond (value : Payload) : CallToolResult :=
  mkResult [mkText "text" (stringify value)].

Definition handleSearchEndpoints (loader : SwaggerLoader.t) (args : Arguments)
  : Result CallToolResult :=
  do results <- EndpointSearch.searchEndpoints loader
                  (EndpointSearch.mkParams (path args) (method args)
                     (operationId args) (tag args) (limit args));
  Ok (respond (Endpoints results)).

Definition handleSearchByTag (loader : SwaggerLoader.t) (args : Arguments)
  : Result CallToolResult :=
  if negb (truthy (tag args)) then Throw "tag parameter is required"
  else
    do results <- TagSearch.searchByTag loader
                    (TagSearch.mkParams (value (tag args)) (includeDescription args));
    Ok (respond (TagResults results)).

Definition handleSearchSchemas (loader : SwaggerLoader.t) (args : Arguments)
  : Result CallToolResult :=
  do results <- SchemaSearch.searchSchemas loader
                  (SchemaSearch.mkParams (schemaName args) (property args)
                     (path args) (method args));
  Ok (respond (Schemas results)).

Definition handleFulltextSearch (loader : SwaggerLoader.t) (args : Arguments)
  : Result CallToolResult :=
  if negb (truthy (query args)) then Throw "query parameter is required"
  else
    do results <- FulltextSearch.fulltextSearch loader
                    (FulltextSearch.mkParams (value (query args)) (limit args));
    Ok (respond (Fulltext results)).

Definition handleGetEndpointDetails (loader : SwaggerLoader.t) (args : Arguments)
  : Result CallToolResult :=
  if negb (truthy (path args)) || negb (truthy (method args))
  then Throw "path and method parameters are required"
  else
    let path := value (path args) in
    let method := value (method args) in
    do index <- SwaggerLoader.getEndpointIndex loader;
    match EndpointSearch.operation_at index path (toUpperCase method) with
    | None =>
        Throw ("Endpoint not found: " ++ toUpperCase method ++ " " ++ path)%string
    | Some operation =>
        Ok (respond
              (Details
                 (mkDetails path (toUpperCase method)
                    (Operation.summary operation) (Operation.description operation)
                    (Operation.operationId operation) (Operation.tags operation)
                    (Operation.parameters operation) (Operation.responses operation))))
    end.

(** [group.tags.map(tagName => ...)]: every name is looked up in
    [spec.tags]. *)
Definition group_tag_step (spec : SwaggerSpec.t) (acc : Result (list TagInfo))
    (tagName : string) : Result (list TagInfo) :=
  do infos <- acc;
  do description <- TagSearch.tag_description spec tagName;
  Ok (infos ++ [mkTagInfo tagName description]).

Definition group_step (spec : SwaggerSpec.t) (acc : Result (list TagGroupInfo))
    (group : TagGroup) : Result (list TagGroupInfo) :=
  do infos <- acc;
  do tags <- fold_left (group_tag_step spec) (group_tags group) (Ok []);
  Ok (infos ++ [mkGroupInfo (group_name group) tags]).

(** [tagGroups] is computed before [allTags]; [spec.tags.map] is a
    [TypeError] when the document has no [tags] member. *)
Definition handleListTags (loader : SwaggerLoader.t) : Result CallToolResult :=
  do spec <- SwaggerLoader.getSpec loader;
  let groups := match x_tagGroups spec with Some groups => groups | None => [] end in
  do tagGroups <- fold_left (group_step spec) groups (Ok []);
  do allTags <-
    match SwaggerSpec.tags spec with
    | None => Throw "Cannot read properties of undefined (reading 'map')"
    | Some tags =>
        Ok (map (fun tag => mkTagInfo (Tag.name tag) (Tag.description tag)) tags)
    end;
  Ok (respond (Tags (mkTagList tagGroups allTags))).

(** The handler of [CallToolRequestSchema]: the [switch] inside [try], and
    the [catch] that turns an error into a text. *)
Definition callTool (loader : SwaggerLoader.t) (name : string)
    (arguments : option Arguments) : CallToolResult :=
  let args := match arguments with Some args => args | None => no_arguments end in
  let outcome :=
    if name =? "search_endpoints" then handleSearchEndpoints loader args
    else if name =? "search_by_tag" then handleSearchByTag loader args
    else if name =? "search_schemas" then handleSearchSchemas loader args
    else if name =? "fulltext_search" then handleFulltextSearch loader args
    else if name =? "get_endpoint_details" then handleGetEndpointDetails loader args
    else if name =? "list_tags" then handleListTags loader
    else Throw ("Unknown tool: " ++ name)%string in
  match outcome with
  | Ok result => result
  | Throw errorMessage => mkResult [mkText "text" ("Error: " ++ errorMessage)%string]
  end.

End Handlers.
End McpServer.
(* ===================================================================== *)
(** * Vocabulary of the properties                                        *)
(* ===================================================================== *)

(** ** Strings *)

(** Every code unit of [s] satisfies [P]. *)
Fixpoint all_chars (P : ascii -> bool) (s : string) : bool :=
  match s with
  | EmptyString => true
  | String c rest => P c && all_chars P rest
  end.

Definition no_colon (s : string) : bool :=
  all_chars (fun c => negb (c =? ":")%char) s.

(** The code units of [s] that are not white space, in order. *)
Fixpoint without_spaces (s : string) : string :=
  match s with
  | EmptyString => EmptyString
  | String c rest =>
      if JS.is_space c then without_spaces rest else String c (without_spaces rest)
  end.

(** Two strings that differ in letter case only. *)
Definition same_letters (a b : string) : Prop :=
  JS.toLowerCase a = JS.toLowerCase b.

Definition same_letters_opt (a b : option string) : Prop :=
  match a, b with
  | Some x, Some y => same_letters x y
  | None, None => True
  | _, _ => False
  end.

(** ** Letter case, independently of the case mapping of the code *)





(** ** The tokenizer, in the words of its contract *)

Definition capital_letters : string := "ABCDEFGHIJKLMNOPQRSTUVWXYZ".
Definition small_letters : string := "abcdefghijklmnopqrstuvwxyz".
Definition decimal_digits : string := "0123456789".

(** The first position of a code unit in a string. *)
Fixpoint position (c : ascii) (s : string) : option nat :=
  match s with
  | EmptyString => None
  | String d rest =>
      if (c =? d)%char then Some 0%nat else option_map S (position c rest)
  end.

(** What a code unit gives to a token: a capital of [A-Z] its small
    letter, a small letter or a digit itself.  Any other code unit, white
    space included, separates tokens. *)
Definition token_unit (c : ascii) : option ascii :=
  match position c capital_letters with
  | Some i => String.get i small_letters
  | None =>
      match position c (small_letters ++ decimal_digits) with
      | Some _ => Some c
      | None => None
      end
  end.

(** The maximal runs of token units, with an empty run wherever two
    separators meet or a separator begins or ends the text. *)
Fixpoint runs (text : string) : list string :=
  match text with
  | EmptyString => [EmptyString]
  | String c rest =>
      match token_unit c with
      | Some unit =>
          match runs rest with
          | run :: more => String unit run :: more
          | [] => [String unit EmptyString]
          end
      | None => EmptyString :: runs rest
      end
  end.

(** The tokens of a text: its runs of 3 token units or more. *)
Definition tokens (text : string) : list string :=
  filter (fun run => (3 <=? String.length run)%nat) (runs text).

(** ** Loading *)

(** The endpoint index and the fulltext index as functions of the entries
    of [paths]. *)
Definition endpointIndex_of (entries : list (string * PathItem.t)) : EndpointIndex.t :=
  let '(paths, tags, operationIds) :=
    fold_left SwaggerLoader.endpoint_path_step entries ([], [], []) in
  EndpointIndex.mk paths tags operationIds.

Definition fulltextIndex_of (entries : list (string * PathItem.t)) : FulltextIndex.t :=
  let '(words, documents) :=
    fold_left SwaggerLoader.fulltext_path_step entries ([], []) in
  FulltextIndex.mk words documents.

(** [loader] is an instance on which a load of [spec] has completed, on
    some stack. *)
Definition loaded (spec : SwaggerSpec.t) (loader : SwaggerLoader.t) : Prop :=
  exists room prior,
    SwaggerLoader.load room prior (SwaggerLoader.Parsed (Some spec))
    = (loader, JS.Ok tt).

(** ** Invariants of the fulltext index and of the scoring loop *)

(** The state of the fulltext builder: the identifiers of [documents] are
    distinct, and every set of [words] is non-empty, duplicate-free and
    made of identifiers of [documents]. *)
Definition fulltext_wf (st : JS.Map JS.StrSet * JS.Map Document.t) : Prop :=
  NoDup (JS.map_keys (snd st)) /\
  forall token docIds, In (token, docIds) (fst st) ->
    docIds <> [] /\ NoDup docIds /\ incl docIds (JS.map_keys (snd st)).

(** The state of the scoring loop: no exception so far, every score is
    finite and every scored identifier has a document. *)
Definition scores_wf (index : FulltextIndex.t)
    (acc : JS.Result (JS.Map FulltextSearch.ScoreData)) : Prop :=
  exists scores,
    acc = JS.Ok scores /\
    forall docId data, In (docId, data) scores ->
      JS.is_finite (FulltextSearch.score data) = true /\
      In docId (JS.map_keys (FulltextIndex.documents index)).

(** ** The item chain of a schema *)

(** The property names of [schema], of [schema.items], of
    [schema.items.items], and so on to the end of the chain. *)
Fixpoint chain_names (schema : Schema.t) : list string :=
  match schema with
  | Schema.mk _ items properties _ _ =>
      match properties with Some props => map fst props | None => [] end
      ++ match items with Some items => chain_names items | None => [] end
  end.

(** The calls of [indexSchemaProperties] that one call starts, itself
    included: the recursion is linear, so this is also its depth. *)
Fixpoint calls (schema : Schema.t) : nat :=
  match schema with
  | Schema.mk _ items _ _ _ =>
      S match items with Some items => calls items | None => 0 end
  end.

(** An array of arrays ... of [schema], [depth] levels deep. *)
Fixpoint array_of (depth : nat) (schema : Schema.t) : Schema.t :=
  match depth with
  | O => schema
  | S depth => Schema.mk (Some "array") (Some (array_of depth schema)) None None None
  end.

(** ** The order of the listing *)

(** [a] may stand before [b] in a list sorted by path and then by method:
    the path of [a] collates before that of [b], or the two paths collate
    alike and the method of [a] does not collate after that of [b]. *)
Definition precedes (localeCompare : string -> string -> Z)
    (a b : ListEndpoints.EndpointListItem) : Prop :=
  (localeCompare (ListEndpoints.path a) (ListEndpoints.path b) < 0)%Z \/
  (localeCompare (ListEndpoints.path a) (ListEndpoints.path b) = 0%Z /\
   (localeCompare (ListEndpoints.method a) (ListEndpoints.method b) <= 0)%Z).

(** A collation to run the listing with: the order of the code units. *)
Definition codeUnitCompare (a b : string) : Z :=
  match String.compare a b with
  | Lt => (-1)%Z
  | Eq => 0%Z
  | Gt => 1%Z
  end.

Definition listed (path : string) (operation : Operation.t)
  : ListEndpoints.EndpointListItem :=
  ListEndpoints.mkItem path "GET" (Operation.summary operation)
    (Operation.operationId operation) (Operation.tags operation).

(** ** Fixtures *)

Definition operation (summary description operationId : option string)
    (tags : option (list string)) (parameters : option (list Param.t))
    (responses : option (list (string * Response.t))) : Operation.t :=
  Operation.mk summary description operationId tags parameters responses None.

Definition only_get (op : Operation.t) : PathItem.t :=
  PathItem.mk (Some op) None None None None None None.

Definition object_schema (title : option string) (names : list string) : Schema.t :=
  Schema.mk (Some "object") None
    (Some (map (fun n => (n, Schema.mk (Some "string") None None None None)) names))
    title None.

(** A stack for the fixtures: room for ten thousand nested calls. *)
Definition stack_room : N := 10000%N.

Definition load_new (spec : SwaggerSpec.t) : SwaggerLoader.t :=
  fst (SwaggerLoader.load stack_room SwaggerLoader.new
         (SwaggerLoader.Parsed (Some spec))).

(** Two endpoints: [GET /files/] (summary "List all files") and
    [GET /nodes/]. *)
Definition files_and_nodes : SwaggerSpec.t :=
  SwaggerSpec.mk
    (Some [Tag.mk "Files" (Some "File operations"); Tag.mk "Nodes" None])
    (Some
       [("/files/",
         only_get
           (operation (Some "List all files")
              (Some "Returns a list of all files in the system")
              (Some "files_list") (Some ["Files"])
              (Some [Param.mk "page" "query" (Some "Page number for pagination") None])
              (Some [("200", Response.mk "OK"
                               (Some (object_schema (Some "FileList") ["id"; "name"])))])));
        ("/nodes/",
         only_get
           (operation (Some "List all nodes") None (Some "nodes_list")
              (Some ["Nodes"]) None None))]).

Definition files_and_nodes_loader : SwaggerLoader.t := load_new files_and_nodes.

(** Two endpoints; the word "zebra" occurs in the name of a parameter of
    [GET /animals/] and nowhere else. *)
Definition parameter_only : SwaggerSpec.t :=
  SwaggerSpec.mk (Some [])
    (Some
       [("/animals/",
         only_get
           (operation (Some "Animals") None None None
              (Some [Param.mk "zebra" "query" None None]) None));
        ("/plants/",
         only_get (operation (Some "Plants") None None None None None))]).

Definition parameter_only_loader : SwaggerLoader.t := load_new parameter_only.

(** Two endpoints whose response schemas both have the property [data]:
    [GET /a] names its schema "GET:B", [GET /a:GET] names it "B". *)
Definition named_get (name : string) : PathItem.t :=
  only_get
    (Operation.mk None None None None None
       (Some [("200", Response.mk "OK" (Some (object_schema None ["data"])))])
       (Some name)).

Definition colon_paths : SwaggerSpec.t :=
  SwaggerSpec.mk (Some []) (Some [("/a", named_get "GET:B"); ("/a:GET", named_get "B")]).

Definition colon_paths_loader : SwaggerLoader.t := load_new colon_paths.

Definition occurrence_a : SchemaResult.t :=
  SchemaResult.mk (Some "GET:B") (Some "/a") (Some "GET") (object_schema None ["data"]).

Definition occurrence_a_GET : SchemaResult.t :=
  SchemaResult.mk (Some "B") (Some "/a:GET") (Some "GET") (object_schema None ["data"]).

(** The object under the nested arrays: its one property is "deep". *)
Definition deep_object : Schema.t := object_schema None ["deep"].

(** One endpoint whose response schema is an array of arrays ... of
    objects, [depth] arrays deep. *)
Definition nested_arrays (depth : nat) : SwaggerSpec.t :=
  SwaggerSpec.mk (Some [])
    (Some
       [("/deep/",
         only_get
           (operation None None None None None
              (Some [("200", Response.mk "OK" (Some (array_of depth deep_object)))])))]).

(** A document without a [paths] member: [{"tags": []}]. *)
Definition without_paths : SwaggerSpec.t := SwaggerSpec.mk (Some []) None.

(** [GET /b/] is indexed before [GET /a/]. *)
Definition b_then_a : SwaggerSpec.t :=
  SwaggerSpec.mk (Some [])
    (Some
       [("/b/", only_get (operation (Some "B") None (Some "b_list") None None None));
        ("/a/", only_get (operation (Some "A") None (Some "a_list") None None None))]).

Definition b_then_a_loader : SwaggerLoader.t := load_new b_then_a.

(** [GET /b/] is indexed first, then [GET /a/] and [DELETE /a/]. *)
Definition get_and_delete (get delete : Operation.t) : PathItem.t :=
  PathItem.mk (Some get) None None None (Some delete) None None.

Definition two_methods : SwaggerSpec.t :=
  SwaggerSpec.mk (Some [])
    (Some
       [("/b/", only_get (operation (Some "B") None (Some "b_list") None None None));
        ("/a/",
         get_and_delete
           (operation (Some "A") None (Some "a_list") None None None)
           (operation (Some "Remove A") None (Some "a_delete") None None None))]).

Definition two_methods_loader : SwaggerLoader.t := load_new two_methods.

(** [{"paths": ...}] with one tagged endpoint and no [tags] member. *)
Definition without_tags : SwaggerSpec.t :=
  SwaggerSpec.mk None
    (Some
       [("/files/",
         only_get
           (operation (Some "List all files") None (Some "files_list")
              (Some ["Files"]) None None))]).

Definition without_tags_loader : SwaggerLoader.t := load_new without_tags.

(** ** The document behind an index *)

(** The method map that the builder stores for one path item. *)
Definition methodMap_of (pathItem : PathItem.t) : JS.Map Operation.t :=
  flat_map
    (fun method =>
       match PathItem.at_ pathItem method with
       | Some operation => [(JS.toUpperCase method, operation)]
       | None => []
       end)
    SwaggerLoader.methods.

(** The document declares [operation] for the method named [method] (in
    lower case, one of the seven) at [path]. *)
Definition declares (entries : list (string * PathItem.t))
    (path method : string) (operation : Operation.t) : Prop :=
  exists pathItem,
    In (path, pathItem) entries /\ In method SwaggerLoader.methods /\
    PathItem.at_ pathItem method = Some operation.

(** The entry [opId -> location] of [operationIds] points at an operation
    of the document that carries this identifier. *)
Definition located (entries : list (string * PathItem.t))
    (opId : string) (location : Location.t) : Prop :=
  exists method operation,
    declares entries (Location.path location) method operation /\
    Location.method location = JS.toUpperCase method /\
    Operation.operationId operation = Some opId.

(** The summary [summary] stored under [tag] is the summary of an operation
    of the document that lists [tag]. *)
Definition tagged (entries : list (string * PathItem.t))
    (tag : string) (summary : EndpointResult.t) : Prop :=
  exists method operation tags,
    declares entries (EndpointResult.path summary) method operation /\
    summary = SwaggerLoader.summary_of (EndpointResult.path summary)
                (JS.toUpperCase method) operation /\
    Operation.tags operation = Some tags /\ In tag tags.

(** The [paths] index of a document: its path items in document order,
    those without an operation left out. *)
Definition indexed_paths (entries : list (string * PathItem.t))
  : JS.Map (JS.Map Operation.t) :=
  flat_map
    (fun entry : string * PathItem.t =>
       match methodMap_of (snd entry) with
       | [] => []
       | methodMap => [(fst entry, methodMap)]
       end)
    entries.

(** The document of a loaded instance, with distinct paths (the keys of a
    JSON object). *)
Definition document_of (loader : SwaggerLoader.t) (spec : SwaggerSpec.t)
    (entries : list (string * PathItem.t)) : Prop :=
  loaded spec loader /\ SwaggerSpec.paths spec = Some entries /\
  NoDup (map fst entries).

Definition entries_of (spec : SwaggerSpec.t) : list (string * PathItem.t) :=
  match SwaggerSpec.paths spec with
  | Some entries => entries
  | None => []
  end.

(** The list stored under [key] holds [x]. *)
Definition holds {V} (m : JS.Map (list V)) (key : string) (x : V) : Prop :=
  exists l, JS.map_get m key = Some l /\ In x l.

(** The endpoints of a document, in document order: for every path item,
    its operations in the order of the seven methods. *)
Definition all_endpoints (entries : list (string * PathItem.t))
  : list EndpointResult.t :=
  flat_map
    (fun entry : string * PathItem.t =>
       map (fun m : string * Operation.t =>
              SwaggerLoader.summary_of (fst entry) (fst m) (snd m))
           (methodMap_of (snd entry)))
    entries.

(** The three filters of Endpoint Query, read on an endpoint summary. *)
Definition passes (path method tag : option string) (r : EndpointResult.t) : bool :=
  (negb (JS.truthy path) ||
   JS.includes (JS.toLowerCase (EndpointResult.path r)) (JS.toLowerCase (JS.value path)))
  && (negb (JS.truthy method) ||
      (JS.toUpperCase (EndpointResult.method r) =? JS.toUpperCase (JS.value method)))
  && (negb (JS.truthy tag) ||
      match EndpointResult.tags r with
      | Some ts =>
          existsb (fun t => JS.includes (JS.toLowerCase t) (JS.toLowerCase (JS.value tag))) ts
      | None => false
      end).

(** ** The order of the fulltext results *)

(** Both scores are finite and that of [a] is not the smaller one. *)
Definition outranks (a b : FulltextSearchResult.t) : Prop :=
  exists x y,
    FulltextSearchResult.score a = JS.Finite x /\
    FulltextSearchResult.score b = JS.Finite y /\ (y <= x)%R.

Definition nonnegative (a : JS.number) : Prop :=
  exists x, a = JS.Finite x /\ (0 <= x)%R.

(** The state of the scoring loop, with the sign of the scores. *)
Definition scores_nonnegative (index : FulltextIndex.t)
    (acc : JS.Result (JS.Map FulltextSearch.ScoreData)) : Prop :=
  exists scores,
    acc = JS.Ok scores /\
    forall docId data, In (docId, data) scores ->
      nonnegative (FulltextSearch.score data) /\
      In docId (JS.map_keys (FulltextIndex.documents index)).

(** ** The schema occurrences of a document *)

(** The occurrences that the responses of one operation give: one for
    every response that carries a schema, in the order of the responses. *)
Definition occurrences_in (path method : string) (operation : Operation.t)
    (responses : list (string * Response.t)) : list SchemaResult.t :=
  flat_map
    (fun entry : string * Response.t =>
       match Response.schema (snd entry) with
       | Some schema =>
           [SchemaResult.mk (SwaggerLoader.schemaName_of operation schema)
              (Some path) (Some (JS.toUpperCase method)) schema]
       | None => []
       end)
    responses.

Definition response_occurrences (path method : string) (operation : Operation.t)
  : list SchemaResult.t :=
  match Operation.responses operation with
  | Some responses => occurrences_in path method operation responses
  | None => []
  end.

Definition method_occurrences (path : string) (pathItem : PathItem.t)
    (method : string) : list SchemaResult.t :=
  match PathItem.at_ pathItem method with
  | Some operation => response_occurrences path method operation
  | None => []
  end.

(** All of them, in document order. *)
Definition occurrences (entries : list (string * PathItem.t)) : list SchemaResult.t :=
  flat_map
    (fun entry : string * PathItem.t =>
       flat_map (method_occurrences (fst entry) (snd entry)) SwaggerLoader.methods)
    entries.

(** What [buildSchemaIndex] does with one occurrence when no call runs out
    of stack: the occurrence is pushed under its schema name, if it has
    one, and under every property name on the item chain of its schema. *)
Definition register
    (st : JS.Map (list SchemaResult.t) * JS.Map (list SchemaResult.t))
    (r : SchemaResult.t)
  : JS.Map (list SchemaResult.t) * JS.Map (list SchemaResult.t) :=
  (if JS.truthy (SchemaResult.schemaName r)
   then SwaggerLoader.push_at (fst st) (JS.value (SchemaResult.schemaName r)) r
   else fst st,
   fold_left (fun byProperty propName => SwaggerLoader.push_at byProperty propName r)
             (chain_names (SchemaResult.schema r)) (snd st)).

(** The schema index as a function of the entries of [paths]. *)
Definition schemaIndex_of (entries : list (string * PathItem.t)) : SchemaIndex.t :=
  SchemaIndex.mk (fst (fold_left register (occurrences entries) ([], [])))
                 (snd (fold_left register (occurrences entries) ([], []))).

(** The item chain of the occurrence is indexed within [room] nested
    calls. *)
Definition within (room : N) (r : SchemaResult.t) : bool :=
  (N.of_nat (calls (SchemaResult.schema r)) <=? room)%N.

(** No item chain of the document exceeds the stack. *)
Definition fits (room : N) (entries : list (string * PathItem.t)) : bool :=
  forallb (within room) (occurrences entries).

(** A loop body of [buildSchemaIndex]: it passes an exception on, and
    otherwise registers the occurrences [occ x] of its item [x], unless a
    chain among them is too long for the stack. *)
Definition registering {X : Type} (room : N)
    (step : JS.Result (JS.Map (list SchemaResult.t) * JS.Map (list SchemaResult.t)) ->
            X -> JS.Result (JS.Map (list SchemaResult.t) * JS.Map (list SchemaResult.t)))
    (occ : X -> list SchemaResult.t) : Prop :=
  (forall message x, step (JS.Throw message) x = JS.Throw message) /\
  (forall st x,
      step (JS.Ok st) x =
      if forallb (within room) (occ x)
      then JS.Ok (fold_left register (occ x) st)
      else JS.Throw "Maximum call stack size exceeded").

(** The list stored under [key], empty when the key is absent. *)
Definition stored {V} (m : JS.Map (list V)) (key : string) : list V :=
  match JS.map_get m key with
  | Some l => l
  | None => []
  end.

(** The occurrence carries the schema name [name]. *)
Definition named (name : string) (r : SchemaResult.t) : bool :=
  JS.truthy (SchemaResult.schemaName r) &&
  (JS.value (SchemaResult.schemaName r) =? name)%string.

(** One copy of the occurrence for every time [name] is a property name
    on the item chain of its schema. *)
Definition copies (name : string) (r : SchemaResult.t) : list SchemaResult.t :=
  flat_map (fun propName => if (propName =? name)%string then [r] else [])
           (chain_names (SchemaResult.schema r)).

(** The state [st'] of the schema builder is [st] with the occurrences [l]
    registered after what [st] holds. *)
Definition registers
    (st st' : JS.Map (list SchemaResult.t) * JS.Map (list SchemaResult.t))
    (l : list SchemaResult.t) : Prop :=
  forall name,
    stored (fst st') name = stored (fst st) name ++ filter (named name) l /\
    stored (snd st') name = stored (snd st) name ++ flat_map (copies name) l.

(** The criterion that Schema Query applies: the first of the three modes
    whose parameters are given decides. *)
Definition selects (params : SchemaSearch.SchemaSearchParams) (r : SchemaResult.t)
  : Prop :=
  if JS.truthy (SchemaSearch.schemaName params) then
    JS.truthy (SchemaResult.schemaName r) = true /\
    JS.includes (JS.toLowerCase (JS.value (SchemaResult.schemaName r)))
                (JS.toLowerCase (JS.value (SchemaSearch.schemaName params))) = true
  else if JS.truthy (SchemaSearch.property params) then
    exists propName,
      In propName (chain_names (SchemaResult.schema r)) /\
      JS.includes (JS.toLowerCase propName)
                  (JS.toLowerCase (JS.value (SchemaSearch.property params))) = true
  else if JS.truthy (SchemaSearch.path params) && JS.truthy (SchemaSearch.method params) then
    SchemaResult.path r = Some (JS.value (SchemaSearch.path params)) /\
    SchemaResult.method r =
      Some (JS.toUpperCase (JS.value (SchemaSearch.method params)))
  else False.

(** The keys of a map of lists are distinct and no list is empty. *)
Definition lists_wf {V} (m : JS.Map (list V)) : Prop :=
  NoDup (JS.map_keys m) /\ forall k l, In (k, l) m -> l <> [].

(** ** The operations of a document and their fulltext documents *)

(** The operations in document order, each with its path and its method
    name (in lower case, one of the seven). *)
Definition operations (entries : list (string * PathItem.t))
  : list (string * string * Operation.t) :=
  flat_map
    (fun entry : string * PathItem.t =>
       flat_map
         (fun method =>
            match PathItem.at_ (snd entry) method with
            | Some operation => [(fst entry, method, operation)]
            | None => []
            end)
         SwaggerLoader.methods)
    entries.

(** [`${method.toUpperCase()}:${path}`] *)
Definition docId_of (x : string * string * Operation.t) : string :=
  (JS.toUpperCase (snd (fst x)) ++ ":" ++ fst (fst x))%string.

Definition content_of (operation : Operation.t) : string :=
  JS.join " " (SwaggerLoader.contentParts operation).

(** The document that the fulltext builder stores for an operation. *)
Definition indexed_document (x : string * string * Operation.t) : Document.t :=
  Document.mk (fst (fst x)) (JS.toUpperCase (snd (fst x))) (content_of (snd x))
    (Operation.summary (snd x)) (Operation.description (snd x)).

(** What the fulltext builder does for one operation. *)
Definition fulltext_operation_step (st : JS.Map JS.StrSet * JS.Map Document.t)
    (x : string * string * Operation.t) : JS.Map JS.StrSet * JS.Map Document.t :=
  (fold_left (SwaggerLoader.add_word (docId_of x))
             (SwaggerLoader.tokenize (content_of (snd x))) (fst st),
   JS.map_set (snd st) (docId_of x) (indexed_document x)).

(** The query and the operation share a token. *)
Definition shares_a_token (query : string) (operation : Operation.t) : Prop :=
  exists token,
    In token (FulltextSearch.tokenize query) /\
    In token (SwaggerLoader.tokenize (content_of operation)).

(** The result [r] reports the document [doc]. *)
Definition reports (documents : JS.Map Document.t)
    (entry : string * FulltextSearch.ScoreData) (r : FulltextSearchResult.t) : Prop :=
  exists doc,
    JS.map_get documents (fst entry) = Some doc /\
    r = FulltextSearchResult.mk (Document.path doc) (Document.method doc)
          (Document.summary doc) (Document.description doc)
          (FulltextSearch.score (snd entry)) (FulltextSearch.matchedFields (snd entry)).

(** ** The score and the matched fields of one document *)

(** The score entry of [docId], or the entry that the loop would create. *)
Definition entry_of (scores : JS.Map FulltextSearch.ScoreData) (docId : string)
  : FulltextSearch.ScoreData :=
  match JS.map_get scores docId with
  | Some data => data
  | None => FulltextSearch.mkScore (JS.Finite 0) []
  end.

(** [(1 / queryTokens.length) * Math.log(documents.size / docIds.size)] *)
Definition fulltext_term (index : FulltextIndex.t) (queryTokens : list string)
    (df : nat) : JS.number :=
  JS.mul (JS.div (JS.Finite 1) (JS.of_nat (length queryTokens)))
         (JS.Math_log
            (JS.div (JS.of_nat (JS.map_size (FulltextIndex.documents index)))
                    (JS.of_nat df))).

(** The fields added when a token is found in the summary or in the
    description. *)
Definition matched_fields (doc : Document.t) (token : string) (fields : JS.StrSet)
  : JS.StrSet :=
  let fields :=
    if FulltextSearch.field_includes (Document.summary doc) token
    then JS.set_add fields "summary" else fields in
  if FulltextSearch.field_includes (Document.description doc) token
  then JS.set_add fields "description" else fields.

(** What one visit of the scoring loop does to the entry of [docId]. *)
Definition bump (index : FulltextIndex.t) (queryTokens : list string)
    (token : string) (df : nat) (docId : string) (data : FulltextSearch.ScoreData)
  : FulltextSearch.ScoreData :=
  match JS.map_get (FulltextIndex.documents index) docId with
  | Some doc =>
      FulltextSearch.mkScore
        (JS.add (FulltextSearch.score data) (fulltext_term index queryTokens df))
        (matched_fields doc token (FulltextSearch.matchedFields data))
  | None => data
  end.

(** What the loop over one query token does to the entry of [docId]. *)
Definition visit (index : FulltextIndex.t) (queryTokens : list string)
    (docId : string) (data : FulltextSearch.ScoreData) (token : string)
  : FulltextSearch.ScoreData :=
  if JS.set_has (stored (FulltextIndex.words index) token) docId
  then bump index queryTokens token
         (length (stored (FulltextIndex.words index) token)) docId data
  else data.

(** The score of [docId] for a query: one term for every query token,
    repeated ones included, whose set holds [docId]. *)
Definition score_sum (index : FulltextIndex.t) (queryTokens : list string)
    (docId : string) : JS.number :=
  fold_left
    (fun (sum : JS.number) token =>
       if JS.set_has (stored (FulltextIndex.words index) token) docId
       then JS.add sum
              (fulltext_term index queryTokens
                 (length (stored (FulltextIndex.words index) token)))
       else sum)
    queryTokens (JS.Finite 0).

(** Some query token whose set holds [docId] is a substring of the field
    in lower case. *)
Definition field_matches (index : FulltextIndex.t) (queryTokens : list string)
    (docId : string) (field : option string) : Prop :=
  exists token,
    In token queryTokens /\
    In docId (stored (FulltextIndex.words index) token) /\
    FulltextSearch.field_includes field token = true.

(** ** The bundles of Tag Query *)

(** The description that the document's tag definitions give for a tag
    name: that of the first definition with this name, if there is one. *)
Definition defined_description (spec : SwaggerSpec.t) (name : string)
  : option string :=
  match SwaggerSpec.tags spec with
  | Some tags =>
      match find (fun t => (Tag.name t =? name)%string) tags with
      | Some tagInfo => Tag.description tagInfo
      | None => None
      end
  | None => None
  end.

(** One bundle for every tag of the index whose name contains the
    normalized text, described by [describe]. *)
Definition bundles_of (describe : string -> option string) (normalizedTag : string)
    (tags : JS.Map (list EndpointResult.t)) : list TagSearchResult.t :=
  flat_map
    (fun entry : string * list EndpointResult.t =>
       if JS.includes (JS.toLowerCase (fst entry)) normalizedTag
       then [TagSearchResult.mk (fst entry) (describe (fst entry)) (snd entry)]
       else [])
    tags.

(** The tag names of the index that contain the text, letter case apart. *)
Definition matching_tags (index : EndpointIndex.t) (tag : string) : list string :=
  filter (fun name => JS.includes (JS.toLowerCase name) (JS.toLowerCase tag))
         (JS.map_keys (EndpointIndex.tags index)).

(* ===================================================================== *)
(** * Properties                                                          *)
(* ===================================================================== *)

(** ** Lists, slices and the stable sort *)

Section ListFacts.
Context {A : Type}.

Lemma filter_none (f : A -> bool) (l : list A) :
  (forall x, In x l -> f x = false) -> filter f l = [].
Proof.
  induction l as [|x l IH]; intros H; simpl; auto.
  rewrite (H x (or_introl eq_refl)). apply IH. intros y Hy. apply H. now right.
Qed.

Lemma firstn_min_length (n : nat) (l : list A) :
  firstn (Nat.min n (length l)) l = firstn n l.
Proof.
  destruct (Nat.le_ge_cases n (length l)) as [H|H].
  - now rewrite Nat.min_l.
  - rewrite Nat.min_r by assumption.
    now rewrite firstn_all, firstn_all2.
Qed.

Lemma slice_nonneg (l : list A) (start count : Z) :
  (0 <= start)%Z -> (0 <= count)%Z ->
  JS.slice l start (start + count) =
  firstn (Z.to_nat count) (skipn (Z.to_nat start) l).
Proof.
  intros Hs Hc. unfold JS.slice.
  destruct (start <? 0)%Z eqn:E1; [apply Z.ltb_lt in E1; lia|].
  destruct (start + count <? 0)%Z eqn:E2; [apply Z.ltb_lt in E2; lia|].
  set (len := Z.of_nat (length l)).
  destruct (Z.le_gt_cases start len) as [Hle|Hgt].
  - rewrite (Z.min_l start len) by assumption.
    replace (Z.to_nat (Z.min (start + count) len - start))
      with (Nat.min (Z.to_nat count) (length (skipn (Z.to_nat start) l))).
    + apply firstn_min_length.
    + rewrite length_skipn. subst len. lia.
  - rewrite (Z.min_r start len) by lia.
    rewrite (Z.min_r (start + count) len) by lia.
    rewrite Z.sub_diag. simpl.
    rewrite (skipn_all2 l) by (subst len; lia).
    now rewrite firstn_nil.
Qed.

Lemma slice_from_0 (l : list A) (count : Z) :
  (0 <= count)%Z -> JS.slice l 0 count = firstn (Z.to_nat count) l.
Proof.
  intros H. change count with (0 + count)%Z at 1.
  now rewrite slice_nonneg by lia.
Qed.

Lemma In_firstn (n : nat) (l : list A) (x : A) : In x (firstn n l) -> In x l.
Proof.
  intros H. rewrite <- (firstn_skipn n l). apply in_or_app. now left.
Qed.

Lemma In_skipn (n : nat) (l : list A) (x : A) : In x (skipn n l) -> In x l.
Proof.
  intros H. rewrite <- (firstn_skipn n l). apply in_or_app. now right.
Qed.

Lemma slice_incl (l : list A) (start stop : Z) (x : A) :
  In x (JS.slice l start stop) -> In x l.
Proof.
  unfold JS.slice. intros H.
  apply In_firstn in H. now apply In_skipn in H.
Qed.

Variable after : A -> A -> bool.

Lemma insert_sorted_perm (x : A) (l : list A) :
  Permutation (JS.insert_sorted after x l) (x :: l).
Proof.
  induction l as [|y l IH]; simpl; auto.
  destruct (after x y); auto.
  rewrite IH. apply perm_swap.
Qed.

Lemma sort_perm (l : list A) : Permutation (JS.sort after l) l.
Proof.
  induction l as [|x l IH]; simpl; auto.
  rewrite insert_sorted_perm. now constructor.
Qed.

Lemma sort_In (l : list A) (x : A) : In x (JS.sort after l) <-> In x l.
Proof.
  split; apply Permutation_in; [|symmetry]; apply sort_perm.
Qed.

(** The sort orders its input when [after] refines a relation [le] that is
    total in the sense of the two implications below. *)
Variable le : A -> A -> Prop.
Hypothesis after_false : forall x y, after x y = false -> le x y.
Hypothesis after_true : forall x y, after x y = true -> le y x.

Lemma insert_sorted_Sorted (x : A) (l : list A) :
  Sorted le l -> Sorted le (JS.insert_sorted after x l).
Proof.
  induction l as [|y l IH]; intros Hs; simpl.
  - repeat constructor.
  - destruct (after x y) eqn:E.
    + inversion Hs as [|? ? Hs' Hhd]; subst.
      constructor; [now apply IH|].
      destruct l as [|z l]; simpl.
      * constructor. now apply after_true.
      * destruct (after x z) eqn:E'.
        -- inversion Hhd; subst. now constructor.
        -- constructor. now apply after_true.
    + constructor; [assumption|]. constructor. now apply after_false.
Qed.

Lemma sort_Sorted (l : list A) : Sorted le (JS.sort after l).
Proof.
  induction l as [|x l IH]; simpl; [constructor|].
  now apply insert_sorted_Sorted.
Qed.

End ListFacts.

(** ** The primitives on small inputs *)

Example toLowerCase_mixed : JS.toLowerCase "FiLeS_42" = "files_42".
Proof. reflexivity. Qed.

Example toUpperCase_method : JS.toUpperCase "patch" = "PATCH".
Proof. reflexivity. Qed.

Example includes_inner : JS.includes "files_list" "s_l" = true.
Proof. reflexivity. Qed.

Example includes_empty_needle : JS.includes "files" "" = true.
Proof. reflexivity. Qed.

Example includes_gap : JS.includes "files" "fls" = false.
Proof. reflexivity. Qed.

Example split_ws_inner_run : JS.split_ws "list  all files" = ["list"; "all"; "files"].
Proof. reflexivity. Qed.

Example split_ws_borders : JS.split_ws " a " = [""; "a"; ""].
Proof. reflexivity. Qed.

Example split_ws_empty : JS.split_ws "" = [""].
Proof. reflexivity. Qed.

Example replace_punctuation : JS.replace_non_alnum "file-upload (v2)" = "file upload  v2 ".
Proof. reflexivity. Qed.

Example join_parts : JS.join " " ["List all files"; "page"] = "List all files page".
Proof. reflexivity. Qed.

Example slice_negative_stop : JS.slice [1; 2; 3; 4; 5]%nat 0 (-1) = [1; 2; 3; 4]%nat.
Proof. reflexivity. Qed.

Example slice_window : JS.slice [1; 2; 3; 4; 5]%nat 1 3 = [2; 3]%nat.
Proof. reflexivity. Qed.

Example map_set_keeps_position :
  JS.map_set [("a", 1); ("b", 2)]%nat "a" 3%nat = [("a", 3); ("b", 2)]%nat.
Proof. reflexivity. Qed.

Example set_add_twice : JS.set_add (JS.set_add [] "GET:/a") "GET:/a" = ["GET:/a"].
Proof. reflexivity. Qed.

Example tokenize_sentence :
  SwaggerLoader.tokenize "Returns a list of all files in the system" =
  ["returns"; "list"; "all"; "files"; "the"; "system"].
Proof. reflexivity. Qed.

(** The special values arise where ECMAScript produces them. *)
Lemma sign_zero : JS.sign 0 = Eq.
Proof.
  unfold JS.sign. destruct (Rlt_dec 0 0) as [H|_]; [lra|].
  destruct (Rlt_dec 0 0) as [H|_]; [lra|reflexivity].
Qed.

Lemma sign_pos (x : R) : (0 < x)%R -> JS.sign x = Gt.
Proof. intros H. unfold JS.sign. now destruct (Rlt_dec 0 x). Qed.

Lemma log_of_division_by_zero (n : nat) :
  (1 <= n)%nat -> JS.Math_log (JS.div (JS.of_nat n) (JS.of_nat 0)) = JS.PosInf.
Proof.
  intros H. unfold JS.div, JS.of_nat. simpl INR. rewrite sign_zero.
  rewrite sign_pos by (apply lt_0_INR; lia). reflexivity.
Qed.

Lemma log_of_zero (n : nat) :
  (1 <= n)%nat -> JS.Math_log (JS.div (JS.of_nat 0) (JS.of_nat n)) = JS.NegInf.
Proof.
  intros H. unfold JS.of_nat. cbn [JS.div].
  rewrite sign_pos by (apply lt_0_INR; lia). cbn [JS.Math_log].
  replace (INR 0 / INR n)%R with 0%R by (simpl; unfold Rdiv; ring).
  now rewrite sign_zero.
Qed.

Lemma zero_by_zero : JS.div (JS.of_nat 0) (JS.of_nat 0) = JS.NaN.
Proof. unfold JS.div, JS.of_nat. simpl INR. now rewrite sign_zero. Qed.

(** ** Maps and sets in insertion order *)

Lemma fold_left_invariant {S X : Type} (P : S -> Prop) (f : S -> X -> S)
    (l : list X) (st : S) :
  (forall s x, In x l -> P s -> P (f s x)) -> P st -> P (fold_left f l st).
Proof.
  revert st. induction l as [|x l IH]; simpl; intros st Hf Hst; [assumption|].
  apply IH; [intros s y Hy; apply Hf; now right|apply Hf; auto].
Qed.

Section MapFacts.
Context {V : Type}.
Implicit Types (m : JS.Map V) (k : string) (v : V).

Lemma map_get_In m k v : JS.map_get m k = Some v -> In (k, v) m.
Proof.
  induction m as [|[k' v'] m IH]; simpl; [discriminate|].
  destruct (k' =? k) eqn:E.
  - apply String.eqb_eq in E. intros [= ->]. left. now subst.
  - intros H. right. now apply IH.
Qed.

Lemma map_get_keys m k : In k (JS.map_keys m) -> exists v, JS.map_get m k = Some v.
Proof.
  induction m as [|[k' v'] m IH]; simpl; [tauto|].
  intros [->|H].
  - rewrite String.eqb_refl. eauto.
  - destruct (k' =? k); eauto.
Qed.

Lemma map_get_none m k : JS.map_get m k = None -> ~ In k (JS.map_keys m).
Proof.
  intros H Hin. apply map_get_keys in Hin as [v Hv]. congruence.
Qed.

Lemma map_get_set_same m k v : JS.map_get (JS.map_set m k v) k = Some v.
Proof.
  induction m as [|[k' v'] m IH]; simpl.
  - now rewrite String.eqb_refl.
  - destruct (k' =? k) eqn:E; simpl; now rewrite E.
Qed.

Lemma map_set_set m k v v' :
  JS.map_set (JS.map_set m k v) k v' = JS.map_set m k v'.
Proof.
  induction m as [|[k0 v0] m IH]; simpl.
  - now rewrite String.eqb_refl.
  - destruct (k0 =? k) eqn:E; simpl; rewrite E; [reflexivity|now rewrite IH].
Qed.

Lemma map_keys_set_present m k v :
  In k (JS.map_keys m) -> JS.map_keys (JS.map_set m k v) = JS.map_keys m.
Proof.
  induction m as [|[k' v'] m IH]; simpl; [tauto|].
  intros H. destruct (k' =? k) eqn:E; simpl; [reflexivity|].
  f_equal. apply IH. destruct H as [->|H]; [|assumption].
  now rewrite String.eqb_refl in E.
Qed.

Lemma map_keys_set_absent m k v :
  ~ In k (JS.map_keys m) -> JS.map_keys (JS.map_set m k v) = JS.map_keys m ++ [k].
Proof.
  induction m as [|[k' v'] m IH]; simpl; [reflexivity|].
  intros H. destruct (k' =? k) eqn:E.
  - apply String.eqb_eq in E. tauto.
  - simpl. f_equal. apply IH. tauto.
Qed.

Lemma map_keys_set m k v k' :
  In k' (JS.map_keys (JS.map_set m k v)) <-> k' = k \/ In k' (JS.map_keys m).
Proof.
  destruct (in_dec string_dec k (JS.map_keys m)) as [H|H].
  - rewrite map_keys_set_present by assumption. split; [tauto|].
    intros [->|H']; assumption.
  - rewrite map_keys_set_absent by assumption. rewrite in_app_iff. simpl.
    split; intros [H'|H']; auto; destruct H' as [->|[]]; auto.
Qed.

Lemma map_keys_set_NoDup m k v :
  NoDup (JS.map_keys m) -> NoDup (JS.map_keys (JS.map_set m k v)).
Proof.
  intros Hn. destruct (in_dec string_dec k (JS.map_keys m)) as [H|H].
  - now rewrite map_keys_set_present.
  - rewrite map_keys_set_absent by assumption.
    apply NoDup_app; [assumption|repeat constructor; simpl; tauto|].
    intros x Hx [<-|[]]. contradiction.
Qed.

Lemma map_set_In m k v k' v' :
  In (k', v') (JS.map_set m k v) -> (k' = k /\ v' = v) \/ In (k', v') m.
Proof.
  induction m as [|[k0 v0] m IH]; simpl.
  - intros [[= <- <-]|[]]. auto.
  - destruct (k0 =? k) eqn:E; simpl.
    + apply String.eqb_eq in E. subst k0.
      intros [[= <- <-]|H]; auto.
    + intros [H|H]; auto. apply IH in H. tauto.
Qed.

Lemma map_has_true m k : JS.map_has m k = true <-> In k (JS.map_keys m).
Proof.
  unfold JS.map_has. split.
  - destruct (JS.map_get m k) eqn:E; [|discriminate].
    intros _. apply map_get_In in E. now apply (in_map fst) in E.
  - intros H. apply map_get_keys in H as [v ->]. reflexivity.
Qed.

Lemma map_has_false m k : JS.map_has m k = false -> JS.map_get m k = None.
Proof. unfold JS.map_has. now destruct (JS.map_get m k). Qed.

End MapFacts.

Lemma set_has_true (s : JS.StrSet) (x : string) : JS.set_has s x = true <-> In x s.
Proof.
  unfold JS.set_has. rewrite existsb_exists. split.
  - intros [y [Hy E]]. apply String.eqb_eq in E. now subst.
  - intros H. exists x. split; [assumption|apply String.eqb_refl].
Qed.

Lemma set_add_In (s : JS.StrSet) (x y : string) :
  In y (JS.set_add s x) <-> In y s \/ y = x.
Proof.
  unfold JS.set_add. destruct (JS.set_has s x) eqn:E.
  - apply set_has_true in E. split; [tauto|]. intros [H| ->]; assumption.
  - rewrite in_app_iff. simpl. intuition.
Qed.

Lemma set_add_NoDup (s : JS.StrSet) (x : string) :
  NoDup s -> NoDup (JS.set_add s x).
Proof.
  intros Hn. unfold JS.set_add. destruct (JS.set_has s x) eqn:E; [assumption|].
  apply NoDup_app; [assumption|repeat constructor; simpl; tauto|].
  intros y Hy [<-|[]].
  apply set_has_true in Hy. congruence.
Qed.

Lemma set_add_not_nil (s : JS.StrSet) (x : string) : JS.set_add s x <> [].
Proof.
  unfold JS.set_add. destruct (JS.set_has s x) eqn:E.
  - apply set_has_true in E. intros ->. destruct E.
  - destruct s; discriminate.
Qed.

(** [push_at] and [add_word] as one [map_set]. *)
Lemma push_at_spec {V} (m : JS.Map (list V)) (k : string) (x : V) :
  SwaggerLoader.push_at m k x =
  JS.map_set m k (match JS.map_get m k with Some l => l | None => [] end ++ [x]).
Proof.
  unfold SwaggerLoader.push_at. destruct (JS.map_has m k) eqn:E.
  - unfold JS.map_has in E. destruct (JS.map_get m k); [reflexivity|discriminate].
  - rewrite (map_has_false _ _ E), map_get_set_same. apply map_set_set.
Qed.

Lemma add_word_spec (docId : string) (words : JS.Map JS.StrSet) (token : string) :
  SwaggerLoader.add_word docId words token =
  JS.map_set words token
    (JS.set_add (match JS.map_get words token with Some d => d | None => [] end) docId).
Proof.
  unfold SwaggerLoader.add_word. destruct (JS.map_has words token) eqn:E.
  - unfold JS.map_has in E. destruct (JS.map_get words token); [reflexivity|discriminate].
  - rewrite (map_has_false _ _ E), map_get_set_same. apply map_set_set.
Qed.

(** ** Strings *)

Ltac each_code_unit c :=
  destruct c as [[] [] [] [] [] [] [] []]; try reflexivity; try discriminate.

Lemma lower_char_space (c : ascii) : JS.is_space c = true -> JS.lower_char c = c.
Proof. each_code_unit c. Qed.

Lemma upper_lower_char (c : ascii) :
  JS.upper_char (JS.lower_char c) = JS.upper_char c.
Proof. each_code_unit c. Qed.

Lemma toUpperCase_toLowerCase (s : string) :
  JS.toUpperCase (JS.toLowerCase s) = JS.toUpperCase s.
Proof.
  induction s as [|c s IH]; simpl; auto.
  now rewrite upper_lower_char, IH.
Qed.

Lemma toLowerCase_empty (s : string) : JS.toLowerCase s = "" <-> s = "".
Proof. destruct s; simpl; split; intros H; try reflexivity; discriminate. Qed.

Lemma same_letters_upper (a b : string) :
  same_letters a b -> JS.toUpperCase a = JS.toUpperCase b.
Proof.
  unfold same_letters. intros H.
  rewrite <- (toUpperCase_toLowerCase a), <- (toUpperCase_toLowerCase b).
  now rewrite H.
Qed.

Lemma same_letters_truthy (a b : option string) :
  same_letters_opt a b -> JS.truthy a = JS.truthy b.
Proof.
  destruct a as [x|], b as [y|]; simpl; try tauto.
  unfold same_letters. intros H.
  destruct x, y; simpl in *; try reflexivity; discriminate.
Qed.

Lemma same_letters_value_lower (a b : option string) :
  same_letters_opt a b ->
  JS.toLowerCase (JS.value a) = JS.toLowerCase (JS.value b).
Proof. destruct a, b; simpl; tauto. Qed.

Lemma same_letters_value_upper (a b : option string) :
  same_letters_opt a b ->
  JS.toUpperCase (JS.value a) = JS.toUpperCase (JS.value b).
Proof.
  destruct a, b; simpl; try tauto. apply same_letters_upper.
Qed.

(** ** The tokenizer *)

Lemma toLowerCase_spaces (s : string) :
  all_chars JS.is_space s = true -> JS.toLowerCase s = s.
Proof.
  induction s as [|c s IH]; simpl; auto.
  intros H. apply andb_prop in H as [Hc Hs].
  now rewrite lower_char_space, IH.
Qed.

Lemma replace_non_alnum_spaces (s : string) :
  all_chars JS.is_space s = true -> JS.replace_non_alnum s = s.
Proof.
  induction s as [|c s IH]; simpl; auto.
  intros H. apply andb_prop in H as [Hc Hs].
  now rewrite Hc, orb_true_r, IH.
Qed.

Lemma replace_non_alnum_chars (s : string) :
  all_chars (fun c => JS.is_alnum c || JS.is_space c) (JS.replace_non_alnum s) = true.
Proof.
  induction s as [|c s IH]; simpl; auto.
  rewrite IH, andb_true_r.
  destruct (JS.is_alnum c || JS.is_space c) eqn:E; [assumption|reflexivity].
Qed.

(** A piece of the split holds no white space, and nothing that the split
    string does not hold. *)
Lemma split_ws_from_pieces (P : ascii -> bool) (s : string) :
  all_chars P s = true ->
  forall prev piece, In piece (JS.split_ws_from prev s) ->
    all_chars (fun c => P c && negb (JS.is_space c)) piece = true.
Proof.
  induction s as [|c s IH]; simpl; intros HP prev piece Hin.
  - destruct Hin as [<-|[]]. reflexivity.
  - apply andb_prop in HP as [Hc Hs].
    destruct (JS.is_space c) eqn:Esp.
    + destruct prev.
      * now apply (IH Hs true).
      * destruct Hin as [<-|Hin]; [reflexivity|now apply (IH Hs true)].
    + pose proof (IH Hs false) as IH'.
      destruct (JS.split_ws_from false s) as [|p ps].
      * destruct Hin as [<-|[]]. simpl. now rewrite Hc, Esp.
      * destruct Hin as [<-|Hin].
        -- simpl. rewrite Hc, Esp. simpl. apply IH'. now left.
        -- apply IH'. now right.
Qed.

Lemma split_ws_from_spaces (s : string) :
  all_chars JS.is_space s = true ->
  forall prev piece, In piece (JS.split_ws_from prev s) -> piece = "".
Proof.
  intros Hs prev piece Hin.
  pose proof (split_ws_from_pieces JS.is_space s Hs prev piece Hin) as H.
  destruct piece as [|c piece]; [reflexivity|].
  simpl in H. destruct (JS.is_space c); discriminate.
Qed.

Lemma append_empty_r (s : string) : (s ++ "")%string = s.
Proof. induction s as [|c s IH]; simpl; [reflexivity|now rewrite IH]. Qed.

Lemma join_empty_cons (piece : string) (pieces : list string) :
  JS.join "" (piece :: pieces) = (piece ++ JS.join "" pieces)%string.
Proof.
  destruct pieces as [|q pieces]; simpl; [now rewrite append_empty_r|reflexivity].
Qed.

(** The split loses nothing but white space. *)
Lemma split_ws_from_join (s : string) (prev : bool) :
  JS.join "" (JS.split_ws_from prev s) = without_spaces s.
Proof.
  revert prev. induction s as [|c s IH]; intros prev; [reflexivity|].
  cbn [JS.split_ws_from without_spaces].
  destruct (JS.is_space c).
  - destruct prev; [apply IH|]. rewrite join_empty_cons. apply IH.
  - specialize (IH false).
    destruct (JS.split_ws_from false s) as [|piece pieces].
    + simpl in *. now rewrite <- IH.
    + rewrite join_empty_cons in *. simpl. now rewrite IH.
Qed.

Lemma all_chars_impl (P Q : ascii -> bool) (s : string) :
  (forall c, P c = true -> Q c = true) ->
  all_chars P s = true -> all_chars Q s = true.
Proof.
  intros HPQ. induction s as [|c s IH]; simpl; auto.
  intros H. apply andb_prop in H as [Hc Hs].
  now rewrite (HPQ c Hc), IH.
Qed.

Lemma tokenize_token (text token : string) :
  In token (FulltextSearch.tokenize text) ->
  (2 < String.length token)%nat /\ all_chars JS.is_alnum token = true.
Proof.
  unfold FulltextSearch.tokenize. intros H.
  apply filter_In in H as [Hin Hlen]. split.
  - now apply Nat.ltb_lt.
  - apply (split_ws_from_pieces _ _ (replace_non_alnum_chars _)) in Hin.
    revert Hin. apply all_chars_impl. intros c Hc.
    apply andb_prop in Hc as [H1 H2].
    destruct (JS.is_space c); [discriminate|].
    now rewrite orb_false_r in H1.
Qed.

Lemma tokenize_short_pieces (text : string) :
  (forall piece,
      In piece (JS.split_ws (JS.replace_non_alnum (JS.toLowerCase text))) ->
      (String.length piece <= 2)%nat) ->
  FulltextSearch.tokenize text = [].
Proof.
  intros H. unfold FulltextSearch.tokenize. apply filter_none.
  intros piece Hin. apply Nat.ltb_ge. now apply H.
Qed.

Lemma tokenize_spaces (text : string) :
  all_chars JS.is_space text = true -> FulltextSearch.tokenize text = [].
Proof.
  intros H. apply tokenize_short_pieces. intros piece Hin.
  rewrite toLowerCase_spaces, replace_non_alnum_spaces in Hin by assumption.
  apply (split_ws_from_spaces _ H) in Hin. subst piece. simpl. lia.
Qed.

(** *** The tokenizer against its contract *)

(** What the first two steps of the tokenizer make of a code unit. *)
Lemma token_unit_steps (c : ascii) :
  token_unit c =
  if JS.is_space
       (if JS.is_alnum (JS.lower_char c) || JS.is_space (JS.lower_char c)
        then JS.lower_char c else " "%char)
  then None
  else Some (if JS.is_alnum (JS.lower_char c) || JS.is_space (JS.lower_char c)
             then JS.lower_char c else " "%char).
Proof. each_code_unit c. Qed.

Lemma filter_short_nil (l : list string) :
  filter (fun word => (2 <? String.length word)%nat) (EmptyString :: l) =
  filter (fun word => (2 <? String.length word)%nat) l.
Proof. reflexivity. Qed.

(** The pieces of the split and the runs of the contract: from a piece
    boundary they agree on the first piece and on the long ones after it;
    after a separator they agree on the long ones. *)
Lemma split_ws_runs (text : string) :
  (exists first pieces more,
      JS.split_ws_from false (JS.replace_non_alnum (JS.toLowerCase text))
      = first :: pieces /\
      runs text = first :: more /\
      filter (fun word => (2 <? String.length word)%nat) pieces =
      filter (fun word => (2 <? String.length word)%nat) more) /\
  filter (fun word => (2 <? String.length word)%nat)
         (JS.split_ws_from true (JS.replace_non_alnum (JS.toLowerCase text))) =
  filter (fun word => (2 <? String.length word)%nat) (runs text).
Proof.
  induction text as [|c text [[first [pieces [more [Hsplit [Hruns Hlong]]]]] Hafter]].
  - split; [exists EmptyString, [], []; repeat split|reflexivity].
  - cbn [JS.toLowerCase JS.replace_non_alnum JS.split_ws_from runs].
    rewrite (token_unit_steps c).
    destruct (JS.is_space
                (if JS.is_alnum (JS.lower_char c) || JS.is_space (JS.lower_char c)
                 then JS.lower_char c else " "%char)).
    + split.
      * exists EmptyString,
               (JS.split_ws_from true (JS.replace_non_alnum (JS.toLowerCase text))),
               (runs text).
        repeat split. exact Hafter.
      * rewrite filter_short_nil. exact Hafter.
    + rewrite Hsplit, Hruns. split.
      * eexists. eexists. eexists. split; [reflexivity|]. split; [reflexivity|].
        exact Hlong.
      * cbn [filter]. now rewrite Hlong.
Qed.

Lemma tokenize_tokens (text : string) : FulltextSearch.tokenize text = tokens text.
Proof.
  destruct (split_ws_runs text) as [[first [pieces [more [Hsplit [Hruns Hlong]]]]] _].
  unfold FulltextSearch.tokenize, JS.split_ws, tokens.
  rewrite Hsplit, Hruns.
  change (fun run => (3 <=? String.length run)%nat)
    with (fun word => (2 <? String.length word)%nat).
  cbn [filter]. now rewrite Hlong.
Qed.

(** C5. The tokenizer of the index builder and the tokenizer of the
    fulltext query are the same function: the text is lower-cased, every
    code unit outside [a-z0-9] and white space becomes a space, the result
    is split on the runs of white space (no piece holds white space, and
    the pieces put together are the text without its white space) and the
    pieces of length 2 or less are dropped.  The tokens are thus the
    maximal runs of letters of [A-Z], [a-z] and digits that are 3 code
    units long or longer, the capitals made small, in the order of the
    text; "File-Upload FILES" yields "file", "upload" and "files",
    "file-upload" yields "file" and "upload", "id" nothing, "api" itself,
    and the empty string and every string of white space yield no token.
    The function is total. *)
Theorem C5_tokenizer_contract :
  (forall text, SwaggerLoader.tokenize text = FulltextSearch.tokenize text) /\
  (forall text,
      SwaggerLoader.tokenize text = tokens text /\
      FulltextSearch.tokenize text = tokens text) /\
  (forall text,
      FulltextSearch.tokenize text =
      filter (fun word => (2 <? String.length word)%nat)
             (JS.split_ws (JS.replace_non_alnum (JS.toLowerCase text)))) /\
  (forall text,
      all_chars (fun c => JS.is_alnum c || JS.is_space c)
                (JS.replace_non_alnum (JS.toLowerCase text)) = true) /\
  (forall text piece,
      In piece (JS.split_ws (JS.replace_non_alnum (JS.toLowerCase text))) ->
      all_chars (fun c => negb (JS.is_space c)) piece = true) /\
  (forall text,
      JS.join "" (JS.split_ws (JS.replace_non_alnum (JS.toLowerCase text))) =
      without_spaces (JS.replace_non_alnum (JS.toLowerCase text))) /\
  (forall text token,
      In token (FulltextSearch.tokenize text) ->
      (2 < String.length token)%nat /\ all_chars JS.is_alnum token = true) /\
  FulltextSearch.tokenize "File-Upload FILES" = ["file"; "upload"; "files"] /\
  FulltextSearch.tokenize "OAuth2 v10: X-API-Key, ID" = ["oauth2"; "v10"; "api"; "key"] /\
  FulltextSearch.tokenize "file-upload" = ["file"; "upload"] /\
  FulltextSearch.tokenize "id" = [] /\
  FulltextSearch.tokenize "api" = ["api"] /\
  FulltextSearch.tokenize "" = [] /\
  (forall text, all_chars JS.is_space text = true ->
                FulltextSearch.tokenize text = []).
Proof.
  split; [reflexivity|].
  split; [intros text; split; apply tokenize_tokens|].
  split; [reflexivity|].
  split; [intros text; apply replace_non_alnum_chars|].
  split.
  { intros text piece H.
    apply (split_ws_from_pieces (fun _ => true)) in H; [assumption|].
    clear H. induction (JS.replace_non_alnum (JS.toLowerCase text)); simpl; auto. }
  split; [intros text; apply split_ws_from_join|].
  split; [apply tokenize_token|].
  repeat (split; [reflexivity|]).
  apply tokenize_spaces.
Qed.

(** ** The schema builder and the call stack *)

(** [indexSchemaProperties] makes one call for every schema of the item
    chain: it completes when the stack has room for them, and registers
    the property names of the whole chain. *)
Lemma indexSchemaProperties_spec :
  forall (schema : Schema.t) (room : N) (schemaResult : SchemaResult.t)
         (byProperty : JS.Map (list SchemaResult.t)),
    SwaggerLoader.indexSchemaProperties room schema schemaResult byProperty =
    if (N.of_nat (calls schema) <=? room)%N
    then JS.Ok (fold_left (fun byProperty propName =>
                             SwaggerLoader.push_at byProperty propName schemaResult)
                          (chain_names schema) byProperty)
    else JS.Throw "Maximum call stack size exceeded".
Proof.
  fix IH 1. intros [type [items|] properties title ref] room schemaResult byProperty.
  - cbn [SwaggerLoader.indexSchemaProperties calls chain_names].
    destruct (N.eqb_spec room 0) as [->|Hne].
    + destruct (N.leb_spec (N.of_nat (S (calls items))) 0); [lia|reflexivity].
    + rewrite IH, fold_left_app.
      destruct (N.leb_spec (N.of_nat (calls items)) (room - 1)),
               (N.leb_spec (N.of_nat (S (calls items))) room); try lia;
        now destruct properties.
  - cbn [SwaggerLoader.indexSchemaProperties calls chain_names].
    rewrite app_nil_r.
    destruct (N.eqb_spec room 0) as [->|Hne].
    + reflexivity.
    + destruct (N.leb_spec (N.of_nat 1) room); [|lia]. now destruct properties.
Qed.

Lemma fold_left_Throw {S X : Type} (step : JS.Result S -> X -> JS.Result S)
    (l : list X) (message : string) :
  (forall x, step (JS.Throw message) x = JS.Throw message) ->
  fold_left step l (JS.Throw message) = JS.Throw message.
Proof.
  intros H. induction l as [|x l IH]; simpl; [reflexivity|]. now rewrite H.
Qed.

Lemma registering_fold {X : Type} (room : N)
    (step : JS.Result (JS.Map (list SchemaResult.t) * JS.Map (list SchemaResult.t)) ->
            X -> JS.Result (JS.Map (list SchemaResult.t) * JS.Map (list SchemaResult.t)))
    (occ : X -> list SchemaResult.t) (l : list X) :
  registering room step occ ->
  (forall message, fold_left step l (JS.Throw message) = JS.Throw message) /\
  (forall st,
      fold_left step l (JS.Ok st) =
      if forallb (within room) (flat_map occ l)
      then JS.Ok (fold_left register (flat_map occ l) st)
      else JS.Throw "Maximum call stack size exceeded").
Proof.
  intros [Hthrow Hok]. split.
  - intros message. apply fold_left_Throw. apply Hthrow.
  - induction l as [|x l IH]; intros st; [reflexivity|].
    cbn [fold_left flat_map]. rewrite Hok, forallb_app, fold_left_app.
    destruct (forallb (within room) (occ x)); cbn [andb].
    + apply IH.
    + apply fold_left_Throw. apply Hthrow.
Qed.

Lemma registering_nested {X Y : Type} (room : N)
    (step : JS.Result (JS.Map (list SchemaResult.t) * JS.Map (list SchemaResult.t)) ->
            Y -> JS.Result (JS.Map (list SchemaResult.t) * JS.Map (list SchemaResult.t)))
    (occ : Y -> list SchemaResult.t) (items : X -> list Y) :
  registering room step occ ->
  registering room (fun acc x => fold_left step (items x) acc)
    (fun x => flat_map occ (items x)).
Proof.
  intros H. split.
  - intros message x. apply (registering_fold room step occ (items x) H).
  - intros st x. apply (registering_fold room step occ (items x) H).
Qed.

Lemma schema_response_step_registering (room : N) (path method : string)
    (operation : Operation.t) :
  registering room (SwaggerLoader.schema_response_step room path method operation)
    (fun entry => occurrences_in path method operation [entry]).
Proof.
  split; [reflexivity|].
  intros [byName byProperty] entry.
  unfold SwaggerLoader.schema_response_step, occurrences_in.
  cbn [JS.bind flat_map].
  destruct (Response.schema (snd entry)) as [schema|]; [|reflexivity].
  cbn [app forallb fold_left]. rewrite andb_true_r.
  unfold within at 1. cbn [SchemaResult.schema].
  rewrite indexSchemaProperties_spec.
  destruct (N.of_nat (calls schema) <=? room)%N; reflexivity.
Qed.

Lemma occurrences_in_flat_map (path method : string) (operation : Operation.t)
    (responses : list (string * Response.t)) :
  occurrences_in path method operation responses =
  flat_map (fun entry => occurrences_in path method operation [entry]) responses.
Proof.
  unfold occurrences_in. apply flat_map_ext. intros entry. cbn [flat_map].
  now rewrite app_nil_r.
Qed.

Lemma schema_method_step_registering (room : N) (path : string)
    (pathItem : PathItem.t) :
  registering room (SwaggerLoader.schema_method_step room path pathItem)
    (method_occurrences path pathItem).
Proof.
  split.
  - intros message method. unfold SwaggerLoader.schema_method_step.
    destruct (PathItem.at_ pathItem method) as [operation|]; [|reflexivity].
    destruct (Operation.responses operation) as [responses|]; [|reflexivity].
    apply (registering_fold room _ _ responses
             (schema_response_step_registering room path method operation)).
  - intros st method.
    unfold SwaggerLoader.schema_method_step, method_occurrences, response_occurrences.
    destruct (PathItem.at_ pathItem method) as [operation|]; [|reflexivity].
    destruct (Operation.responses operation) as [responses|]; [|reflexivity].
    rewrite occurrences_in_flat_map.
    apply (registering_fold room _ _ responses
             (schema_response_step_registering room path method operation)).
Qed.

Lemma schema_path_step_registering (room : N) :
  registering room (SwaggerLoader.schema_path_step room)
    (fun entry : string * PathItem.t =>
       flat_map (method_occurrences (fst entry) (snd entry)) SwaggerLoader.methods).
Proof.
  split.
  - intros message entry. unfold SwaggerLoader.schema_path_step.
    apply (registering_fold room _ _ SwaggerLoader.methods
             (schema_method_step_registering room (fst entry) (snd entry))).
  - intros st entry. unfold SwaggerLoader.schema_path_step.
    apply (registering_fold room _ _ SwaggerLoader.methods
             (schema_method_step_registering room (fst entry) (snd entry))).
Qed.

(** [buildSchemaIndex] builds the schema index of the document when every
    item chain fits the stack, and throws the [RangeError] otherwise. *)
Lemma buildSchemaIndex_spec (room : N) (this : SwaggerLoader.t)
    (entries : list (string * PathItem.t)) :
  SwaggerLoader.entries_of_paths this = JS.Ok entries ->
  SwaggerLoader.buildSchemaIndex room this =
  if fits room entries then JS.Ok (schemaIndex_of entries)
  else JS.Throw "Maximum call stack size exceeded".
Proof.
  intros H. unfold SwaggerLoader.buildSchemaIndex. rewrite H. cbn [JS.bind].
  rewrite (proj2 (registering_fold room _ _ entries (schema_path_step_registering room))).
  fold (occurrences entries). fold (fits room entries).
  destruct (fits room entries); [|reflexivity].
  cbn [JS.bind]. unfold schemaIndex_of.
  now destruct (fold_left register (occurrences entries) ([], [])).
Qed.

(** ** Loading *)

Lemma entries_of_paths_spec (this : SwaggerLoader.t) (spec : SwaggerSpec.t)
    (entries : list (string * PathItem.t)) :
  SwaggerLoader.spec this = Some spec ->
  SwaggerSpec.paths spec = Some entries ->
  SwaggerLoader.entries_of_paths this = JS.Ok entries.
Proof.
  intros Hs Hp. unfold SwaggerLoader.entries_of_paths. now rewrite Hs, Hp.
Qed.

Lemma buildEndpointIndex_ok (this : SwaggerLoader.t)
    (entries : list (string * PathItem.t)) :
  SwaggerLoader.entries_of_paths this = JS.Ok entries ->
  SwaggerLoader.buildEndpointIndex this = JS.Ok (endpointIndex_of entries).
Proof.
  intros H. unfold SwaggerLoader.buildEndpointIndex, endpointIndex_of.
  rewrite H. simpl.
  now destruct (fold_left SwaggerLoader.endpoint_path_step entries ([], [], []))
    as [[paths tags] operationIds].
Qed.

Lemma buildFulltextIndex_ok (this : SwaggerLoader.t)
    (entries : list (string * PathItem.t)) :
  SwaggerLoader.entries_of_paths this = JS.Ok entries ->
  SwaggerLoader.buildFulltextIndex this = JS.Ok (fulltextIndex_of entries).
Proof.
  intros H. unfold SwaggerLoader.buildFulltextIndex, fulltextIndex_of.
  rewrite H. simpl.
  now destruct (fold_left SwaggerLoader.fulltext_path_step entries ([], [])).
Qed.

Lemma load_document (room : N) (prior : SwaggerLoader.t) (spec : SwaggerSpec.t)
    (entries : list (string * PathItem.t)) :
  SwaggerSpec.paths spec = Some entries ->
  fits room entries = true ->
  SwaggerLoader.load room prior (SwaggerLoader.Parsed (Some spec)) =
  (SwaggerLoader.mk (Some spec) (Some (endpointIndex_of entries))
     (Some (schemaIndex_of entries)) (Some (fulltextIndex_of entries)),
   JS.Ok tt).
Proof.
  intros Hp Hfits.
  unfold SwaggerLoader.load, SwaggerLoader.buildIndexes.
  cbn [SwaggerLoader.spec].
  rewrite (buildEndpointIndex_ok _ entries)
    by (now apply (entries_of_paths_spec _ spec)).
  cbn [SwaggerLoader.spec].
  rewrite (buildSchemaIndex_spec room _ entries)
    by (now apply (entries_of_paths_spec _ spec)).
  rewrite Hfits. cbn [SwaggerLoader.spec].
  rewrite (buildFulltextIndex_ok _ entries)
    by (now apply (entries_of_paths_spec _ spec)).
  reflexivity.
Qed.

(** An item chain too long for the stack: the load fails after the
    document and the endpoint index have been assigned. *)
Lemma load_overflow (room : N) (prior : SwaggerLoader.t) (spec : SwaggerSpec.t)
    (entries : list (string * PathItem.t)) :
  SwaggerSpec.paths spec = Some entries ->
  fits room entries = false ->
  SwaggerLoader.load room prior (SwaggerLoader.Parsed (Some spec)) =
  (SwaggerLoader.mk (Some spec) (Some (endpointIndex_of entries))
     (SwaggerLoader.schemaIndex prior) (SwaggerLoader.fulltextIndex prior),
   JS.Throw "Maximum call stack size exceeded").
Proof.
  intros Hp Hfits.
  unfold SwaggerLoader.load, SwaggerLoader.buildIndexes.
  cbn [SwaggerLoader.spec].
  rewrite (buildEndpointIndex_ok _ entries)
    by (now apply (entries_of_paths_spec _ spec)).
  cbn [SwaggerLoader.spec].
  rewrite (buildSchemaIndex_spec room _ entries)
    by (now apply (entries_of_paths_spec _ spec)).
  now rewrite Hfits.
Qed.

Lemma load_without_paths (room : N) (prior : SwaggerLoader.t) (spec : SwaggerSpec.t) :
  SwaggerSpec.paths spec = None ->
  SwaggerLoader.load room prior (SwaggerLoader.Parsed (Some spec)) =
  (SwaggerLoader.mk (Some spec) (SwaggerLoader.endpointIndex prior)
     (SwaggerLoader.schemaIndex prior) (SwaggerLoader.fulltextIndex prior),
   JS.Throw "Cannot convert undefined or null to object").
Proof.
  intros Hp.
  unfold SwaggerLoader.load, SwaggerLoader.buildIndexes,
    SwaggerLoader.buildEndpointIndex, SwaggerLoader.entries_of_paths.
  simpl. now rewrite Hp.
Qed.

Lemma loaded_inv (spec : SwaggerSpec.t) (loader : SwaggerLoader.t) :
  loaded spec loader ->
  exists entries,
    SwaggerSpec.paths spec = Some entries /\
    loader = SwaggerLoader.mk (Some spec) (Some (endpointIndex_of entries))
               (Some (schemaIndex_of entries)) (Some (fulltextIndex_of entries)).
Proof.
  intros [room [prior H]].
  destruct (SwaggerSpec.paths spec) as [entries|] eqn:Hp.
  - exists entries. split; [reflexivity|].
    destruct (fits room entries) eqn:Hfits.
    + rewrite (load_document room prior spec entries Hp Hfits) in H. now inversion H.
    + rewrite (load_overflow room prior spec entries Hp Hfits) in H. discriminate.
  - rewrite (load_without_paths room prior spec Hp) in H. discriminate.
Qed.

Lemma files_and_nodes_loaded : loaded files_and_nodes files_and_nodes_loader.
Proof. exists stack_room, SwaggerLoader.new. reflexivity. Qed.

(** ** Fulltext Query on a query without tokens *)

Lemma fulltextSearch_no_token (loader : SwaggerLoader.t) (index : FulltextIndex.t)
    (query : string) (limit : option Z) :
  SwaggerLoader.fulltextIndex loader = Some index ->
  FulltextSearch.tokenize query = [] ->
  FulltextSearch.fulltextSearch loader (FulltextSearch.mkParams query limit) = JS.Ok [].
Proof.
  intros Hi Ht.
  unfold FulltextSearch.fulltextSearch, SwaggerLoader.getFulltextIndex.
  rewrite Hi. simpl. now rewrite Ht.
Qed.

(** C6. On a loaded specification, Fulltext Query answers the empty list,
    and raises nothing, for the empty query, for a query of white space
    only, and for every query whose pieces between the runs of white space
    all have 2 code units or less. *)
Theorem C6_fulltext_empty_tokenization
    (spec : SwaggerSpec.t) (loader : SwaggerLoader.t) (limit : option Z) :
  loaded spec loader ->
  FulltextSearch.fulltextSearch loader (FulltextSearch.mkParams "" limit) = JS.Ok [] /\
  (forall query,
      all_chars JS.is_space query = true ->
      FulltextSearch.fulltextSearch loader (FulltextSearch.mkParams query limit)
      = JS.Ok []) /\
  (forall query,
      (forall piece,
          In piece (JS.split_ws (JS.replace_non_alnum (JS.toLowerCase query))) ->
          (String.length piece <= 2)%nat) ->
      FulltextSearch.fulltextSearch loader (FulltextSearch.mkParams query limit)
      = JS.Ok []).
Proof.
  intros Hl. apply loaded_inv in Hl as [entries [_ ->]].
  split; [|split].
  - apply (fulltextSearch_no_token _ (fulltextIndex_of entries)); reflexivity.
  - intros query H.
    apply (fulltextSearch_no_token _ (fulltextIndex_of entries)); [reflexivity|].
    now apply tokenize_spaces.
  - intros query H.
    apply (fulltextSearch_no_token _ (fulltextIndex_of entries)); [reflexivity|].
    now apply tokenize_short_pieces.
Qed.

(** The theorem at the two-endpoint fixture and the query "a is to". *)
Lemma C6_fulltext_empty_tokenization_witness :
  loaded files_and_nodes files_and_nodes_loader /\
  FulltextSearch.fulltextSearch files_and_nodes_loader
    (FulltextSearch.mkParams "a is to" None) = JS.Ok [].
Proof.
  split; [apply files_and_nodes_loaded|].
  apply (C6_fulltext_empty_tokenization files_and_nodes files_and_nodes_loader None
           files_and_nodes_loaded).
  intros piece Hin. vm_compute in Hin.
  repeat (destruct Hin as [<-|Hin]; [simpl; lia|]). destruct Hin.
Defined.
(** ** Accessors and the state left by a load *)

(** C9 as the specification words it fails: a document without [paths]
    parses, is assigned, and makes the first builder throw.  The load
    fails; afterwards the three index accessors throw, but [getSpec]
    returns the document. *)
Lemma C9_failed_load_leaves_the_document :
  snd (SwaggerLoader.load stack_room SwaggerLoader.new
         (SwaggerLoader.Parsed (Some without_paths)))
  = JS.Throw "Cannot convert undefined or null to object" /\
  let loader :=
    fst (SwaggerLoader.load stack_room SwaggerLoader.new
           (SwaggerLoader.Parsed (Some without_paths))) in
  SwaggerLoader.getSpec loader = JS.Ok without_paths /\
  SwaggerLoader.getEndpointIndex loader
  = JS.Throw "Indexes not built. Call load() first." /\
  SwaggerLoader.getSchemaIndex loader
  = JS.Throw "Indexes not built. Call load() first." /\
  SwaggerLoader.getFulltextIndex loader
  = JS.Throw "Indexes not built. Call load() first.".
Proof. repeat split. Qed.

(** C9, amended.  On a new instance every accessor throws: "Swagger spec
    not loaded. Call load() first." for the specification, "Indexes not
    built. Call load() first." for each index.  A load that fails while the
    file is read or parsed leaves the instance as it was.  A load that
    completes leaves the document and all three indexes accessible, and a
    document with a [paths] member whose item chains the stack has room
    for is loaded so.  A load of a document without [paths] fails after
    the document has been assigned: the indexes are as before the attempt,
    and [getSpec] returns the document. *)
Theorem C9_accessors_and_load :
  (SwaggerLoader.getSpec SwaggerLoader.new
   = JS.Throw "Swagger spec not loaded. Call load() first." /\
   SwaggerLoader.getEndpointIndex SwaggerLoader.new
   = JS.Throw "Indexes not built. Call load() first." /\
   SwaggerLoader.getSchemaIndex SwaggerLoader.new
   = JS.Throw "Indexes not built. Call load() first." /\
   SwaggerLoader.getFulltextIndex SwaggerLoader.new
   = JS.Throw "Indexes not built. Call load() first.") /\
  (forall room this message,
      SwaggerLoader.load room this (SwaggerLoader.Unreadable message)
      = (this, JS.Throw message) /\
      SwaggerLoader.load room this (SwaggerLoader.Malformed message)
      = (this, JS.Throw message)) /\
  (forall room prior spec loader,
      SwaggerLoader.load room prior (SwaggerLoader.Parsed (Some spec))
      = (loader, JS.Ok tt) ->
      SwaggerLoader.getSpec loader = JS.Ok spec /\
      exists endpoints schemas fulltext,
        SwaggerLoader.getEndpointIndex loader = JS.Ok endpoints /\
        SwaggerLoader.getSchemaIndex loader = JS.Ok schemas /\
        SwaggerLoader.getFulltextIndex loader = JS.Ok fulltext) /\
  (forall room prior tags entries,
      fits room entries = true ->
      exists loader,
        SwaggerLoader.load room prior
          (SwaggerLoader.Parsed (Some (SwaggerSpec.mk tags (Some entries))))
        = (loader, JS.Ok tt)) /\
  (forall room prior tags,
      SwaggerLoader.load room prior
        (SwaggerLoader.Parsed (Some (SwaggerSpec.mk tags None)))
      = (SwaggerLoader.mk (Some (SwaggerSpec.mk tags None))
           (SwaggerLoader.endpointIndex prior) (SwaggerLoader.schemaIndex prior)
           (SwaggerLoader.fulltextIndex prior),
         JS.Throw "Cannot convert undefined or null to object")).
Proof.
  split; [repeat split|].
  split; [intros; split; reflexivity|].
  split; [|split].
  - intros room prior spec loader H.
    assert (Hl : loaded spec loader) by (now exists room, prior).
    apply loaded_inv in Hl as [entries [_ ->]].
    split; [reflexivity|]. eexists. eexists. eexists. repeat split.
  - intros room prior tags entries Hfits. eexists.
    apply (load_document room prior _ entries); [reflexivity|assumption].
  - intros room prior tags. now apply load_without_paths.
Qed.

(** The theorem at the two-endpoint fixture: its load completes, and the
    accessors answer. *)
Lemma C9_accessors_and_load_witness :
  fits stack_room (entries_of files_and_nodes) = true /\
  SwaggerLoader.load stack_room SwaggerLoader.new
    (SwaggerLoader.Parsed (Some files_and_nodes))
  = (files_and_nodes_loader, JS.Ok tt) /\
  SwaggerLoader.getSpec files_and_nodes_loader = JS.Ok files_and_nodes /\
  exists endpoints schemas fulltext,
    SwaggerLoader.getEndpointIndex files_and_nodes_loader = JS.Ok endpoints /\
    SwaggerLoader.getSchemaIndex files_and_nodes_loader = JS.Ok schemas /\
    SwaggerLoader.getFulltextIndex files_and_nodes_loader = JS.Ok fulltext.
Proof.
  split; [reflexivity|]. split; [reflexivity|].
  exact (proj1 (proj2 (proj2 C9_accessors_and_load))
           stack_room SwaggerLoader.new files_and_nodes files_and_nodes_loader
           eq_refl).
Defined.
(** ** The schema index and the item chain *)

Lemma calls_array_of (depth : nat) (schema : Schema.t) :
  calls (array_of depth schema) = (depth + calls schema)%nat.
Proof. induction depth as [|depth IH]; simpl; [reflexivity|now rewrite IH]. Qed.

Lemma chain_names_array_of (depth : nat) (schema : Schema.t) :
  chain_names (array_of depth schema) = chain_names schema.
Proof. induction depth as [|depth IH]; simpl; [reflexivity|assumption]. Qed.

Lemma nested_arrays_occurrences (depth : nat) :
  occurrences (entries_of (nested_arrays depth)) =
  [SchemaResult.mk None (Some "/deep/") (Some "GET") (array_of depth deep_object)].
Proof. destruct depth; reflexivity. Qed.

Lemma nested_arrays_fits (room : N) (depth : nat) :
  fits room (entries_of (nested_arrays depth)) = (N.of_nat depth + 1 <=? room)%N.
Proof.
  unfold fits. rewrite nested_arrays_occurrences.
  cbn [forallb]. rewrite andb_true_r. unfold within. cbn [SchemaResult.schema].
  rewrite calls_array_of. f_equal. cbn [deep_object object_schema calls]. lia.
Qed.

(** C1.  [indexSchemaProperties] calls itself on [schema.items] and nothing
    but the call stack stops it: a property under [depth] nested arrays is
    registered after [depth + 1] nested calls when the stack has room for
    them, and the engine's [RangeError] is thrown when it has not.  So for
    every stack there is a document, one endpoint with a response schema of
    nested arrays, on which index construction does not complete: the load
    fails with the document and the endpoint index assigned and no schema
    index.  With room for three calls the document of three nested arrays
    fails so; with room for four it loads and the property "deep", three
    arrays down, is a key of the index. *)
Theorem C1_deep_item_chain_overflows_the_stack :
  (forall depth spare schemaResult byProperty,
      SwaggerLoader.indexSchemaProperties (N.of_nat depth + 1 + spare)
        (array_of depth deep_object) schemaResult byProperty
      = JS.Ok (SwaggerLoader.push_at byProperty "deep" schemaResult)) /\
  (forall depth room schemaResult byProperty,
      SwaggerLoader.indexSchemaProperties (N.min room (N.of_nat depth))
        (array_of depth deep_object) schemaResult byProperty
      = JS.Throw "Maximum call stack size exceeded") /\
  (forall room prior,
      SwaggerLoader.load room prior
        (SwaggerLoader.Parsed (Some (nested_arrays (N.to_nat room))))
      = (SwaggerLoader.mk (Some (nested_arrays (N.to_nat room)))
           (Some (endpointIndex_of (entries_of (nested_arrays (N.to_nat room)))))
           (SwaggerLoader.schemaIndex prior) (SwaggerLoader.fulltextIndex prior),
         JS.Throw "Maximum call stack size exceeded")) /\
  (let outcome :=
     SwaggerLoader.load 3 SwaggerLoader.new
       (SwaggerLoader.Parsed (Some (nested_arrays 3))) in
   snd outcome = JS.Throw "Maximum call stack size exceeded" /\
   SwaggerLoader.getSpec (fst outcome) = JS.Ok (nested_arrays 3) /\
   (exists index, SwaggerLoader.getEndpointIndex (fst outcome) = JS.Ok index) /\
   SwaggerLoader.getSchemaIndex (fst outcome)
   = JS.Throw "Indexes not built. Call load() first.") /\
  (let outcome :=
     SwaggerLoader.load 4 SwaggerLoader.new
       (SwaggerLoader.Parsed (Some (nested_arrays 3))) in
   snd outcome = JS.Ok tt /\
   exists index,
     SwaggerLoader.getSchemaIndex (fst outcome) = JS.Ok index /\
     JS.map_get (SchemaIndex.byProperty index) "deep"
     = Some [SchemaResult.mk None (Some "/deep/") (Some "GET")
               (array_of 3 deep_object)]).
Proof.
  split; [|split; [|split; [|split]]].
  - intros depth spare schemaResult byProperty.
    rewrite indexSchemaProperties_spec, calls_array_of, chain_names_array_of.
    cbn [deep_object object_schema calls chain_names map fst app fold_left].
    destruct (N.leb_spec (N.of_nat (depth + 1)) (N.of_nat depth + 1 + spare));
      [reflexivity|lia].
  - intros depth room schemaResult byProperty.
    rewrite indexSchemaProperties_spec, calls_array_of.
    cbn [deep_object object_schema calls].
    destruct (N.leb_spec (N.of_nat (depth + 1)) (N.min room (N.of_nat depth)));
      [lia|reflexivity].
  - intros room prior.
    apply (load_overflow room prior _ (entries_of (nested_arrays (N.to_nat room))));
      [reflexivity|].
    rewrite nested_arrays_fits. apply N.leb_gt. lia.
  - cbv zeta. split; [reflexivity|]. split; [reflexivity|].
    split; [eexists; reflexivity|reflexivity].
  - cbv zeta. split; [reflexivity|]. eexists. split; reflexivity.
Qed.

(** ** The fulltext index never holds an empty set *)

Lemma add_word_wf (docId : string) (words : JS.Map JS.StrSet)
    (documents : JS.Map Document.t) (token : string) :
  In docId (JS.map_keys documents) ->
  fulltext_wf (words, documents) ->
  fulltext_wf (SwaggerLoader.add_word docId words token, documents).
Proof.
  intros Hd [Hn Hw]. split; [assumption|]. simpl in *.
  intros t ds Hin. rewrite add_word_spec in Hin.
  apply map_set_In in Hin as [[-> ->]|Hin]; [|exact (Hw _ _ Hin)].
  assert (Hold : NoDup (match JS.map_get words token with Some d => d | None => [] end)
                 /\ incl (match JS.map_get words token with Some d => d | None => [] end)
                         (JS.map_keys documents)).
  { destruct (JS.map_get words token) as [d|] eqn:E.
    - apply map_get_In in E. apply Hw in E. tauto.
    - split; [constructor|intros x []]. }
  destruct Hold as [Hnd Hincl].
  split; [apply set_add_not_nil|]. split; [now apply set_add_NoDup|].
  intros x Hx. apply set_add_In in Hx as [Hx| ->]; auto.
Qed.

Lemma fulltext_method_step_wf (path : string) (pathItem : PathItem.t)
    (st : JS.Map JS.StrSet * JS.Map Document.t) (method : string) :
  fulltext_wf st -> fulltext_wf (SwaggerLoader.fulltext_method_step path pathItem st method).
Proof.
  destruct st as [words documents]. intros Hwf.
  unfold SwaggerLoader.fulltext_method_step.
  destruct (PathItem.at_ pathItem method) as [operation|]; [|assumption].
  set (docId := (JS.toUpperCase method ++ ":" ++ path)%string).
  set (doc := Document.mk _ _ _ _ _).
  assert (Hbase : fulltext_wf (words, JS.map_set documents docId doc)).
  { destruct Hwf as [Hn Hw]. split; simpl in *.
    - now apply map_keys_set_NoDup.
    - intros t ds Hin. destruct (Hw t ds Hin) as [H1 [H2 H3]].
      repeat split; auto. intros x Hx. apply map_keys_set. right. now apply H3. }
  apply (fold_left_invariant
           (fun words => fulltext_wf (words, JS.map_set documents docId doc)));
    [|assumption].
  intros s token _ Hs. apply add_word_wf; [|assumption].
  apply map_keys_set. now left.
Qed.

Lemma fulltextIndex_of_wf (entries : list (string * PathItem.t)) :
  fulltext_wf (FulltextIndex.words (fulltextIndex_of entries),
               FulltextIndex.documents (fulltextIndex_of entries)).
Proof.
  unfold fulltextIndex_of.
  assert (H : fulltext_wf (fold_left SwaggerLoader.fulltext_path_step entries ([], []))).
  { apply fold_left_invariant.
    - intros s entry _ Hs. unfold SwaggerLoader.fulltext_path_step.
      apply fold_left_invariant; [|assumption].
      intros s' method _. apply fulltext_method_step_wf.
    - split; simpl; [constructor|tauto]. }
  now destruct (fold_left SwaggerLoader.fulltext_path_step entries ([], [])).
Qed.

Lemma fulltext_wf_sizes (words : JS.Map JS.StrSet) (documents : JS.Map Document.t)
    (token : string) (docIds : JS.StrSet) :
  fulltext_wf (words, documents) -> In (token, docIds) words ->
  (1 <= length docIds <= JS.map_size documents)%nat.
Proof.
  intros [Hn Hw] Hin. destruct (Hw token docIds Hin) as [H1 [H2 H3]].
  split.
  - destruct docIds; [congruence|simpl; lia].
  - unfold JS.map_size. rewrite <- (length_map fst documents).
    now apply NoDup_incl_length.
Qed.

(** ** Scores are finite *)

Lemma div_sizes (x : R) (n : nat) :
  (1 <= n)%nat -> JS.div (JS.Finite x) (JS.of_nat n) = JS.Finite (x / INR n).
Proof.
  intros H. unfold JS.div, JS.of_nat.
  rewrite sign_pos; [reflexivity|]. apply lt_0_INR. lia.
Qed.

Lemma idf_finite (total df : nat) :
  (1 <= df <= total)%nat ->
  JS.Math_log (JS.div (JS.of_nat total) (JS.of_nat df)) =
  JS.Finite (ln (INR total / INR df)).
Proof.
  intros H. unfold JS.of_nat at 1. rewrite div_sizes by lia.
  unfold JS.Math_log. rewrite sign_pos; [reflexivity|].
  apply Rdiv_lt_0_compat; apply lt_0_INR; lia.
Qed.

Lemma score_step_wf (index : FulltextIndex.t) (queryTokens : list string)
    (token : string) (docIds : JS.StrSet)
    (acc : JS.Result (JS.Map FulltextSearch.ScoreData)) (docId : string) :
  (1 <= length queryTokens)%nat ->
  (1 <= length docIds <= JS.map_size (FulltextIndex.documents index))%nat ->
  In docId (JS.map_keys (FulltextIndex.documents index)) ->
  scores_wf index acc ->
  scores_wf index (FulltextSearch.score_step index queryTokens token docIds acc docId).
Proof.
  intros Hq Hdf Hdoc [scores [-> Hs]].
  unfold FulltextSearch.score_step. cbn [JS.bind].
  set (scores1 := if JS.map_has scores docId then scores
                  else JS.map_set scores docId (FulltextSearch.mkScore (JS.Finite 0) [])).
  assert (Hs1 : forall d data, In (d, data) scores1 ->
            JS.is_finite (FulltextSearch.score data) = true /\
            In d (JS.map_keys (FulltextIndex.documents index))).
  { subst scores1. destruct (JS.map_has scores docId); [assumption|].
    intros d data Hin. apply map_set_In in Hin as [[-> ->]|Hin]; auto. }
  assert (Hget : exists data, JS.map_get scores1 docId = Some data).
  { subst scores1. destruct (JS.map_has scores docId) eqn:E.
    - apply map_get_keys. now apply map_has_true.
    - rewrite map_get_set_same. eauto. }
  destruct Hget as [data Hget]. rewrite Hget.
  destruct (map_get_keys _ _ Hdoc) as [doc ->].
  eexists. split; [reflexivity|].
  intros d data' Hin. apply map_set_In in Hin as [[-> ->]|Hin]; [|now apply Hs1].
  split; [|assumption]. cbn [FulltextSearch.score].
  rewrite div_sizes by assumption. rewrite idf_finite by assumption.
  apply map_get_In in Hget. apply Hs1 in Hget as [Hfin _].
  destruct (FulltextSearch.score data); try discriminate. reflexivity.
Qed.

Lemma token_step_wf (index : FulltextIndex.t) (queryTokens : list string)
    (acc : JS.Result (JS.Map FulltextSearch.ScoreData)) (token : string) :
  fulltext_wf (FulltextIndex.words index, FulltextIndex.documents index) ->
  (1 <= length queryTokens)%nat ->
  scores_wf index acc ->
  scores_wf index (FulltextSearch.token_step index queryTokens acc token).
Proof.
  intros Hwf Hq Hacc. unfold FulltextSearch.token_step.
  destruct (JS.map_get (FulltextIndex.words index) token) as [docIds|] eqn:E;
    [|assumption].
  apply map_get_In in E.
  pose proof (fulltext_wf_sizes _ _ _ _ Hwf E) as Hsz.
  destruct Hwf as [_ Hw]. destruct (Hw _ _ E) as [_ [_ Hincl]].
  apply fold_left_invariant; [|assumption].
  intros s docId Hin Hs. apply score_step_wf; auto.
Qed.

Lemma result_step_finite (index : FulltextIndex.t)
    (scores : JS.Map FulltextSearch.ScoreData) :
  (forall docId data, In (docId, data) scores ->
      JS.is_finite (FulltextSearch.score data) = true /\
      In docId (JS.map_keys (FulltextIndex.documents index))) ->
  exists results,
    fold_left (FulltextSearch.result_step index) scores (JS.Ok []) = JS.Ok results /\
    forall r, In r results -> JS.is_finite (FulltextSearchResult.score r) = true.
Proof.
  intros Hs.
  apply (fold_left_invariant
           (fun acc => exists results, acc = JS.Ok results /\
              forall r, In r results ->
                JS.is_finite (FulltextSearchResult.score r) = true)).
  - intros acc [docId data] Hin [results [-> Hr]].
    destruct (Hs docId data Hin) as [Hfin Hdoc].
    unfold FulltextSearch.result_step. simpl.
    destruct (map_get_keys _ _ Hdoc) as [doc ->].
    eexists. split; [reflexivity|].
    intros r Hr'. apply in_app_or in Hr' as [Hr'|[<-|[]]]; auto.
  - exists []. split; [reflexivity|]. intros r [].
Qed.

(** C2. On a loaded specification the words index maps no token to an
    empty set: the document frequency of every indexed token is 1 at least
    and the number of documents at most.  Fulltext Query therefore returns,
    for every query and every limit, a list in which every score is a
    finite number: neither an infinity nor NaN. *)
Theorem C2_fulltext_scores_finite
    (spec : SwaggerSpec.t) (loader : SwaggerLoader.t)
    (query : string) (limit : option Z) :
  loaded spec loader ->
  (exists index,
      SwaggerLoader.fulltextIndex loader = Some index /\
      forall token docIds,
        JS.map_get (FulltextIndex.words index) token = Some docIds ->
        (1 <= length docIds <= JS.map_size (FulltextIndex.documents index))%nat) /\
  (exists results,
      FulltextSearch.fulltextSearch loader (FulltextSearch.mkParams query limit)
      = JS.Ok results /\
      forall r, In r results -> JS.is_finite (FulltextSearchResult.score r) = true).
Proof.
  intros Hl. apply loaded_inv in Hl as [entries [_ ->]].
  pose proof (fulltextIndex_of_wf entries) as Hwf.
  set (index := fulltextIndex_of entries) in *.
  split.
  - exists index. split; [reflexivity|].
    intros token docIds H. apply map_get_In in H.
    exact (fulltext_wf_sizes _ _ token docIds Hwf H).
  - unfold FulltextSearch.fulltextSearch, SwaggerLoader.getFulltextIndex.
    cbn [SwaggerLoader.fulltextIndex JS.bind FulltextSearch.query FulltextSearch.limit].
    fold index.
    destruct (length (FulltextSearch.tokenize query) =? 0)%nat eqn:E.
    + exists []. split; [reflexivity|]. intros r [].
    + apply Nat.eqb_neq in E.
      assert (Hscores : scores_wf index
                (fold_left (FulltextSearch.token_step index (FulltextSearch.tokenize query))
                           (FulltextSearch.tokenize query) (JS.Ok []))).
      { apply fold_left_invariant.
        - intros s token _ Hs. apply token_step_wf; auto. lia.
        - exists []. split; [reflexivity|]. intros d data []. }
      destruct Hscores as [scores [-> Hs]]. cbn [JS.bind].
      destruct (result_step_finite index scores Hs) as [results [-> Hr]].
      cbn [JS.bind]. eexists. split; [reflexivity|].
      intros r Hin. apply slice_incl in Hin. apply sort_In in Hin. now apply Hr.
Qed.

(** The theorem at the two-endpoint fixture and a query that mixes a
    matching and a non-matching token. *)
Lemma C2_fulltext_scores_finite_witness :
  loaded files_and_nodes files_and_nodes_loader /\
  exists results,
    FulltextSearch.fulltextSearch files_and_nodes_loader
      (FulltextSearch.mkParams "files xyznonexistent" None) = JS.Ok results /\
    forall r, In r results -> JS.is_finite (FulltextSearchResult.score r) = true.
Proof.
  split; [apply files_and_nodes_loaded|].
  apply (C2_fulltext_scores_finite files_and_nodes files_and_nodes_loader
           "files xyznonexistent" None files_and_nodes_loaded).
Defined.

(** ** A positive score without a matched field *)

Lemma parameter_only_loaded : loaded parameter_only parameter_only_loader.
Proof. exists stack_room, SwaggerLoader.new. reflexivity. Qed.

(** Reduction of everything but the arithmetic on scores. *)
Ltac run_query :=
  cbv - [JS.div JS.Math_log JS.add JS.mul JS.sub JS.positive JS.of_nat IZR].

Lemma ln_pos (x : R) : (1 < x)%R -> (0 < ln x)%R.
Proof. intros H. rewrite <- ln_1. apply ln_increasing; lra. Qed.

Lemma fulltextSearch_zebra :
  FulltextSearch.fulltextSearch parameter_only_loader
    (FulltextSearch.mkParams "zebra" None) =
  JS.Ok [FulltextSearchResult.mk "/animals/" "GET" (Some "Animals") None
           (JS.Finite (0 + 1 / INR 1 * ln (INR 2 / INR 1))) []].
Proof.
  run_query.
  rewrite div_sizes by lia. rewrite idf_finite by lia. reflexivity.
Qed.

(** C10. There are a loaded specification and a query for which Fulltext
    Query returns a document with a strictly positive score and an empty
    [matchedFields]: the token occurs in the name of a parameter only; the
    name is part of the indexed content, while the matched-field test
    reads the summary and the description alone. *)
Theorem C10_score_without_matched_field :
  exists spec loader index doc query results r x,
    loaded spec loader /\
    SwaggerLoader.fulltextIndex loader = Some index /\
    JS.map_get (FulltextIndex.documents index) "GET:/animals/" = Some doc /\
    JS.includes (Document.content doc) query = true /\
    FulltextSearch.field_includes (Document.summary doc) query = false /\
    FulltextSearch.field_includes (Document.description doc) query = false /\
    FulltextSearch.fulltextSearch loader (FulltextSearch.mkParams query None)
    = JS.Ok results /\
    In r results /\
    FulltextSearchResult.path r = Document.path doc /\
    FulltextSearchResult.matchedFields r = [] /\
    FulltextSearchResult.score r = JS.Finite x /\ (0 < x)%R.
Proof.
  exists parameter_only, parameter_only_loader.
  eexists. eexists. exists "zebra". eexists. eexists. eexists.
  split; [apply parameter_only_loaded|].
  split; [reflexivity|].
  split; [reflexivity|].
  split; [reflexivity|].
  split; [reflexivity|].
  split; [reflexivity|].
  split; [apply fulltextSearch_zebra|].
  split; [now left|].
  split; [reflexivity|].
  split; [reflexivity|].
  split; [reflexivity|].
  simpl INR.
  assert (H : (0 < ln (2 / 1))%R) by (apply ln_pos; lra).
  replace ((1 + 1) / 1)%R with (2 / 1)%R by lra. lra.
Qed.

(** ** Endpoint Query by operationId *)

Lemma truthy_Some (s : string) : s <> "" -> JS.truthy (Some s) = true.
Proof.
  intros H. simpl. destruct (s =? "") eqn:E; [|reflexivity].
  apply String.eqb_eq in E. contradiction.
Qed.

Lemma by_operationId_In (index : EndpointIndex.t) (operationId : string)
    (r : EndpointResult.t) :
  In r (EndpointSearch.by_operationId index operationId) <->
  exists opId location operation,
    In (opId, location) (EndpointIndex.operationIds index) /\
    JS.includes (JS.toLowerCase opId) (JS.toLowerCase operationId) = true /\
    EndpointSearch.operation_at index (Location.path location)
      (Location.method location) = Some operation /\
    r = SwaggerLoader.summary_of (Location.path location)
          (Location.method location) operation.
Proof.
  unfold EndpointSearch.by_operationId. rewrite in_flat_map. split.
  - intros [[opId location] [Hin Hr]].
    destruct (JS.includes (JS.toLowerCase opId) (JS.toLowerCase operationId)) eqn:E;
      [|destruct Hr].
    destruct (EndpointSearch.operation_at index _ _) as [operation|] eqn:Eo;
      [|destruct Hr].
    destruct Hr as [<-|[]]. exists opId, location, operation. auto.
  - intros [opId [location [operation [Hin [E [Eo ->]]]]]].
    exists (opId, location). split; [assumption|].
    rewrite E, Eo. now left.
Qed.

(** *** Matching without regard to letter case *)










(** An empty [operationId] is falsy: the query then runs as if none were
    given, under the three filters. *)
Lemma searchEndpoints_empty_operationId (loader : SwaggerLoader.t)
    (path method tag : option string) (limit : option Z) :
  EndpointSearch.searchEndpoints loader
    (EndpointSearch.mkParams path method (Some "") tag limit) =
  EndpointSearch.searchEndpoints loader
    (EndpointSearch.mkParams path method None tag limit).
Proof. reflexivity. Qed.

(** ** Letter case of the text parameters *)

Lemma path_rejects_case (path path' : option string) (pathStr : string) :
  same_letters_opt path path' ->
  EndpointSearch.path_rejects path pathStr = EndpointSearch.path_rejects path' pathStr.
Proof.
  intros H. unfold EndpointSearch.path_rejects.
  now rewrite (same_letters_truthy _ _ H), (same_letters_value_lower _ _ H).
Qed.

Lemma method_rejects_case (method method' : option string) (methodStr : string) :
  same_letters_opt method method' ->
  EndpointSearch.method_rejects method methodStr =
  EndpointSearch.method_rejects method' methodStr.
Proof.
  intros H. unfold EndpointSearch.method_rejects.
  now rewrite (same_letters_truthy _ _ H), (same_letters_value_upper _ _ H).
Qed.

Lemma tag_rejects_case (tag tag' : option string) (operation : Operation.t) :
  same_letters_opt tag tag' ->
  EndpointSearch.tag_rejects tag operation = EndpointSearch.tag_rejects tag' operation.
Proof.
  intros H. unfold EndpointSearch.tag_rejects.
  now rewrite (same_letters_truthy _ _ H), (same_letters_value_lower _ _ H).
Qed.

Lemma by_filters_case (index : EndpointIndex.t)
    (path path' method method' tag tag' : option string) :
  same_letters_opt path path' -> same_letters_opt method method' ->
  same_letters_opt tag tag' ->
  EndpointSearch.by_filters index path method tag =
  EndpointSearch.by_filters index path' method' tag'.
Proof.
  intros Hp Hm Ht. unfold EndpointSearch.by_filters.
  apply flat_map_ext. intros [pathStr methods].
  rewrite (path_rejects_case _ _ _ Hp).
  destruct (EndpointSearch.path_rejects path' pathStr); [reflexivity|].
  apply flat_map_ext. intros [methodStr operation].
  now rewrite (method_rejects_case _ _ _ Hm), (tag_rejects_case _ _ _ Ht).
Qed.

Lemma by_operationId_case (index : EndpointIndex.t) (a b : string) :
  same_letters a b ->
  EndpointSearch.by_operationId index a = EndpointSearch.by_operationId index b.
Proof.
  unfold same_letters, EndpointSearch.by_operationId. now intros ->.
Qed.

Lemma searchEndpoints_case (loader : SwaggerLoader.t)
    (path path' method method' operationId operationId' tag tag' : option string)
    (limit : option Z) :
  same_letters_opt path path' -> same_letters_opt method method' ->
  same_letters_opt operationId operationId' -> same_letters_opt tag tag' ->
  EndpointSearch.searchEndpoints loader
    (EndpointSearch.mkParams path method operationId tag limit) =
  EndpointSearch.searchEndpoints loader
    (EndpointSearch.mkParams path' method' operationId' tag' limit).
Proof.
  intros Hp Hm Ho Ht. unfold EndpointSearch.searchEndpoints.
  cbn [EndpointSearch.operationId EndpointSearch.limit EndpointSearch.path
       EndpointSearch.method EndpointSearch.tag].
  destruct (SwaggerLoader.getEndpointIndex loader) as [index|]; [|reflexivity].
  cbn [JS.bind]. rewrite (same_letters_truthy _ _ Ho).
  rewrite (by_filters_case index _ _ _ _ _ _ Hp Hm Ht).
  destruct operationId as [a|], operationId' as [b|]; simpl in Ho; try tauto.
  simpl JS.value. now rewrite (by_operationId_case index a b Ho).
Qed.

Lemma searchByTag_case (loader : SwaggerLoader.t) (tag tag' : string)
    (includeDescription : option bool) :
  same_letters tag tag' ->
  TagSearch.searchByTag loader (TagSearch.mkParams tag includeDescription) =
  TagSearch.searchByTag loader (TagSearch.mkParams tag' includeDescription).
Proof.
  unfold same_letters, TagSearch.searchByTag.
  cbn [TagSearch.tag TagSearch.includeDescription]. now intros ->.
Qed.

Lemma collect_case (m : JS.Map (list SchemaResult.t)) (a b : option string) :
  same_letters_opt a b ->
  SchemaSearch.collect m (JS.value a) = SchemaSearch.collect m (JS.value b).
Proof.
  intros H. unfold SchemaSearch.collect.
  now rewrite (same_letters_value_lower _ _ H).
Qed.

Lemma of_endpoint_case (pathIndex : EndpointIndex.t) (path : string)
    (a b : option string) :
  same_letters_opt a b ->
  SchemaSearch.of_endpoint pathIndex path (JS.value a) =
  SchemaSearch.of_endpoint pathIndex path (JS.value b).
Proof.
  intros H. unfold SchemaSearch.of_endpoint.
  now rewrite (same_letters_value_upper _ _ H).
Qed.

Lemma searchSchemas_case (loader : SwaggerLoader.t)
    (schemaName schemaName' property property' path method method' : option string) :
  same_letters_opt schemaName schemaName' -> same_letters_opt property property' ->
  same_letters_opt method method' ->
  SchemaSearch.searchSchemas loader
    (SchemaSearch.mkParams schemaName property path method) =
  SchemaSearch.searchSchemas loader
    (SchemaSearch.mkParams schemaName' property' path method').
Proof.
  intros Hs Hp Hm. unfold SchemaSearch.searchSchemas.
  cbn [SchemaSearch.schemaName SchemaSearch.property SchemaSearch.path
       SchemaSearch.method].
  rewrite (same_letters_truthy _ _ Hs), (same_letters_truthy _ _ Hp),
    (same_letters_truthy _ _ Hm).
  destruct (SwaggerLoader.getSchemaIndex loader) as [index|]; [|reflexivity].
  cbn [JS.bind].
  rewrite (collect_case _ _ _ Hs), (collect_case _ _ _ Hp).
  destruct (JS.truthy schemaName'); [reflexivity|].
  destruct (JS.truthy property'); [reflexivity|].
  destruct (JS.truthy path && JS.truthy method'); [|reflexivity].
  destruct (SwaggerLoader.getEndpointIndex loader) as [pathIndex|]; [|reflexivity].
  cbn [JS.bind]. now rewrite (of_endpoint_case _ _ _ _ Hm).
Qed.

Lemma fulltextSearch_case (loader : SwaggerLoader.t) (query query' : string)
    (limit : option Z) :
  same_letters query query' ->
  FulltextSearch.fulltextSearch loader (FulltextSearch.mkParams query limit) =
  FulltextSearch.fulltextSearch loader (FulltextSearch.mkParams query' limit).
Proof.
  unfold same_letters, FulltextSearch.fulltextSearch, FulltextSearch.tokenize.
  cbn [FulltextSearch.query FulltextSearch.limit]. now intros ->.
Qed.

(** C8 as the specification words it fails: Schema Query looks a [path] up
    as it is written, so "/files/" finds the schema of [GET /files/] and
    "/FILES/" finds nothing. *)
Lemma C8_schema_path_is_case_sensitive :
  same_letters_opt (Some "/files/") (Some "/FILES/") /\
  SchemaSearch.searchSchemas files_and_nodes_loader
    (SchemaSearch.mkParams None None (Some "/files/") (Some "GET")) <>
  SchemaSearch.searchSchemas files_and_nodes_loader
    (SchemaSearch.mkParams None None (Some "/FILES/") (Some "GET")).
Proof.
  split; [reflexivity|]. vm_compute. discriminate.
Qed.

(** C8, amended.  Two invocations whose text parameters differ in letter
    case only return the same result for Endpoint Query ([path], [method],
    [operationId], [tag]), for Tag Query ([tag]), for Fulltext Query
    ([query]) and for Schema Query as far as [schemaName], [property] and
    [method] go; the [path] of Schema Query is an exact key and is left
    out. *)
Theorem C8_case_insensitive_resolvers (loader : SwaggerLoader.t) :
  (forall path path' method method' operationId operationId' tag tag' limit,
      same_letters_opt path path' -> same_letters_opt method method' ->
      same_letters_opt operationId operationId' -> same_letters_opt tag tag' ->
      EndpointSearch.searchEndpoints loader
        (EndpointSearch.mkParams path method operationId tag limit) =
      EndpointSearch.searchEndpoints loader
        (EndpointSearch.mkParams path' method' operationId' tag' limit)) /\
  (forall tag tag' includeDescription,
      same_letters tag tag' ->
      TagSearch.searchByTag loader (TagSearch.mkParams tag includeDescription) =
      TagSearch.searchByTag loader (TagSearch.mkParams tag' includeDescription)) /\
  (forall schemaName schemaName' property property' path method method',
      same_letters_opt schemaName schemaName' ->
      same_letters_opt property property' ->
      same_letters_opt method method' ->
      SchemaSearch.searchSchemas loader
        (SchemaSearch.mkParams schemaName property path method) =
      SchemaSearch.searchSchemas loader
        (SchemaSearch.mkParams schemaName' property' path method')) /\
  (forall query query' limit,
      same_letters query query' ->
      FulltextSearch.fulltextSearch loader (FulltextSearch.mkParams query limit) =
      FulltextSearch.fulltextSearch loader (FulltextSearch.mkParams query' limit)).
Proof.
  split; [intros; now apply searchEndpoints_case|].
  split; [intros; now apply searchByTag_case|].
  split; [intros; now apply searchSchemas_case|].
  intros; now apply fulltextSearch_case.
Qed.

(** The theorem at the two-endpoint fixture, for "files", "FILES" and
    "FiLeS". *)
Lemma C8_case_insensitive_resolvers_witness :
  same_letters "files" "FILES" /\ same_letters_opt (Some "files") (Some "FiLeS") /\
  same_letters_opt (Some "get") (Some "GET") /\
  EndpointSearch.searchEndpoints files_and_nodes_loader
    (EndpointSearch.mkParams (Some "files") (Some "get") None None None) =
  EndpointSearch.searchEndpoints files_and_nodes_loader
    (EndpointSearch.mkParams (Some "FiLeS") (Some "GET") None None None) /\
  TagSearch.searchByTag files_and_nodes_loader (TagSearch.mkParams "files" None) =
  TagSearch.searchByTag files_and_nodes_loader (TagSearch.mkParams "FILES" None) /\
  SchemaSearch.searchSchemas files_and_nodes_loader
    (SchemaSearch.mkParams (Some "files") None None None) =
  SchemaSearch.searchSchemas files_and_nodes_loader
    (SchemaSearch.mkParams (Some "FiLeS") None None None) /\
  FulltextSearch.fulltextSearch files_and_nodes_loader
    (FulltextSearch.mkParams "files" None) =
  FulltextSearch.fulltextSearch files_and_nodes_loader
    (FulltextSearch.mkParams "FILES" None).
Proof.
  assert (H1 : same_letters "files" "FILES") by reflexivity.
  assert (H2 : same_letters_opt (Some "files") (Some "FiLeS")) by reflexivity.
  assert (H3 : same_letters_opt (Some "get") (Some "GET")) by reflexivity.
  assert (H4 : same_letters_opt None None) by exact I.
  destruct (C8_case_insensitive_resolvers files_and_nodes_loader)
    as [He [Ht [Hs Hf]]].
  split; [exact H1|]. split; [exact H2|]. split; [exact H3|].
  split; [exact (He _ _ _ _ None None None None None H2 H3 H4 H4)|].
  split; [exact (Ht _ _ None H1)|].
  split; [exact (Hs _ _ None None None None None H2 H4 H4)|].
  exact (Hf _ _ None H1).
Defined.

(** ** Schema Query: what the removal of duplicates keeps *)

Lemma no_colon_app (a b : string) :
  no_colon (a ++ String ":" b) = false.
Proof.
  unfold no_colon. induction a as [|c a IH]; simpl in *; [reflexivity|].
  rewrite IH. apply andb_false_r.
Qed.

Lemma append_assoc (a b c : string) : ((a ++ b) ++ c = a ++ (b ++ c))%string.
Proof. induction a as [|x a IH]; simpl; [reflexivity|now rewrite IH]. Qed.

(** A text is split in one way only at its last colon. *)
Lemma split_at_last_colon (x y a b : string) :
  no_colon a = true -> no_colon b = true ->
  (x ++ String ":" a = y ++ String ":" b)%string -> x = y /\ a = b.
Proof.
  intros Ha Hb. revert y. induction x as [|c x IH]; intros [|d y] H; simpl in H.
  - now inversion H.
  - inversion H; subst. now rewrite no_colon_app in Ha.
  - inversion H; subst. now rewrite no_colon_app in Hb.
  - inversion H; subst. destruct (IH y H2) as [-> ->]. auto.
Qed.

(** Where methods and schema names hold no colon, two keys are equal only
    for equal paths, methods and schema names. *)
Lemma key_injective (r1 r2 : SchemaResult.t) :
  no_colon (JS.show (SchemaResult.method r1)) = true ->
  no_colon (JS.show (SchemaResult.method r2)) = true ->
  no_colon (JS.show (SchemaResult.schemaName r1)) = true ->
  no_colon (JS.show (SchemaResult.schemaName r2)) = true ->
  SchemaSearch.key r1 = SchemaSearch.key r2 ->
  JS.show (SchemaResult.path r1) = JS.show (SchemaResult.path r2) /\
  JS.show (SchemaResult.method r1) = JS.show (SchemaResult.method r2) /\
  JS.show (SchemaResult.schemaName r1) = JS.show (SchemaResult.schemaName r2).
Proof.
  intros Hm1 Hm2 Hn1 Hn2 H. unfold SchemaSearch.key in H.
  set (p1 := JS.show (SchemaResult.path r1)) in *.
  set (p2 := JS.show (SchemaResult.path r2)) in *.
  set (m1 := JS.show (SchemaResult.method r1)) in *.
  set (m2 := JS.show (SchemaResult.method r2)) in *.
  set (n1 := JS.show (SchemaResult.schemaName r1)) in *.
  set (n2 := JS.show (SchemaResult.schemaName r2)) in *.
  assert (H' : ((p1 ++ String ":" m1) ++ String ":" n1 =
                (p2 ++ String ":" m2) ++ String ":" n2)%string).
  { rewrite !append_assoc. exact H. }
  apply split_at_last_colon in H' as [H' Hn]; [|assumption|assumption].
  apply split_at_last_colon in H' as [Hp Hm]; auto.
Qed.

(** The state of the loop: every stored result sits under its own key, the
    keys are distinct, and the key of every result seen so far is stored. *)
Lemma unique_step_invariant (results : list SchemaResult.t) :
  let m := fold_left SchemaSearch.unique_step results [] in
  NoDup (JS.map_keys m) /\
  (forall k r, In (k, r) m -> k = SchemaSearch.key r /\ In r results) /\
  (forall r, In r results -> In (SchemaSearch.key r) (JS.map_keys m)).
Proof.
  induction results as [|x results IH] using rev_ind; simpl.
  - repeat split; [constructor|destruct H|destruct H|tauto].
  - rewrite fold_left_app. simpl.
    set (m := fold_left SchemaSearch.unique_step results []) in *.
    destruct IH as [Hn [Hk Hs]]. unfold SchemaSearch.unique_step.
    destruct (JS.map_has m (SchemaSearch.key x)) eqn:E.
    + split; [assumption|]. split.
      * intros k r Hin. destruct (Hk k r Hin). split; [assumption|].
        apply in_or_app. now left.
      * intros r Hin. apply in_app_or in Hin as [Hin|[<-|[]]]; [now apply Hs|].
        now apply map_has_true.
    + split; [now apply map_keys_set_NoDup|]. split.
      * intros k r Hin. apply map_set_In in Hin as [[-> ->]|Hin].
        -- split; [reflexivity|]. apply in_or_app. right. now left.
        -- destruct (Hk k r Hin). split; [assumption|]. apply in_or_app. now left.
      * intros r Hin. apply map_keys_set.
        apply in_app_or in Hin as [Hin|[<-|[]]]; [right; now apply Hs|now left].
Qed.

Lemma removeDuplicates_incl (results : list SchemaResult.t) (r : SchemaResult.t) :
  In r (SchemaSearch.removeDuplicates results) -> In r results.
Proof.
  unfold SchemaSearch.removeDuplicates, JS.map_values. intros H.
  apply in_map_iff in H as [[k r'] [<- Hin]].
  now apply (unique_step_invariant results) in Hin.
Qed.

Lemma removeDuplicates_covers (results : list SchemaResult.t) (r : SchemaResult.t) :
  In r results ->
  exists r', In r' (SchemaSearch.removeDuplicates results) /\
             SchemaSearch.key r' = SchemaSearch.key r.
Proof.
  intros H. destruct (unique_step_invariant results) as [_ [Hk Hs]].
  apply Hs in H. apply map_get_keys in H as [r' Hget]. apply map_get_In in Hget.
  exists r'. split.
  - unfold SchemaSearch.removeDuplicates, JS.map_values.
    apply in_map_iff. now exists (SchemaSearch.key r, r').
  - now destruct (Hk _ _ Hget).
Qed.

Lemma removeDuplicates_keys (results : list SchemaResult.t) :
  NoDup (map SchemaSearch.key (SchemaSearch.removeDuplicates results)).
Proof.
  destruct (unique_step_invariant results) as [Hn [Hk _]].
  unfold SchemaSearch.removeDuplicates, JS.map_values, JS.map_keys in *.
  rewrite map_map.
  erewrite map_ext_in; [exact Hn|].
  intros [k r] Hin. simpl. now destruct (Hk k r Hin).
Qed.

(** A result whose key no other collected result shares is returned. *)
Lemma removeDuplicates_keeps (results : list SchemaResult.t) (r : SchemaResult.t) :
  In r results ->
  (forall r', In r' results -> SchemaSearch.key r' = SchemaSearch.key r -> r' = r) ->
  In r (SchemaSearch.removeDuplicates results).
Proof.
  intros Hin Huniq. destruct (removeDuplicates_covers results r Hin) as [r' [H' Hk]].
  now rewrite <- (Huniq r' (removeDuplicates_incl _ _ H') Hk).
Qed.

(** Two collected occurrences without a schema name, with methods of the
    index, are not merged when their paths differ. *)
Lemma unnamed_occurrences_differ (r1 r2 : SchemaResult.t) :
  SchemaResult.schemaName r1 = None -> SchemaResult.schemaName r2 = None ->
  no_colon (JS.show (SchemaResult.method r1)) = true ->
  no_colon (JS.show (SchemaResult.method r2)) = true ->
  JS.show (SchemaResult.path r1) <> JS.show (SchemaResult.path r2) ->
  SchemaSearch.key r1 <> SchemaSearch.key r2.
Proof.
  intros Hn1 Hn2 Hm1 Hm2 Hp Hk.
  apply key_injective in Hk as [Hp' _]; auto.
  - now rewrite Hn1.
  - now rewrite Hn2.
Qed.

(** ** Schema Query: the removal of duplicates *)

Lemma colon_paths_loaded : loaded colon_paths colon_paths_loader.
Proof. exists stack_room, SwaggerLoader.new. reflexivity. Qed.

(** C3, at an input that breaks it.  The schema index holds two
    occurrences of the property [data], one for [GET /a] and one for
    [GET /a:GET]: their paths and their schema names differ, yet the key
    text "/a:GET:GET:B" is the same for both, and Schema Query returns the
    first occurrence alone. *)
Theorem C3_dedup_colon_collision :
  loaded colon_paths colon_paths_loader /\
  (exists index,
      SwaggerLoader.schemaIndex colon_paths_loader = Some index /\
      JS.map_get (SchemaIndex.byProperty index) "data"
      = Some [occurrence_a; occurrence_a_GET]) /\
  SchemaResult.path occurrence_a <> SchemaResult.path occurrence_a_GET /\
  SchemaSearch.key occurrence_a = "/a:GET:GET:B" /\
  SchemaSearch.key occurrence_a_GET = "/a:GET:GET:B" /\
  SchemaSearch.searchSchemas colon_paths_loader
    (SchemaSearch.mkParams None (Some "data") None None) = JS.Ok [occurrence_a].
Proof.
  split; [apply colon_paths_loaded|].
  split; [eexists; split; reflexivity|].
  split; [discriminate|].
  repeat split.
Qed.

(** ** Endpoint Listing *)

Lemma collect_In (index : EndpointIndex.t) (item : ListEndpoints.EndpointListItem) :
  In item (ListEndpoints.collect index) <->
  exists path methods method operation,
    In (path, methods) (EndpointIndex.paths index) /\
    In (method, operation) methods /\
    item = ListEndpoints.mkItem path (JS.toUpperCase method)
             (Operation.summary operation) (Operation.operationId operation)
             (Operation.tags operation).
Proof.
  unfold ListEndpoints.collect. rewrite in_flat_map. split.
  - intros [[path methods] [Hin Hitem]]. apply in_map_iff in Hitem.
    destruct Hitem as [[method operation] [<- Hm]].
    exists path, methods, method, operation. auto.
  - intros [path [methods [method [operation [Hp [Hm ->]]]]]].
    exists (path, methods). split; [assumption|].
    apply in_map_iff. exists (method, operation). auto.
Qed.

Section Listing.

Variable localeCompare : string -> string -> Z.

(** What the listing needs of a collation: it is a total preorder. *)
Hypothesis localeCompare_antisym :
  forall a b, (0 < localeCompare a b)%Z <-> (localeCompare b a < 0)%Z.
Hypothesis localeCompare_trans :
  forall a b c, (localeCompare a b <= 0)%Z -> (localeCompare b c <= 0)%Z ->
                (localeCompare a c <= 0)%Z.

Lemma localeCompare_zero (a b : string) :
  localeCompare a b = 0%Z -> localeCompare b a = 0%Z.
Proof.
  intros H.
  pose proof (localeCompare_antisym a b). pose proof (localeCompare_antisym b a).
  lia.
Qed.

Lemma compare_antisym (a b : ListEndpoints.EndpointListItem) :
  (0 < ListEndpoints.compare localeCompare a b)%Z ->
  (ListEndpoints.compare localeCompare b a < 0)%Z.
Proof.
  unfold ListEndpoints.compare.
  destruct (localeCompare (ListEndpoints.path a) (ListEndpoints.path b) =? 0)%Z eqn:E.
  - apply Z.eqb_eq in E. rewrite (localeCompare_zero _ _ E). simpl.
    apply localeCompare_antisym.
  - apply Z.eqb_neq in E. intros H. apply localeCompare_antisym in H.
    destruct (localeCompare (ListEndpoints.path b) (ListEndpoints.path a) =? 0)%Z eqn:E';
      [apply Z.eqb_eq in E'; lia|assumption].
Qed.

(** The comparator of the code does not put [a] after [b] exactly when
    [a] may stand before [b] in the order by path and then by method. *)
Lemma precedes_iff (a b : ListEndpoints.EndpointListItem) :
  (ListEndpoints.compare localeCompare a b <= 0)%Z <->
  precedes localeCompare a b.
Proof.
  unfold precedes, ListEndpoints.compare.
  destruct (localeCompare (ListEndpoints.path a) (ListEndpoints.path b) =? 0)%Z eqn:E.
  - apply Z.eqb_eq in E. lia.
  - apply Z.eqb_neq in E. lia.
Qed.

Lemma precedes_trans : Relations_1.Transitive (precedes localeCompare).
Proof.
  intros x y z Hxy Hyz. unfold precedes in *.
  set (px := ListEndpoints.path x) in *. set (py := ListEndpoints.path y) in *.
  set (pz := ListEndpoints.path z) in *.
  assert (Hxz : (localeCompare px pz <= 0)%Z)
    by (apply (localeCompare_trans px py pz); lia).
  destruct (Z.eq_dec (localeCompare px pz) 0) as [E|E]; [|left; lia].
  right. split; [assumption|].
  pose proof (localeCompare_zero _ _ E) as Ezx.
  assert (Hzy : (localeCompare pz py <= 0)%Z)
    by (apply (localeCompare_trans pz px py); lia).
  assert (Hyx : (localeCompare py px <= 0)%Z)
    by (apply (localeCompare_trans py pz px); lia).
  pose proof (localeCompare_antisym py px). pose proof (localeCompare_antisym pz py).
  apply (localeCompare_trans _ (ListEndpoints.method y)); lia.
Qed.

Lemma listing_sorted (l : list ListEndpoints.EndpointListItem) :
  StronglySorted (precedes localeCompare)
    (JS.sort (ListEndpoints.after localeCompare) l).
Proof.
  apply Sorted_StronglySorted; [apply precedes_trans|].
  apply sort_Sorted; intros x y H; unfold ListEndpoints.after in H.
  - apply Z.ltb_ge in H. now apply precedes_iff.
  - apply Z.ltb_lt in H. apply compare_antisym in H. apply precedes_iff. lia.
Qed.

Lemma localeCompare_refl (a : string) : localeCompare a a = 0%Z.
Proof. pose proof (localeCompare_antisym a a). lia. Qed.

(** C7. Endpoint Listing collects every (path, method) pair of the
    endpoint index with its summary, operationId and tags, sorts the pairs
    by path and then by method in the order of [localeCompare], drops
    [offset] leading entries (0 when absent) and keeps [limit] entries at
    most (50 when absent).  In the sorted list an entry is followed only
    by entries whose path collates later, or alike with a method that does
    not collate earlier.  When "/a/" collates before "/b/", an index that
    holds [GET /b/] and then [GET /a/] is listed with "/a/" first; when
    "DELETE" collates before "GET", an index that holds [GET /a/] and then
    [DELETE /a/] is listed with [DELETE /a/] first. *)
Theorem C7_listing_sorted_and_paginated
    (loader : SwaggerLoader.t) (index : EndpointIndex.t) (limit offset : option Z) :
  SwaggerLoader.endpointIndex loader = Some index ->
  (0 <= match limit with Some l => l | None => 50 end)%Z ->
  (0 <= match offset with Some o => o | None => 0 end)%Z ->
  (forall item,
      In item (ListEndpoints.collect index) <->
      exists path methods method operation,
        In (path, methods) (EndpointIndex.paths index) /\
        In (method, operation) methods /\
        item = ListEndpoints.mkItem path (JS.toUpperCase method)
                 (Operation.summary operation) (Operation.operationId operation)
                 (Operation.tags operation)) /\
  (exists sorted,
      Permutation sorted (ListEndpoints.collect index) /\
      StronglySorted (precedes localeCompare) sorted /\
      ListEndpoints.listEndpoints localeCompare loader
        (ListEndpoints.mkParams limit offset) =
      JS.Ok (firstn (Z.to_nat match limit with Some l => l | None => 50 end)
               (skipn (Z.to_nat match offset with Some o => o | None => 0 end)
                  sorted))) /\
  (forall tags operationIds operationA operationB,
      index = EndpointIndex.mk
                [("/b/", [("GET", operationB)]); ("/a/", [("GET", operationA)])]
                tags operationIds ->
      (localeCompare "/a/" "/b/" < 0)%Z ->
      ListEndpoints.listEndpoints localeCompare loader
        (ListEndpoints.mkParams None None) =
      JS.Ok [listed "/a/" operationA; listed "/b/" operationB]) /\
  (forall tags operationIds operationGet operationDelete,
      index = EndpointIndex.mk
                [("/a/", [("GET", operationGet); ("DELETE", operationDelete)])]
                tags operationIds ->
      (localeCompare "DELETE" "GET" < 0)%Z ->
      ListEndpoints.listEndpoints localeCompare loader
        (ListEndpoints.mkParams None None) =
      JS.Ok [ListEndpoints.mkItem "/a/" "DELETE" (Operation.summary operationDelete)
               (Operation.operationId operationDelete) (Operation.tags operationDelete);
             ListEndpoints.mkItem "/a/" "GET" (Operation.summary operationGet)
               (Operation.operationId operationGet) (Operation.tags operationGet)]).
Proof.
  intros Hi Hl Ho. split; [apply collect_In|]. split; [|split].
  - exists (JS.sort (ListEndpoints.after localeCompare) (ListEndpoints.collect index)).
    split; [apply sort_perm|]. split; [apply listing_sorted|].
    unfold ListEndpoints.listEndpoints, SwaggerLoader.getEndpointIndex.
    rewrite Hi. cbn [JS.bind ListEndpoints.limit ListEndpoints.offset].
    now rewrite slice_nonneg.
  - intros tags operationIds operationA operationB -> Hab.
    unfold ListEndpoints.listEndpoints, SwaggerLoader.getEndpointIndex.
    rewrite Hi. cbn [JS.bind ListEndpoints.limit ListEndpoints.offset].
    assert (Hafter : ListEndpoints.after localeCompare
                       (listed "/b/" operationB) (listed "/a/" operationA) = true).
    { unfold ListEndpoints.after, ListEndpoints.compare. simpl.
      apply localeCompare_antisym in Hab.
      destruct (localeCompare "/b/" "/a/" =? 0)%Z eqn:E;
        [apply Z.eqb_eq in E; lia|now apply Z.ltb_lt]. }
    unfold ListEndpoints.collect.
    cbn [flat_map map app fst snd EndpointIndex.paths JS.sort JS.insert_sorted].
    change (JS.toUpperCase "GET") with "GET". fold (listed "/b/" operationB).
    fold (listed "/a/" operationA).
    rewrite Hafter. reflexivity.
  - intros tags operationIds operationGet operationDelete -> Hdg.
    unfold ListEndpoints.listEndpoints, SwaggerLoader.getEndpointIndex.
    rewrite Hi. cbn [JS.bind ListEndpoints.limit ListEndpoints.offset].
    unfold ListEndpoints.collect.
    cbn [flat_map map app fst snd EndpointIndex.paths JS.sort JS.insert_sorted].
    change (JS.toUpperCase "GET") with "GET".
    change (JS.toUpperCase "DELETE") with "DELETE".
    unfold ListEndpoints.after at 1, ListEndpoints.compare.
    cbn [ListEndpoints.path ListEndpoints.method].
    rewrite (localeCompare_refl "/a/"). cbn [Z.eqb].
    apply localeCompare_antisym in Hdg. apply Z.ltb_lt in Hdg. rewrite Hdg.
    reflexivity.
Qed.

End Listing.

(** The order of the code units is a collation in the sense above. *)
Lemma codeUnitCompare_antisym (a b : string) :
  (0 < codeUnitCompare a b)%Z <-> (codeUnitCompare b a < 0)%Z.
Proof.
  unfold codeUnitCompare. rewrite (String.compare_antisym a b).
  destruct (String.compare b a); simpl; lia.
Qed.

Lemma codeUnitCompare_le (a b : string) :
  (codeUnitCompare a b <= 0)%Z <-> a = b \/ OrderedTypeEx.String_as_OT.lt a b.
Proof.
  unfold codeUnitCompare.
  destruct (String.compare a b) eqn:E.
  - apply OrderedTypeEx.String_as_OT.cmp_eq in E. split; [auto|lia].
  - apply OrderedTypeEx.String_as_OT.cmp_lt in E. split; [auto|lia].
  - split; [lia|]. intros [->|H].
    + assert (H : String.compare b b = Eq)
        by now apply OrderedTypeEx.String_as_OT.cmp_eq.
      congruence.
    + apply OrderedTypeEx.String_as_OT.cmp_lt in H.
      unfold OrderedTypeEx.String_as_OT.cmp in H. congruence.
Qed.

Lemma codeUnitCompare_trans (a b c : string) :
  (codeUnitCompare a b <= 0)%Z -> (codeUnitCompare b c <= 0)%Z ->
  (codeUnitCompare a c <= 0)%Z.
Proof.
  rewrite !codeUnitCompare_le. intros [->|Hab] [->|Hbc]; auto.
  right. now apply (OrderedTypeEx.String_as_OT.lt_trans a b c).
Qed.

(** The theorem at the fixture that indexes [GET /b/], then [GET /a/] and
    [DELETE /a/], under the order of the code units: the listing is sorted
    by path and then by method, and it is this list. *)
Lemma C7_listing_sorted_and_paginated_witness :
  SwaggerLoader.endpointIndex two_methods_loader
  = Some (endpointIndex_of (entries_of two_methods)) /\
  (exists sorted,
      Permutation sorted
        (ListEndpoints.collect (endpointIndex_of (entries_of two_methods))) /\
      StronglySorted (precedes codeUnitCompare) sorted /\
      ListEndpoints.listEndpoints codeUnitCompare two_methods_loader
        (ListEndpoints.mkParams None None) = JS.Ok (firstn 50 (skipn 0 sorted))) /\
  ListEndpoints.listEndpoints codeUnitCompare two_methods_loader
    (ListEndpoints.mkParams None None) =
  JS.Ok [ListEndpoints.mkItem "/a/" "DELETE" (Some "Remove A") (Some "a_delete") None;
         ListEndpoints.mkItem "/a/" "GET" (Some "A") (Some "a_list") None;
         ListEndpoints.mkItem "/b/" "GET" (Some "B") (Some "b_list") None].
Proof.
  split; [reflexivity|]. split; [|reflexivity].
  destruct (C7_listing_sorted_and_paginated codeUnitCompare
              codeUnitCompare_antisym codeUnitCompare_trans
              two_methods_loader (endpointIndex_of (entries_of two_methods))
              None None eq_refl) as [_ [H _]]; [lia|lia|].
  exact H.
Defined.

(** ** The endpoint index against the document *)

Lemma map_get_set_other {V} (m : JS.Map V) (k k' : string) (v : V) :
  k <> k' -> JS.map_get (JS.map_set m k v) k' = JS.map_get m k'.
Proof.
  intros Hne. induction m as [|[k0 v0] m IH]; simpl.
  - destruct (k =? k') eqn:E; [apply String.eqb_eq in E; contradiction|reflexivity].
  - destruct (k0 =? k) eqn:E; simpl.
    + apply String.eqb_eq in E. subst k0.
      destruct (k =? k') eqn:E'; [apply String.eqb_eq in E'; contradiction|reflexivity].
    + destruct (k0 =? k'); [reflexivity|assumption].
Qed.

Lemma method_fold_methodMap (path : string) (pathItem : PathItem.t)
    (tags : JS.Map (list EndpointResult.t)) (operationIds : JS.Map Location.t) :
  fst (fst (fold_left (SwaggerLoader.endpoint_method_step path pathItem)
              SwaggerLoader.methods ([], tags, operationIds)))
  = methodMap_of pathItem.
Proof.
  destruct pathItem as [[?|] [?|] [?|] [?|] [?|] [?|] [?|]]; reflexivity.
Qed.

Lemma methodMap_of_get (pathItem : PathItem.t) (method : string) :
  In method SwaggerLoader.methods ->
  JS.map_get (methodMap_of pathItem) (JS.toUpperCase method)
  = PathItem.at_ pathItem method.
Proof.
  intros H. simpl in H.
  repeat (destruct H as [<-|H];
          [destruct pathItem as [[?|] [?|] [?|] [?|] [?|] [?|] [?|]]; reflexivity|]).
  destruct H.
Qed.
Lemma path_step_paths (paths : JS.Map (JS.Map Operation.t))
    (tags : JS.Map (list EndpointResult.t)) (operationIds : JS.Map Location.t)
    (path : string) (pathItem : PathItem.t) :
  fst (fst (SwaggerLoader.endpoint_path_step (paths, tags, operationIds) (path, pathItem)))
  = if (0 <? length (methodMap_of pathItem))%nat
    then JS.map_set paths path (methodMap_of pathItem) else paths.
Proof.
  unfold SwaggerLoader.endpoint_path_step.
  pose proof (method_fold_methodMap path pathItem tags operationIds) as H.
  destruct (fold_left _ SwaggerLoader.methods _) as [[methodMap tags'] operationIds'].
  simpl in H. subst methodMap. unfold JS.map_size.
  now destruct (0 <? length (methodMap_of pathItem))%nat.
Qed.

Lemma path_step_rest (paths : JS.Map (JS.Map Operation.t))
    (tags : JS.Map (list EndpointResult.t)) (operationIds : JS.Map Location.t)
    (path : string) (pathItem : PathItem.t) :
  exists paths',
    SwaggerLoader.endpoint_path_step (paths, tags, operationIds) (path, pathItem)
    = (paths',
       snd (fst (fold_left (SwaggerLoader.endpoint_method_step path pathItem)
                   SwaggerLoader.methods ([], tags, operationIds))),
       snd (fold_left (SwaggerLoader.endpoint_method_step path pathItem)
              SwaggerLoader.methods ([], tags, operationIds))).
Proof.
  unfold SwaggerLoader.endpoint_path_step.
  set (inner := fold_left _ SwaggerLoader.methods _).
  destruct inner as [[methodMap tags'] operationIds']. eexists. reflexivity.
Qed.

(** The [paths] index holds, for every path of the document, the method map
    of its path item, unless that map is empty. *)
Lemma paths_lookup (entries : list (string * PathItem.t)) :
  NoDup (map fst entries) ->
  (forall path pathItem,
      In (path, pathItem) entries ->
      JS.map_get (EndpointIndex.paths (endpointIndex_of entries)) path =
      match methodMap_of pathItem with
      | [] => None
      | methodMap => Some methodMap
      end) /\
  (forall path,
      ~ In path (map fst entries) ->
      JS.map_get (EndpointIndex.paths (endpointIndex_of entries)) path = None).
Proof.
  unfold endpointIndex_of.
  induction entries as [|[p pathItem] entries IH] using rev_ind; intros Hn.
  - simpl. split; [intros ? ? []|reflexivity].
  - rewrite map_app in Hn. simpl in Hn.
    apply NoDup_remove in Hn as [Hn Hp]. rewrite app_nil_r in Hn, Hp.
    destruct (IH Hn) as [Hin Hout]. clear IH.
    rewrite fold_left_app. simpl.
    destruct (fold_left SwaggerLoader.endpoint_path_step entries ([], [], []))
      as [[paths tags] operationIds] eqn:E.
    pose proof (path_step_paths paths tags operationIds p pathItem) as Hstep.
    destruct (SwaggerLoader.endpoint_path_step (paths, tags, operationIds) (p, pathItem))
      as [[paths' tags'] operationIds'].
    simpl in Hstep, Hin, Hout |- *. subst paths'.
    assert (Hnew : JS.map_get
                     (if (0 <? length (methodMap_of pathItem))%nat
                      then JS.map_set paths p (methodMap_of pathItem) else paths) p
                   = match methodMap_of pathItem with
                     | [] => None
                     | methodMap => Some methodMap
                     end).
    { destruct (methodMap_of pathItem) as [|x mm] eqn:Em; simpl.
      - now apply Hout.
      - apply map_get_set_same. }
    assert (Hold : forall path, path <> p ->
              JS.map_get
                (if (0 <? length (methodMap_of pathItem))%nat
                 then JS.map_set paths p (methodMap_of pathItem) else paths) path
              = JS.map_get paths path).
    { intros path Hne. destruct (0 <? length (methodMap_of pathItem))%nat;
        [|reflexivity].
      apply map_get_set_other. congruence. }
    split.
    + intros path pathItem' H. apply in_app_or in H as [H|[[= <- <-]|[]]].
      * rewrite Hold; [now apply Hin|].
        intros ->. apply Hp. now apply (in_map fst) in H.
      * exact Hnew.
    + intros path H. rewrite map_app, in_app_iff in H. simpl in H.
      rewrite Hold; [apply Hout; tauto|]. intros ->. tauto.
Qed.

Lemma operation_at_declared (entries : list (string * PathItem.t))
    (path method : string) (operation : Operation.t) :
  NoDup (map fst entries) ->
  declares entries path method operation ->
  EndpointSearch.operation_at (endpointIndex_of entries) path (JS.toUpperCase method)
  = Some operation.
Proof.
  intros Hn [pathItem [Hin [Hm Hat]]].
  unfold EndpointSearch.operation_at.
  rewrite (proj1 (paths_lookup entries Hn) path pathItem Hin).
  pose proof (methodMap_of_get pathItem method Hm) as Hget. rewrite Hat in Hget.
  destruct (methodMap_of pathItem); [discriminate|assumption].
Qed.
Lemma method_step_invariant (entries : list (string * PathItem.t))
    (path : string) (pathItem : PathItem.t)
    (st : JS.Map Operation.t * JS.Map (list EndpointResult.t) * JS.Map Location.t)
    (method : string) :
  In (path, pathItem) entries -> In method SwaggerLoader.methods ->
  (forall tag summaries summary,
      In (tag, summaries) (snd (fst st)) -> In summary summaries ->
      tagged entries tag summary) ->
  (forall opId location, In (opId, location) (snd st) -> located entries opId location) ->
  let st' := SwaggerLoader.endpoint_method_step path pathItem st method in
  (forall tag summaries summary,
      In (tag, summaries) (snd (fst st')) -> In summary summaries ->
      tagged entries tag summary) /\
  (forall opId location, In (opId, location) (snd st') -> located entries opId location).
Proof.
  intros Hentry Hmethod Htags Hids.
  destruct st as [[methodMap tags] operationIds].
  unfold SwaggerLoader.endpoint_method_step.
  destruct (PathItem.at_ pathItem method) as [operation|] eqn:Hat; [|now split].
  assert (Hdecl : declares entries path method operation)
    by (exists pathItem; auto).
  cbn [fst snd] in *. split.
  - destruct (Operation.tags operation) as [ts|] eqn:Hts; [|exact Htags].
    assert (Hall : forall tag, In tag ts ->
              tagged entries tag
                (SwaggerLoader.summary_of path (JS.toUpperCase method) operation)).
    { intros tag Hin. exists method, operation, ts. auto. }
    clear Hts. revert tags Htags.
    induction ts as [|t ts IH]; intros tags Htags; [exact Htags|].
    simpl. apply IH.
    + intros tag Hin. apply Hall. now right.
    + intros tag summaries summary Hin Hs.
      rewrite push_at_spec in Hin.
      apply map_set_In in Hin as [[-> ->]|Hin]; [|now apply (Htags tag summaries)].
      apply in_app_or in Hs as [Hs|[<-|[]]].
      * destruct (JS.map_get tags t) as [old|] eqn:E; [|destruct Hs].
        apply map_get_In in E. now apply (Htags t old).
      * apply Hall. now left.
  - destruct (JS.truthy (Operation.operationId operation)) eqn:Ht; [|exact Hids].
    intros opId location Hin.
    apply map_set_In in Hin as [[-> ->]|Hin]; [|now apply Hids].
    exists method, operation. split; [exact Hdecl|]. split; [reflexivity|].
    destruct (Operation.operationId operation); [reflexivity|discriminate].
Qed.

(** Every entry of [operationIds] and every summary of [tags] comes from an
    operation of the document. *)
Lemma endpointIndex_of_sound (entries : list (string * PathItem.t)) :
  (forall tag summaries summary,
      In (tag, summaries) (EndpointIndex.tags (endpointIndex_of entries)) ->
      In summary summaries -> tagged entries tag summary) /\
  (forall opId location,
      In (opId, location) (EndpointIndex.operationIds (endpointIndex_of entries)) ->
      located entries opId location).
Proof.
  unfold endpointIndex_of.
  assert (H : let st := fold_left SwaggerLoader.endpoint_path_step entries ([], [], []) in
              (forall tag summaries summary,
                  In (tag, summaries) (snd (fst st)) -> In summary summaries ->
                  tagged entries tag summary) /\
              (forall opId location, In (opId, location) (snd st) ->
                                     located entries opId location)).
  { cbv zeta.
    apply (fold_left_invariant
             (fun st : JS.Map (JS.Map Operation.t) * JS.Map (list EndpointResult.t)
                       * JS.Map Location.t =>
                (forall tag summaries summary,
                            In (tag, summaries) (snd (fst st)) -> In summary summaries ->
                            tagged entries tag summary) /\
                        (forall opId location, In (opId, location) (snd st) ->
                                               located entries opId location))).
    - intros [[paths tags] operationIds] [path pathItem] Hentry [Htags Hids].
      destruct (path_step_rest paths tags operationIds path pathItem) as [paths' E].
      rewrite E. cbn [fst snd].
      apply (fold_left_invariant
               (fun st => (forall tag summaries summary,
                              In (tag, summaries) (snd (fst st)) -> In summary summaries ->
                              tagged entries tag summary) /\
                          (forall opId location, In (opId, location) (snd st) ->
                                                 located entries opId location))).
      + intros st method Hm [H1 H2].
        now apply (method_step_invariant entries path pathItem st method).
      + now split.
    - split; [intros ? ? ? []|intros ? ? []]. }
  now destruct (fold_left SwaggerLoader.endpoint_path_step entries ([], [], []))
    as [[paths tags] operationIds].
Qed.
Lemma map_set_fresh {V} (m : JS.Map V) (k : string) (v : V) :
  ~ In k (JS.map_keys m) -> JS.map_set m k v = m ++ [(k, v)].
Proof.
  induction m as [|[k0 v0] m IH]; simpl; [reflexivity|].
  intros H. destruct (k0 =? k) eqn:E.
  - apply String.eqb_eq in E. tauto.
  - now rewrite IH by tauto.
Qed.

Lemma indexed_paths_keys (entries : list (string * PathItem.t)) (path : string) :
  In path (JS.map_keys (indexed_paths entries)) -> In path (map fst entries).
Proof.
  unfold indexed_paths, JS.map_keys. intros H.
  apply in_map_iff in H as [[p mm] [<- H]].
  apply in_flat_map in H as [[p' pathItem] [Hin H]]. simpl in H.
  destruct (methodMap_of pathItem); [destruct H|].
  destruct H as [[= <- <-]|[]]. now apply (in_map fst) in Hin.
Qed.

Lemma indexed_paths_app (a b : list (string * PathItem.t)) :
  indexed_paths (a ++ b) = indexed_paths a ++ indexed_paths b.
Proof. unfold indexed_paths. apply flat_map_app. Qed.

(** With distinct paths, the [paths] index lists the document in order. *)
Lemma paths_exact (entries : list (string * PathItem.t)) :
  NoDup (map fst entries) ->
  EndpointIndex.paths (endpointIndex_of entries) = indexed_paths entries.
Proof.
  unfold endpointIndex_of.
  induction entries as [|[p pathItem] entries IH] using rev_ind; intros Hn;
    [reflexivity|].
  rewrite map_app in Hn. simpl in Hn.
  apply NoDup_remove in Hn as [Hn Hp]. rewrite app_nil_r in Hn, Hp.
  specialize (IH Hn). rewrite fold_left_app. simpl.
  destruct (fold_left SwaggerLoader.endpoint_path_step entries ([], [], []))
    as [[paths tags] operationIds].
  pose proof (path_step_paths paths tags operationIds p pathItem) as Hstep.
  destruct (SwaggerLoader.endpoint_path_step (paths, tags, operationIds) (p, pathItem))
    as [[paths' tags'] operationIds'].
  simpl in Hstep, IH |- *. subst paths' paths.
  rewrite indexed_paths_app. unfold indexed_paths at 2.
  simpl. destruct (methodMap_of pathItem) as [|x mm]; simpl.
  - now rewrite app_nil_r.
  - apply map_set_fresh. intros H. apply Hp. now apply indexed_paths_keys.
Qed.

Lemma document_of_loader (loader : SwaggerLoader.t) (spec : SwaggerSpec.t)
    (entries : list (string * PathItem.t)) :
  document_of loader spec entries ->
  loader = SwaggerLoader.mk (Some spec) (Some (endpointIndex_of entries))
             (Some (schemaIndex_of entries)) (Some (fulltextIndex_of entries)).
Proof.
  intros [Hl [Hp _]]. apply loaded_inv in Hl as [entries' [Hp' ->]].
  rewrite Hp in Hp'. now inversion Hp'.
Qed.

Lemma methodMap_of_In (pathItem : PathItem.t) (methodStr : string)
    (operation : Operation.t) :
  In (methodStr, operation) (methodMap_of pathItem) <->
  exists method,
    In method SwaggerLoader.methods /\ methodStr = JS.toUpperCase method /\
    PathItem.at_ pathItem method = Some operation.
Proof.
  unfold methodMap_of. rewrite in_flat_map. split.
  - intros [method [Hm H]].
    destruct (PathItem.at_ pathItem method) as [op|] eqn:E; [|destruct H].
    destruct H as [[= <- <-]|[]]. exists method. auto.
  - intros [method [Hm [-> Hat]]]. exists method. split; [assumption|].
    rewrite Hat. now left.
Qed.

Lemma indexed_paths_In (entries : list (string * PathItem.t)) (path : string)
    (methodMap : JS.Map Operation.t) :
  In (path, methodMap) (indexed_paths entries) <->
  exists pathItem,
    In (path, pathItem) entries /\ methodMap = methodMap_of pathItem /\
    methodMap <> [].
Proof.
  unfold indexed_paths. rewrite in_flat_map. split.
  - intros [[p pathItem] [Hin H]]. simpl in H.
    destruct (methodMap_of pathItem) as [|x mm] eqn:E; [destruct H|].
    destruct H as [[= <- <-]|[]]. exists pathItem.
    split; [assumption|]. split; [now rewrite E|discriminate].
  - intros [pathItem [Hin [-> Hne]]]. exists (path, pathItem).
    split; [assumption|]. simpl.
    destruct (methodMap_of pathItem); [congruence|now left].
Qed.

(** X1.  On a loaded document, the [paths] index lists the path items in
    document order (those without an operation are absent), each with its
    operations under the upper-case method names; a lookup by path and
    upper-case method returns what the document declares there, and
    nothing under a path that the document does not have. *)
Theorem X1_paths_index_matches_document
    (loader : SwaggerLoader.t) (spec : SwaggerSpec.t)
    (entries : list (string * PathItem.t)) :
  document_of loader spec entries ->
  exists index,
    SwaggerLoader.getEndpointIndex loader = JS.Ok index /\
    EndpointIndex.paths index = indexed_paths entries /\
    (forall path pathItem method,
        In (path, pathItem) entries -> In method SwaggerLoader.methods ->
        EndpointSearch.operation_at index path (JS.toUpperCase method)
        = PathItem.at_ pathItem method) /\
    (forall path methodStr operation,
        EndpointSearch.operation_at index path methodStr = Some operation ->
        exists method, methodStr = JS.toUpperCase method /\
                       declares entries path method operation) /\
    (forall path methodStr,
        ~ In path (map fst entries) ->
        EndpointSearch.operation_at index path methodStr = None).
Proof.
  intros Hdoc. pose proof Hdoc as [_ [_ Hn]].
  rewrite (document_of_loader _ _ _ Hdoc).
  exists (endpointIndex_of entries). split; [reflexivity|].
  split; [now apply paths_exact|].
  destruct (paths_lookup entries Hn) as [Hin Hout].
  split; [|split].
  - intros path pathItem method He Hm. unfold EndpointSearch.operation_at.
    rewrite (Hin path pathItem He).
    pose proof (methodMap_of_get pathItem method Hm) as Hget.
    destruct (methodMap_of pathItem); [|assumption].
    simpl in Hget. now rewrite <- Hget.
  - intros path methodStr operation H. unfold EndpointSearch.operation_at in H.
    destruct (JS.map_get _ path) as [methodMap|] eqn:E; [|discriminate].
    apply map_get_In in E, H. rewrite (paths_exact entries Hn) in E.
    apply indexed_paths_In in E as [pathItem [He [-> _]]].
    apply methodMap_of_In in H as [method [Hm [-> Hat]]].
    exists method. split; [reflexivity|]. now exists pathItem.
  - intros path methodStr H. unfold EndpointSearch.operation_at.
    now rewrite (Hout path H).
Qed.
Lemma fold_left_establish {S X : Type} (Q : S -> Prop) (f : S -> X -> S)
    (l : list X) (x0 : X) (st : S) :
  (forall s x, Q s -> Q (f s x)) -> (forall s, Q (f s x0)) ->
  In x0 l -> Q (fold_left f l st).
Proof.
  intros Hkeep Hmake. revert st. induction l as [|x l IH]; intros st Hin; [destruct Hin|].
  simpl. destruct Hin as [->|Hin].
  - apply fold_left_invariant; [intros; now apply Hkeep|apply Hmake].
  - now apply IH.
Qed.

Lemma holds_push_keep {V} (m : JS.Map (list V)) (key key' : string) (x y : V) :
  holds m key x -> holds (SwaggerLoader.push_at m key' y) key x.
Proof.
  intros [l [Hget Hin]]. rewrite push_at_spec. unfold holds.
  destruct (string_dec key' key) as [->|Hne].
  - rewrite map_get_set_same, Hget. eexists. split; [reflexivity|].
    apply in_or_app. now left.
  - rewrite map_get_set_other by assumption. eauto.
Qed.

Lemma holds_push_new {V} (m : JS.Map (list V)) (key : string) (x : V) :
  holds (SwaggerLoader.push_at m key x) key x.
Proof.
  rewrite push_at_spec. unfold holds. rewrite map_get_set_same.
  eexists. split; [reflexivity|]. apply in_or_app. right. now left.
Qed.

Lemma method_step_keeps (path : string) (pathItem : PathItem.t)
    (st : JS.Map Operation.t * JS.Map (list EndpointResult.t) * JS.Map Location.t)
    (method : string) (tag opId : string) (summary : EndpointResult.t) :
  let st' := SwaggerLoader.endpoint_method_step path pathItem st method in
  (holds (snd (fst st)) tag summary -> holds (snd (fst st')) tag summary) /\
  (In opId (JS.map_keys (snd st)) -> In opId (JS.map_keys (snd st'))).
Proof.
  destruct st as [[methodMap tags] operationIds].
  unfold SwaggerLoader.endpoint_method_step.
  destruct (PathItem.at_ pathItem method) as [operation|]; [|now split].
  cbn [fst snd]. split.
  - destruct (Operation.tags operation) as [ts|]; [|trivial].
    revert tags. induction ts as [|t ts IH]; intros tags H; [exact H|].
    simpl. apply IH. now apply holds_push_keep.
  - destruct (JS.truthy (Operation.operationId operation)); [|trivial].
    intros H. apply map_keys_set. now right.
Qed.

Lemma method_step_makes (path : string) (pathItem : PathItem.t)
    (st : JS.Map Operation.t * JS.Map (list EndpointResult.t) * JS.Map Location.t)
    (method : string) (operation : Operation.t) :
  PathItem.at_ pathItem method = Some operation ->
  let st' := SwaggerLoader.endpoint_method_step path pathItem st method in
  (forall tags tag,
      Operation.tags operation = Some tags -> In tag tags ->
      holds (snd (fst st')) tag
        (SwaggerLoader.summary_of path (JS.toUpperCase method) operation)) /\
  (forall opId,
      Operation.operationId operation = Some opId -> opId <> "" ->
      In opId (JS.map_keys (snd st'))).
Proof.
  intros Hat. destruct st as [[methodMap tags0] operationIds].
  unfold SwaggerLoader.endpoint_method_step. rewrite Hat. cbn [fst snd]. split.
  - intros ts tag -> Hin. revert tags0.
    induction ts as [|t ts IH]; intros tags0; [destruct Hin|].
    simpl. destruct Hin as [->|Hin]; [|now apply IH].
    apply (fold_left_invariant (fun tags => holds tags tag _)).
    + intros s t' _ H. now apply holds_push_keep.
    + apply holds_push_new.
  - intros opId -> Hne. rewrite (truthy_Some opId Hne). simpl JS.value.
    apply map_keys_set. now left.
Qed.

(** Every operation of the document is found under each of its tags and,
    when it has a non-empty [operationId], under that identifier. *)
Lemma endpointIndex_of_complete (entries : list (string * PathItem.t))
    (path method : string) (operation : Operation.t) :
  declares entries path method operation ->
  (forall tags tag,
      Operation.tags operation = Some tags -> In tag tags ->
      holds (EndpointIndex.tags (endpointIndex_of entries)) tag
        (SwaggerLoader.summary_of path (JS.toUpperCase method) operation)) /\
  (forall opId,
      Operation.operationId operation = Some opId -> opId <> "" ->
      In opId (JS.map_keys (EndpointIndex.operationIds (endpointIndex_of entries)))).
Proof.
  intros [pathItem [Hentry [Hm Hat]]].
  set (Q := fun st : JS.Map (JS.Map Operation.t) * JS.Map (list EndpointResult.t)
                     * JS.Map Location.t =>
              (forall tags tag,
                  Operation.tags operation = Some tags -> In tag tags ->
                  holds (snd (fst st)) tag
                    (SwaggerLoader.summary_of path (JS.toUpperCase method) operation)) /\
              (forall opId,
                  Operation.operationId operation = Some opId -> opId <> "" ->
                  In opId (JS.map_keys (snd st)))).
  set (Q' := fun st : JS.Map Operation.t * JS.Map (list EndpointResult.t)
                      * JS.Map Location.t => Q ([], snd (fst st), snd st)).
  assert (Hinner_keep : forall p pi st m,
            Q' st -> Q' (SwaggerLoader.endpoint_method_step p pi st m)).
  { intros p pi st m [H1 H2]. split; cbn [fst snd] in *.
    - intros ts tag Hts Hin.
      now apply (proj1 (method_step_keeps p pi st m tag "" _)), (H1 ts).
    - intros opId Ho Hne.
      now apply (proj2 (method_step_keeps p pi st m "" opId
                          (SwaggerLoader.summary_of "" "" operation))), H2. }
  assert (H : Q (fold_left SwaggerLoader.endpoint_path_step entries ([], [], []))).
  { apply (fold_left_establish Q _ entries (path, pathItem)); [| |assumption].
    - intros [[paths tags] operationIds] [p pi] HQ.
      destruct (path_step_rest paths tags operationIds p pi) as [paths' E].
      rewrite E.
      apply (fold_left_invariant Q'); [intros; now apply Hinner_keep|exact HQ].
    - intros [[paths tags] operationIds].
      destruct (path_step_rest paths tags operationIds path pathItem) as [paths' E].
      rewrite E.
      apply (fold_left_establish Q' _ SwaggerLoader.methods method);
        [intros; now apply Hinner_keep| |assumption].
      intros st. exact (method_step_makes path pathItem st method operation Hat). }
  unfold endpointIndex_of.
  now destruct (fold_left SwaggerLoader.endpoint_path_step entries ([], [], []))
    as [[paths tags] operationIds].
Qed.
Lemma files_and_nodes_document :
  document_of files_and_nodes_loader files_and_nodes (entries_of files_and_nodes).
Proof.
  split; [apply files_and_nodes_loaded|]. split; [reflexivity|].
  repeat constructor; simpl; intuition discriminate.
Qed.

(** The theorem at the two-endpoint fixture. *)
Lemma X1_paths_index_matches_document_witness :
  document_of files_and_nodes_loader files_and_nodes (entries_of files_and_nodes) /\
  exists index,
    SwaggerLoader.getEndpointIndex files_and_nodes_loader = JS.Ok index /\
    EndpointIndex.paths index = indexed_paths (entries_of files_and_nodes).
Proof.
  split; [apply files_and_nodes_document|].
  destruct (X1_paths_index_matches_document _ _ _ files_and_nodes_document)
    as [index [H1 [H2 _]]].
  exists index. split; assumption.
Defined.

Lemma located_resolves (entries : list (string * PathItem.t)) (opId : string)
    (location : Location.t) :
  NoDup (map fst entries) -> located entries opId location ->
  exists operation,
    EndpointSearch.operation_at (endpointIndex_of entries)
      (Location.path location) (Location.method location) = Some operation /\
    Operation.operationId operation = Some opId.
Proof.
  intros Hn [method [operation [Hdecl [Hm Hid]]]].
  exists operation. split; [|assumption].
  rewrite Hm. now apply operation_at_declared.
Qed.

(** X2.  On a loaded document, every entry of the [operationIds] index
    resolves through the [paths] index to an operation that carries this
    very identifier, and every operation with a non-empty [operationId] has
    an entry under it. *)
Theorem X2_operationIds_resolve
    (loader : SwaggerLoader.t) (spec : SwaggerSpec.t)
    (entries : list (string * PathItem.t)) :
  document_of loader spec entries ->
  exists index,
    SwaggerLoader.getEndpointIndex loader = JS.Ok index /\
    (forall opId location,
        JS.map_get (EndpointIndex.operationIds index) opId = Some location ->
        exists operation,
          EndpointSearch.operation_at index (Location.path location)
            (Location.method location) = Some operation /\
          Operation.operationId operation = Some opId) /\
    (forall path method operation opId,
        declares entries path method operation ->
        Operation.operationId operation = Some opId -> opId <> "" ->
        exists location,
          JS.map_get (EndpointIndex.operationIds index) opId = Some location).
Proof.
  intros Hdoc. pose proof Hdoc as [_ [_ Hn]].
  rewrite (document_of_loader _ _ _ Hdoc).
  exists (endpointIndex_of entries). split; [reflexivity|]. split.
  - intros opId location H. apply map_get_In in H.
    apply (proj2 (endpointIndex_of_sound entries)) in H.
    now apply located_resolves.
  - intros path method operation opId Hdecl Hid Hne.
    apply map_get_keys.
    exact (proj2 (endpointIndex_of_complete entries path method operation Hdecl)
             opId Hid Hne).
Qed.

Lemma X2_operationIds_resolve_witness :
  document_of files_and_nodes_loader files_and_nodes (entries_of files_and_nodes) /\
  exists index location operation,
    SwaggerLoader.getEndpointIndex files_and_nodes_loader = JS.Ok index /\
    JS.map_get (EndpointIndex.operationIds index) "nodes_list" = Some location /\
    EndpointSearch.operation_at index (Location.path location)
      (Location.method location) = Some operation /\
    Operation.operationId operation = Some "nodes_list".
Proof.
  split; [apply files_and_nodes_document|].
  destruct (X2_operationIds_resolve _ _ _ files_and_nodes_document)
    as [index [H1 [H2 _]]].
  destruct (H2 "nodes_list" (Location.mk "/nodes/" "GET")) as [operation [H3 H4]].
  { injection H1 as <-. reflexivity. }
  exists index, (Location.mk "/nodes/" "GET"), operation.
  split; [assumption|]. split; [|split; assumption].
  injection H1 as <-. reflexivity.
Defined.

Lemma tagged_resolves (entries : list (string * PathItem.t)) (tag : string)
    (summary : EndpointResult.t) :
  NoDup (map fst entries) -> tagged entries tag summary ->
  exists operation tags,
    EndpointSearch.operation_at (endpointIndex_of entries)
      (EndpointResult.path summary) (EndpointResult.method summary) = Some operation /\
    summary = SwaggerLoader.summary_of (EndpointResult.path summary)
                (EndpointResult.method summary) operation /\
    EndpointResult.tags summary = Some tags /\ In tag tags.
Proof.
  intros Hn [method [operation [tags [Hdecl [Hs [Ht Hin]]]]]].
  exists operation, tags.
  assert (Hm : EndpointResult.method summary = JS.toUpperCase method)
    by (rewrite Hs; reflexivity).
  rewrite Hm. split; [now apply operation_at_declared|].
  split; [assumption|]. split; [|assumption].
  rewrite Hs. exact Ht.
Qed.

(** X3.  On a loaded document, every summary stored under a tag is the
    summary of an operation found in the [paths] index at the summary's
    path and method, and lists that tag; conversely every operation is
    stored under each of its tags. *)
Theorem X3_tags_index_matches_document
    (loader : SwaggerLoader.t) (spec : SwaggerSpec.t)
    (entries : list (string * PathItem.t)) :
  document_of loader spec entries ->
  exists index,
    SwaggerLoader.getEndpointIndex loader = JS.Ok index /\
    (forall tag summaries summary,
        JS.map_get (EndpointIndex.tags index) tag = Some summaries ->
        In summary summaries ->
        exists operation tags,
          EndpointSearch.operation_at index (EndpointResult.path summary)
            (EndpointResult.method summary) = Some operation /\
          summary = SwaggerLoader.summary_of (EndpointResult.path summary)
                      (EndpointResult.method summary) operation /\
          EndpointResult.tags summary = Some tags /\ In tag tags) /\
    (forall path method operation tags tag,
        declares entries path method operation ->
        Operation.tags operation = Some tags -> In tag tags ->
        exists summaries,
          JS.map_get (EndpointIndex.tags index) tag = Some summaries /\
          In (SwaggerLoader.summary_of path (JS.toUpperCase method) operation)
             summaries).
Proof.
  intros Hdoc. pose proof Hdoc as [_ [_ Hn]].
  rewrite (document_of_loader _ _ _ Hdoc).
  exists (endpointIndex_of entries). split; [reflexivity|]. split.
  - intros tag summaries summary H Hin. apply map_get_In in H.
    apply tagged_resolves; [assumption|].
    exact (proj1 (endpointIndex_of_sound entries) tag summaries summary H Hin).
  - intros path method operation tags tag Hdecl Ht Hin.
    exact (proj1 (endpointIndex_of_complete entries path method operation Hdecl)
             tags tag Ht Hin).
Qed.

Lemma X3_tags_index_matches_document_witness :
  document_of files_and_nodes_loader files_and_nodes (entries_of files_and_nodes) /\
  exists index summaries,
    SwaggerLoader.getEndpointIndex files_and_nodes_loader = JS.Ok index /\
    JS.map_get (EndpointIndex.tags index) "Files" = Some summaries /\
    exists summary, In summary summaries /\ EndpointResult.path summary = "/files/".
Proof.
  split; [apply files_and_nodes_document|].
  destruct (X3_tags_index_matches_document _ _ _ files_and_nodes_document)
    as [index [H1 [_ H2]]].
  destruct (H2 "/files/" "get"
              (operation (Some "List all files")
                 (Some "Returns a list of all files in the system")
                 (Some "files_list") (Some ["Files"])
                 (Some [Param.mk "page" "query" (Some "Page number for pagination") None])
                 (Some [("200", Response.mk "OK"
                                  (Some (object_schema (Some "FileList") ["id"; "name"])))]))
              ["Files"] "Files") as [summaries [H3 H4]].
  - eexists. split; [left; reflexivity|]. split; [now left|reflexivity].
  - reflexivity.
  - now left.
  - exists index, summaries. split; [assumption|]. split; [assumption|].
    eexists. split; [exact H4|reflexivity].
Defined.

(** ** Endpoint Query under its filters *)

Lemma filter_flat_map {A B} (f : B -> bool) (g : A -> list B) (l : list A) :
  filter f (flat_map g l) = flat_map (fun x => filter f (g x)) l.
Proof.
  induction l as [|x l IH]; simpl; [reflexivity|].
  now rewrite filter_app, IH.
Qed.

Lemma flat_map_singleton_filter {A B} (f : B -> bool) (h : A -> B) (l : list A) :
  flat_map (fun x => if f (h x) then [h x] else []) l = filter f (map h l).
Proof.
  induction l as [|x l IH]; simpl; [reflexivity|].
  rewrite IH. now destruct (f (h x)).
Qed.

Lemma flat_map_indexed_paths {B} (g : string -> JS.Map Operation.t -> list B)
    (entries : list (string * PathItem.t)) :
  flat_map (fun entry : string * JS.Map Operation.t => g (fst entry) (snd entry))
           (indexed_paths entries)
  = flat_map (fun entry : string * PathItem.t =>
                match methodMap_of (snd entry) with
                | [] => []
                | methodMap => g (fst entry) methodMap
                end) entries.
Proof.
  unfold indexed_paths.
  induction entries as [|entry entries IH]; [reflexivity|].
  change (flat_map ?f (entry :: entries)) with (f entry ++ flat_map f entries).
  rewrite flat_map_app. f_equal; [|exact IH].
  destruct (methodMap_of (snd entry)); simpl; [reflexivity|apply app_nil_r].
Qed.

(** Endpoint Query under its filters: the endpoints of the document that
    pass them, in document order. *)
Lemma by_filters_exact (entries : list (string * PathItem.t))
    (path method tag : option string) :
  NoDup (map fst entries) ->
  EndpointSearch.by_filters (endpointIndex_of entries) path method tag
  = filter (passes path method tag) (all_endpoints entries).
Proof.
  intros Hn. unfold EndpointSearch.by_filters. rewrite (paths_exact entries Hn).
  unfold all_endpoints. rewrite filter_flat_map.
  set (G := fun (pathStr : string) (methods : JS.Map Operation.t) =>
              filter (passes path method tag)
                (map (fun m : string * Operation.t =>
                        SwaggerLoader.summary_of pathStr (fst m) (snd m)) methods)).
  transitivity
    (flat_map (fun entry : string * JS.Map Operation.t => G (fst entry) (snd entry))
              (indexed_paths entries)).
  2:{ etransitivity; [apply (flat_map_indexed_paths G entries)|].
      apply flat_map_ext. intros [p pathItem]. subst G. simpl.
      now destruct (methodMap_of pathItem). }
  apply flat_map_ext. subst G.
  - intros [pathStr methods]. cbn [fst snd].
    rewrite <- flat_map_singleton_filter.
    unfold EndpointSearch.path_rejects.
    destruct (JS.truthy path &&
              negb (JS.includes (JS.toLowerCase pathStr) (JS.toLowerCase (JS.value path))))
      eqn:Ep.
    + induction methods as [|[methodStr operation] methods IH]; [reflexivity|].
      simpl. rewrite <- IH. unfold passes at 1. simpl.
      destruct (JS.truthy path); [|discriminate]. simpl in Ep |- *.
      destruct (JS.includes _ _); [discriminate|reflexivity].
    + apply flat_map_ext. intros [methodStr operation]. cbn [fst snd].
      unfold passes, EndpointSearch.method_rejects, EndpointSearch.tag_rejects.
      cbn [SwaggerLoader.summary_of EndpointResult.path EndpointResult.method
           EndpointResult.tags].
      destruct (JS.truthy path); simpl in Ep |- *.
      * destruct (JS.includes _ _); [|discriminate]. simpl.
        destruct (JS.truthy method); simpl;
          [destruct (JS.toUpperCase methodStr =? _); simpl|];
          try reflexivity;
          destruct (JS.truthy tag); simpl; try reflexivity;
          destruct (Operation.tags operation) as [ts|]; simpl; try reflexivity;
          now destruct (existsb _ ts).
      * destruct (JS.truthy method); simpl;
          [destruct (JS.toUpperCase methodStr =? _); simpl|];
          try reflexivity;
          destruct (JS.truthy tag); simpl; try reflexivity;
          destruct (Operation.tags operation) as [ts|]; simpl; try reflexivity;
          now destruct (existsb _ ts).
Qed.

Lemma all_endpoints_In (entries : list (string * PathItem.t)) (r : EndpointResult.t) :
  In r (all_endpoints entries) <->
  exists path method operation,
    declares entries path method operation /\
    r = SwaggerLoader.summary_of path (JS.toUpperCase method) operation.
Proof.
  unfold all_endpoints. rewrite in_flat_map. split.
  - intros [[path pathItem] [He H]]. apply in_map_iff in H as [[M op] [<- H]].
    apply methodMap_of_In in H as [method [Hm [-> Hat]]].
    exists path, method, op. split; [now exists pathItem|reflexivity].
  - intros [path [method [operation [[pathItem [He [Hm Hat]]] ->]]]].
    exists (path, pathItem). split; [assumption|].
    apply in_map_iff. exists (JS.toUpperCase method, operation). split; [reflexivity|].
    apply methodMap_of_In. exists method. auto.
Qed.

(** X4.  On a loaded document, Endpoint Query without a (non-empty)
    [operationId] returns the endpoints of the document that pass every
    filter given, in document order, cut by [slice(0, limit)]; with no
    filter at all these are all the endpoints.  Every result is the summary
    of an operation of the document. *)
Theorem X4_endpoint_query_filters
    (loader : SwaggerLoader.t) (spec : SwaggerSpec.t)
    (entries : list (string * PathItem.t))
    (path method operationId tag : option string) (limit : option Z) :
  document_of loader spec entries ->
  JS.truthy operationId = false ->
  EndpointSearch.searchEndpoints loader
    (EndpointSearch.mkParams path method operationId tag limit)
  = JS.Ok (JS.slice (filter (passes path method tag) (all_endpoints entries)) 0
             match limit with Some l => l | None => 10%Z end) /\
  filter (passes None None None) (all_endpoints entries) = all_endpoints entries /\
  (forall r,
      In r (all_endpoints entries) <->
      exists path method operation,
        declares entries path method operation /\
        r = SwaggerLoader.summary_of path (JS.toUpperCase method) operation).
Proof.
  intros Hdoc Ho. pose proof Hdoc as [_ [_ Hn]].
  rewrite (document_of_loader _ _ _ Hdoc). split; [|split].
  - unfold EndpointSearch.searchEndpoints, SwaggerLoader.getEndpointIndex.
    cbn [SwaggerLoader.endpointIndex JS.bind EndpointSearch.operationId
         EndpointSearch.limit EndpointSearch.path EndpointSearch.method
         EndpointSearch.tag].
    rewrite Ho. now rewrite by_filters_exact.
  - induction (all_endpoints entries) as [|r l IH]; simpl; [reflexivity|].
    unfold passes in *. simpl in *. now rewrite IH.
  - apply all_endpoints_In.
Qed.

Lemma X4_endpoint_query_filters_witness :
  document_of files_and_nodes_loader files_and_nodes (entries_of files_and_nodes) /\
  JS.truthy None = false /\
  EndpointSearch.searchEndpoints files_and_nodes_loader
    (EndpointSearch.mkParams (Some "NODES") (Some "get") None None None)
  = JS.Ok [EndpointResult.mk "/nodes/" "GET" (Some "List all nodes") None
             (Some "nodes_list") (Some ["Nodes"]) None].
Proof.
  split; [apply files_and_nodes_document|]. split; [reflexivity|].
  exact (proj1 (X4_endpoint_query_filters files_and_nodes_loader files_and_nodes
                  (entries_of files_and_nodes) (Some "NODES") (Some "get") None None
                  None files_and_nodes_document eq_refl)).
Defined.

(** ** Tag Query *)

Lemma push_at_keys_NoDup {V} (m : JS.Map (list V)) (k : string) (x : V) :
  NoDup (JS.map_keys m) -> NoDup (JS.map_keys (SwaggerLoader.push_at m k x)).
Proof. intros H. rewrite push_at_spec. now apply map_keys_set_NoDup. Qed.

Lemma endpointIndex_of_keys (entries : list (string * PathItem.t)) :
  NoDup (JS.map_keys (EndpointIndex.tags (endpointIndex_of entries))) /\
  NoDup (JS.map_keys (EndpointIndex.operationIds (endpointIndex_of entries))).
Proof.
  unfold endpointIndex_of.
  set (Q := fun st : JS.Map (JS.Map Operation.t) * JS.Map (list EndpointResult.t)
                     * JS.Map Location.t =>
              NoDup (JS.map_keys (snd (fst st))) /\ NoDup (JS.map_keys (snd st))).
  set (Q' := fun st : JS.Map Operation.t * JS.Map (list EndpointResult.t)
                      * JS.Map Location.t =>
               NoDup (JS.map_keys (snd (fst st))) /\ NoDup (JS.map_keys (snd st))).
  assert (H : Q (fold_left SwaggerLoader.endpoint_path_step entries ([], [], []))).
  { apply (fold_left_invariant Q).
    - intros [[paths tags] operationIds] [p pi] _ HQ.
      destruct (path_step_rest paths tags operationIds p pi) as [paths' E].
      rewrite E. apply (fold_left_invariant Q'); [|exact HQ].
      intros [[methodMap tags0] ids0] m _ [H1 H2].
      unfold SwaggerLoader.endpoint_method_step.
      destruct (PathItem.at_ pi m) as [operation|]; [|now split].
      split; cbn [fst snd] in *.
      + destruct (Operation.tags operation) as [ts|]; [|assumption].
        apply fold_left_invariant; [|assumption].
        intros s t _ Hs. now apply push_at_keys_NoDup.
      + destruct (JS.truthy (Operation.operationId operation)); [|assumption].
        now apply map_keys_set_NoDup.
    - split; constructor. }
  now destruct (fold_left SwaggerLoader.endpoint_path_step entries ([], [], []))
    as [[paths tags] operationIds].
Qed.

Lemma NoDup_map_fst_get {V} (m : JS.Map V) (k : string) (v : V) :
  NoDup (JS.map_keys m) -> In (k, v) m -> JS.map_get m k = Some v.
Proof.
  induction m as [|[k0 v0] m IH]; simpl; [tauto|].
  intros Hn Hin. inversion Hn as [|? ? Hk Hn']; subst.
  destruct Hin as [[= -> ->]|Hin].
  - now rewrite String.eqb_refl.
  - destruct (k0 =? k) eqn:E; [|now apply IH].
    apply String.eqb_eq in E. subst k0. exfalso. apply Hk.
    now apply (in_map fst) in Hin.
Qed.

Lemma bundles_of_names (describe : string -> option string) (tag : string)
    (tags : JS.Map (list EndpointResult.t)) :
  map TagSearchResult.tagName (bundles_of describe (JS.toLowerCase tag) tags)
  = filter (fun name => JS.includes (JS.toLowerCase name) (JS.toLowerCase tag))
           (JS.map_keys tags).
Proof.
  unfold bundles_of.
  induction tags as [|[name endpoints] tags IH]; simpl; [reflexivity|].
  rewrite map_app, IH.
  now destruct (JS.includes (JS.toLowerCase name) (JS.toLowerCase tag)).
Qed.

Lemma tag_fold_Throw (spec : SwaggerSpec.t) (flag : bool) (normalizedTag : string)
    (tags : JS.Map (list EndpointResult.t)) (message : string) :
  fold_left (TagSearch.tag_step spec flag normalizedTag) tags (JS.Throw message)
  = JS.Throw message.
Proof. induction tags as [|entry tags IH]; [reflexivity|exact IH]. Qed.

(** The loop of Tag Query when every description it asks for is there. *)
Lemma tag_fold_Ok (spec : SwaggerSpec.t) (flag : bool) (normalizedTag : string)
    (describe : string -> option string) (tags : JS.Map (list EndpointResult.t)) :
  (forall name endpoints,
      In (name, endpoints) tags ->
      JS.includes (JS.toLowerCase name) normalizedTag = true ->
      (if flag then TagSearch.tag_description spec name else JS.Ok None)
      = JS.Ok (describe name)) ->
  forall acc,
    fold_left (TagSearch.tag_step spec flag normalizedTag) tags (JS.Ok acc)
    = JS.Ok (acc ++ bundles_of describe normalizedTag tags).
Proof.
  induction tags as [|[name endpoints] tags IH]; intros H acc.
  - cbn. now rewrite app_nil_r.
  - cbn [fold_left]. unfold TagSearch.tag_step at 2. cbn [JS.bind].
    unfold bundles_of. cbn [flat_map fst snd]. fold (bundles_of describe normalizedTag tags).
    destruct (JS.includes (JS.toLowerCase name) normalizedTag) eqn:E.
    + rewrite (H name endpoints (or_introl eq_refl) E). cbn [JS.bind].
      rewrite IH by (intros n e Hin Hinc; apply (H n e); [now right|assumption]).
      now rewrite <- app_assoc.
    + rewrite IH by (intros n e Hin Hinc; apply (H n e); [now right|assumption]). reflexivity.
Qed.

(** The loop when descriptions are asked of a document without [tags]:
    the first matching tag throws. *)
Lemma tag_fold_undefined (spec : SwaggerSpec.t) (normalizedTag : string)
    (tags : JS.Map (list EndpointResult.t)) :
  SwaggerSpec.tags spec = None ->
  filter (fun name => JS.includes (JS.toLowerCase name) normalizedTag)
         (JS.map_keys tags) <> [] ->
  forall acc,
    fold_left (TagSearch.tag_step spec true normalizedTag) tags (JS.Ok acc)
    = JS.Throw "Cannot read properties of undefined (reading 'find')".
Proof.
  intros Hspec. induction tags as [|[name endpoints] tags IH]; intros Hne acc.
  - now destruct Hne.
  - cbn [fold_left]. unfold TagSearch.tag_step at 2. cbn [JS.bind].
    cbn [JS.map_keys map fst filter] in Hne.
    destruct (JS.includes (JS.toLowerCase name) normalizedTag).
    + unfold TagSearch.tag_description. rewrite Hspec. cbn [JS.bind].
      apply tag_fold_Throw.
    + now apply IH.
Qed.

(** X5.  On a loaded document, Tag Query returns one bundle for each tag
    name of the index that contains the query text (letter case apart), in
    index order and without a repeated name.  Every endpoint of a bundle
    lists the bundle's tag and is an operation of the [paths] index; every
    operation of the document that lists a matching tag is in the bundle of
    that tag.  The description is the one of the document's tag definition
    when [includeDescription] is set, and absent otherwise.  One case is
    an exception: when descriptions are asked for, the document has no
    [tags] member and some tag matches, the query throws "Cannot read
    properties of undefined (reading 'find')". *)
Theorem X5_tag_query_bundles
    (loader : SwaggerLoader.t) (spec : SwaggerSpec.t)
    (entries : list (string * PathItem.t))
    (tag : string) (includeDescription : option bool) :
  document_of loader spec entries ->
  exists index,
    SwaggerLoader.getEndpointIndex loader = JS.Ok index /\
    (includeDescription = Some true -> SwaggerSpec.tags spec = None ->
     matching_tags index tag <> [] ->
     TagSearch.searchByTag loader (TagSearch.mkParams tag includeDescription)
     = JS.Throw "Cannot read properties of undefined (reading 'find')") /\
    (includeDescription <> Some true \/ SwaggerSpec.tags spec <> None \/
     matching_tags index tag = [] ->
     exists bundles,
       TagSearch.searchByTag loader (TagSearch.mkParams tag includeDescription)
       = JS.Ok bundles /\
       map TagSearchResult.tagName bundles = matching_tags index tag /\
       NoDup (map TagSearchResult.tagName bundles) /\
       (forall bundle,
           In bundle bundles ->
           TagSearchResult.description bundle
           = (if match includeDescription with Some b => b | None => false end
              then defined_description spec (TagSearchResult.tagName bundle)
              else None) /\
           forall endpoint,
             In endpoint (TagSearchResult.endpoints bundle) ->
             exists operation tags,
               EndpointSearch.operation_at index (EndpointResult.path endpoint)
                 (EndpointResult.method endpoint) = Some operation /\
               endpoint = SwaggerLoader.summary_of (EndpointResult.path endpoint)
                            (EndpointResult.method endpoint) operation /\
               EndpointResult.tags endpoint = Some tags /\
               In (TagSearchResult.tagName bundle) tags) /\
       (forall path method operation tags name,
           declares entries path method operation ->
           Operation.tags operation = Some tags -> In name tags ->
           JS.includes (JS.toLowerCase name) (JS.toLowerCase tag) = true ->
           exists bundle,
             In bundle bundles /\ TagSearchResult.tagName bundle = name /\
             In (SwaggerLoader.summary_of path (JS.toUpperCase method) operation)
                (TagSearchResult.endpoints bundle))).
Proof.
  intros Hdoc. pose proof Hdoc as [_ [_ Hn]].
  rewrite (document_of_loader _ _ _ Hdoc).
  exists (endpointIndex_of entries).
  split; [reflexivity|].
  unfold TagSearch.searchByTag, SwaggerLoader.getSpec, SwaggerLoader.getEndpointIndex.
  cbn [SwaggerLoader.spec SwaggerLoader.endpointIndex JS.bind TagSearch.tag
       TagSearch.includeDescription].
  split.
  { intros -> Hspec Hne. now apply tag_fold_undefined. }
  intros Hcase.
  set (flag := match includeDescription with Some b => b | None => false end).
  set (describe := fun name => if flag then defined_description spec name else None).
  exists (bundles_of describe (JS.toLowerCase tag)
            (EndpointIndex.tags (endpointIndex_of entries))).
  split.
  { rewrite (tag_fold_Ok spec flag (JS.toLowerCase tag) describe); [reflexivity|].
    intros name endpoints Hin Hinc. subst describe. cbv beta.
    destruct flag eqn:Hflag; [|reflexivity].
    unfold TagSearch.tag_description, defined_description.
    destruct (SwaggerSpec.tags spec) as [tags|] eqn:Hspec; [reflexivity|].
    exfalso. destruct Hcase as [Hc|[Hc|Hc]].
    - apply Hc. subst flag. destruct includeDescription as [[|]|]; congruence.
    - now apply Hc.
    - unfold matching_tags in Hc.
      assert (Hm : In name
                (filter (fun name => JS.includes (JS.toLowerCase name) (JS.toLowerCase tag))
                        (JS.map_keys (EndpointIndex.tags (endpointIndex_of entries))))).
      { apply filter_In. split; [|assumption]. now apply (in_map fst) in Hin. }
      rewrite Hc in Hm. destruct Hm. }
  split; [apply bundles_of_names|].
  split.
  { rewrite bundles_of_names. apply NoDup_filter. apply endpointIndex_of_keys. }
  split.
  - intros bundle Hin. apply in_flat_map in Hin as [[name endpoints] [He Hb]].
    cbn [fst snd] in Hb.
    destruct (JS.includes (JS.toLowerCase name) (JS.toLowerCase tag)); [|destruct Hb].
    destruct Hb as [<-|[]]. cbn [TagSearchResult.description TagSearchResult.tagName
                                   TagSearchResult.endpoints].
    split; [reflexivity|]. intros endpoint Hend.
    apply tagged_resolves; [assumption|].
    exact (proj1 (endpointIndex_of_sound entries) name endpoints endpoint He Hend).
  - intros path method operation tags name Hdecl Ht Hin Hinc.
    destruct (proj1 (endpointIndex_of_complete entries path method operation Hdecl)
                tags name Ht Hin) as [summaries [Hget Hs]].
    apply map_get_In in Hget.
    exists (TagSearchResult.mk name (describe name) summaries).
    split; [|split; [reflexivity|exact Hs]].
    apply in_flat_map. exists (name, summaries). split; [assumption|].
    cbn [fst snd]. rewrite Hinc. now left.
Qed.

Lemma without_tags_document :
  document_of without_tags_loader without_tags (entries_of without_tags).
Proof.
  split; [exists stack_room, SwaggerLoader.new; reflexivity|].
  split; [reflexivity|]. repeat constructor; simpl; tauto.
Qed.

(** The theorem at a document without [tags]: asked for descriptions, the
    query for "FILE" throws; not asked, it answers with the tag "Files". *)
Lemma X5_tag_query_bundles_witness :
  document_of without_tags_loader without_tags (entries_of without_tags) /\
  TagSearch.searchByTag without_tags_loader (TagSearch.mkParams "FILE" (Some true))
  = JS.Throw "Cannot read properties of undefined (reading 'find')" /\
  exists bundles,
    TagSearch.searchByTag without_tags_loader (TagSearch.mkParams "FILE" None)
    = JS.Ok bundles /\
    map TagSearchResult.tagName bundles = ["Files"].
Proof.
  split; [apply without_tags_document|]. split.
  - destruct (X5_tag_query_bundles _ _ _ "FILE" (Some true) without_tags_document)
      as [index [H1 [H2 _]]].
    apply H2; [reflexivity|reflexivity|].
    injection H1 as <-. discriminate.
  - destruct (X5_tag_query_bundles _ _ _ "FILE" None without_tags_document)
      as [index [H1 [_ H3]]].
    destruct H3 as [bundles [Hq [Hnames _]]]; [left; discriminate|].
    exists bundles. split; [assumption|].
    rewrite Hnames. injection H1 as <-. reflexivity.
Defined.

(** ** Endpoint Query by operationId on a loaded document *)

Lemma by_operationId_ids (entries : list (string * PathItem.t)) (needle : string) :
  NoDup (map fst entries) ->
  map EndpointResult.operationId
      (EndpointSearch.by_operationId (endpointIndex_of entries) needle)
  = map Some
      (filter (fun opId => JS.includes (JS.toLowerCase opId) (JS.toLowerCase needle))
              (JS.map_keys (EndpointIndex.operationIds (endpointIndex_of entries)))).
Proof.
  intros Hn. unfold EndpointSearch.by_operationId.
  pose proof (proj2 (endpointIndex_of_sound entries)) as Hsound.
  induction (EndpointIndex.operationIds (endpointIndex_of entries))
    as [|[opId location] l IH]; [reflexivity|].
  simpl. rewrite map_app, IH by (intros; apply Hsound; now right).
  destruct (JS.includes (JS.toLowerCase opId) (JS.toLowerCase needle)); [|reflexivity].
  destruct (located_resolves entries opId location Hn
              (Hsound opId location (or_introl eq_refl))) as [operation [-> Hid]].
  simpl. now rewrite Hid.
Qed.

(** X6.  On a loaded document, Endpoint Query by a non-empty [operationId]
    drops no match: before the cut by [slice(0, limit)] the identifiers of
    its results are exactly the keys of the [operationIds] index that
    contain the query text (letter case apart), in index order, each once.
    Every result is the summary of an operation of the document. *)
Theorem X6_operationId_query_results
    (loader : SwaggerLoader.t) (spec : SwaggerSpec.t)
    (entries : list (string * PathItem.t)) (needle : string)
    (path method tag : option string) (limit : option Z) :
  document_of loader spec entries -> needle <> "" ->
  exists index unlimited,
    SwaggerLoader.getEndpointIndex loader = JS.Ok index /\
    EndpointSearch.searchEndpoints loader
      (EndpointSearch.mkParams path method (Some needle) tag limit)
    = JS.Ok (JS.slice unlimited 0 match limit with Some l => l | None => 10%Z end) /\
    map EndpointResult.operationId unlimited
    = map Some
        (filter (fun opId => JS.includes (JS.toLowerCase opId) (JS.toLowerCase needle))
                (JS.map_keys (EndpointIndex.operationIds index))) /\
    NoDup (map EndpointResult.operationId unlimited) /\
    (forall r, In r unlimited ->
       exists method operation,
         declares entries (EndpointResult.path r) method operation /\
         r = SwaggerLoader.summary_of (EndpointResult.path r)
               (JS.toUpperCase method) operation).
Proof.
  intros Hdoc Hne. pose proof Hdoc as [_ [_ Hn]].
  rewrite (document_of_loader _ _ _ Hdoc).
  exists (endpointIndex_of entries),
         (EndpointSearch.by_operationId (endpointIndex_of entries) needle).
  split; [reflexivity|]. split.
  { unfold EndpointSearch.searchEndpoints, SwaggerLoader.getEndpointIndex.
    cbn [SwaggerLoader.endpointIndex JS.bind EndpointSearch.operationId
         EndpointSearch.limit]. now rewrite (truthy_Some needle Hne). }
  split; [now apply by_operationId_ids|]. split.
  { rewrite by_operationId_ids by assumption.
    apply Finite.Injective_map_NoDup; [intros a b [=]; assumption|].
    apply NoDup_filter. apply endpointIndex_of_keys. }
  intros r Hr. apply by_operationId_In in Hr
    as [opId [location [operation [Hin [_ [Hat ->]]]]]].
  destruct (proj2 (endpointIndex_of_sound entries) opId location Hin)
    as [m [op [Hdecl [Hm Hid]]]].
  exists m, op. cbn [SwaggerLoader.summary_of EndpointResult.path].
  split; [assumption|].
  rewrite Hm in Hat |- *.
  rewrite (operation_at_declared entries _ m op Hn Hdecl) in Hat.
  now inversion Hat.
Qed.

Lemma X6_operationId_query_results_witness :
  document_of files_and_nodes_loader files_and_nodes (entries_of files_and_nodes) /\
  "LIST" <> "" /\
  exists unlimited,
    EndpointSearch.searchEndpoints files_and_nodes_loader
      (EndpointSearch.mkParams None None (Some "LIST") None (Some 1%Z))
    = JS.Ok (JS.slice unlimited 0 1) /\
    map EndpointResult.operationId unlimited = [Some "files_list"; Some "nodes_list"].
Proof.
  assert (Hne : "LIST" <> "") by discriminate.
  split; [apply files_and_nodes_document|]. split; [exact Hne|].
  destruct (X6_operationId_query_results _ _ _ "LIST" None None None (Some 1%Z)
              files_and_nodes_document Hne)
    as [index [unlimited [H1 [H2 [H3 _]]]]].
  exists unlimited. split; [assumption|].
  rewrite H3. injection H1 as <-. reflexivity.
Defined.

(** ** The limit of Endpoint Query and of Fulltext Query *)

Lemma slice_nil {A} (start stop : Z) : JS.slice (@nil A) start stop = [].
Proof. unfold JS.slice. now rewrite skipn_nil, firstn_nil. Qed.

Lemma slice_prefix {A} (l : list A) (a b : Z) :
  (0 <= a <= b)%Z ->
  JS.slice l 0 a = firstn (Z.to_nat a) (JS.slice l 0 b).
Proof.
  intros H. rewrite !slice_from_0 by lia. rewrite firstn_firstn.
  f_equal. lia.
Qed.

Lemma slice_length {A} (l : list A) (n : Z) :
  (0 <= n)%Z -> (length (JS.slice l 0 n) <= Z.to_nat n)%nat.
Proof. intros H. rewrite slice_from_0 by lia. apply firstn_le_length. Qed.

Lemma searchEndpoints_shape (loader : SwaggerLoader.t)
    (path method operationId tag : option string) :
  exists unlimited : JS.Result (list EndpointResult.t),
    forall limit,
      EndpointSearch.searchEndpoints loader
        (EndpointSearch.mkParams path method operationId tag limit)
      = do l <- unlimited;
        JS.Ok (JS.slice l 0 match limit with Some n => n | None => 10%Z end).
Proof.
  unfold EndpointSearch.searchEndpoints.
  cbn [EndpointSearch.operationId EndpointSearch.limit EndpointSearch.path
       EndpointSearch.method EndpointSearch.tag].
  destruct (SwaggerLoader.getEndpointIndex loader) as [index|m].
  - eexists (JS.Ok _). intros limit. reflexivity.
  - exists (JS.Throw m). reflexivity.
Qed.

Lemma fulltextSearch_shape (loader : SwaggerLoader.t) (query : string) :
  exists unlimited : JS.Result (list FulltextSearchResult.t),
    forall limit,
      FulltextSearch.fulltextSearch loader (FulltextSearch.mkParams query limit)
      = do l <- unlimited;
        JS.Ok (JS.slice l 0 match limit with Some n => n | None => 10%Z end).
Proof.
  unfold FulltextSearch.fulltextSearch.
  cbn [FulltextSearch.query FulltextSearch.limit].
  destruct (SwaggerLoader.getFulltextIndex loader) as [index|m];
    [|exists (JS.Throw m); reflexivity].
  cbn [JS.bind].
  destruct (length (FulltextSearch.tokenize query) =? 0)%nat.
  - exists (JS.Ok []). intros limit. cbn [JS.bind]. now rewrite slice_nil.
  - destruct (fold_left (FulltextSearch.token_step index (FulltextSearch.tokenize query))
                (FulltextSearch.tokenize query) (JS.Ok [])) as [scores|m];
      [|exists (JS.Throw m); reflexivity].
    cbn [JS.bind].
    destruct (fold_left (FulltextSearch.result_step index) scores (JS.Ok []))
      as [results|m]; [|exists (JS.Throw m); reflexivity].
    eexists (JS.Ok _). intros limit. reflexivity.
Qed.

(** X7.  For Endpoint Query and for Fulltext Query alike, a non-negative
    limit bounds the number of results, and the answer under a limit is a
    prefix of the answer under any larger limit, all other parameters being
    equal: raising the limit only appends results. *)
Theorem X7_limit_is_a_prefix
    (loader : SwaggerLoader.t) (small large : Z) :
  (0 <= small <= large)%Z ->
  (forall path method operationId tag results,
      EndpointSearch.searchEndpoints loader
        (EndpointSearch.mkParams path method operationId tag (Some large))
      = JS.Ok results ->
      EndpointSearch.searchEndpoints loader
        (EndpointSearch.mkParams path method operationId tag (Some small))
      = JS.Ok (firstn (Z.to_nat small) results) /\
      (length results <= Z.to_nat large)%nat) /\
  (forall query results,
      FulltextSearch.fulltextSearch loader (FulltextSearch.mkParams query (Some large))
      = JS.Ok results ->
      FulltextSearch.fulltextSearch loader (FulltextSearch.mkParams query (Some small))
      = JS.Ok (firstn (Z.to_nat small) results) /\
      (length results <= Z.to_nat large)%nat).
Proof.
  intros H. split.
  - intros path method operationId tag results Hlarge.
    destruct (searchEndpoints_shape loader path method operationId tag)
      as [[l|m] Hshape]; rewrite Hshape in Hlarge |- *; cbn [JS.bind] in *;
      [|discriminate].
    injection Hlarge as <-. split; [|apply slice_length; lia].
    now rewrite (slice_prefix l small large).
  - intros query results Hlarge.
    destruct (fulltextSearch_shape loader query)
      as [[l|m] Hshape]; rewrite Hshape in Hlarge |- *; cbn [JS.bind] in *;
      [|discriminate].
    injection Hlarge as <-. split; [|apply slice_length; lia].
    now rewrite (slice_prefix l small large).
Qed.

Lemma X7_limit_is_a_prefix_witness :
  (0 <= 1 <= 5)%Z /\
  EndpointSearch.searchEndpoints files_and_nodes_loader
    (EndpointSearch.mkParams None None None None (Some 1%Z))
  = JS.Ok [EndpointResult.mk "/files/" "GET" (Some "List all files")
             (Some "Returns a list of all files in the system")
             (Some "files_list") (Some ["Files"])
             (Some [Param.mk "page" "query" (Some "Page number for pagination") None])].
Proof.
  assert (H : (0 <= 1 <= 5)%Z) by lia.
  split; [exact H|].
  exact (proj1 (proj1 (X7_limit_is_a_prefix files_and_nodes_loader 1 5 H)
                  None None None None _ eq_refl)).
Defined.

(** ** The tokenizer on its own output and on joined texts *)

Lemma lower_char_alnum (c : ascii) : JS.is_alnum c = true -> JS.lower_char c = c.
Proof. each_code_unit c. Qed.

Lemma alnum_not_space (c : ascii) : JS.is_alnum c = true -> JS.is_space c = false.
Proof. each_code_unit c. Qed.

Lemma toLowerCase_alnum (s : string) :
  all_chars JS.is_alnum s = true -> JS.toLowerCase s = s.
Proof.
  induction s as [|c s IH]; simpl; [reflexivity|].
  intros H. apply andb_prop in H as [Hc Hs].
  now rewrite lower_char_alnum, IH.
Qed.

Lemma replace_non_alnum_alnum (s : string) :
  all_chars JS.is_alnum s = true -> JS.replace_non_alnum s = s.
Proof.
  induction s as [|c s IH]; simpl; [reflexivity|].
  intros H. apply andb_prop in H as [Hc Hs].
  now rewrite Hc, IH.
Qed.

Lemma split_ws_from_word (s : string) (prev : bool) :
  all_chars JS.is_alnum s = true -> s <> "" -> JS.split_ws_from prev s = [s].
Proof.
  revert prev. induction s as [|c s IH]; intros prev H Hne; [congruence|].
  simpl in H. apply andb_prop in H as [Hc Hs].
  cbn [JS.split_ws_from]. rewrite (alnum_not_space c Hc).
  destruct s as [|d s]; [reflexivity|].
  now rewrite (IH false Hs).
Qed.

Lemma tokenize_word (word : string) :
  all_chars JS.is_alnum word = true -> (2 < String.length word)%nat ->
  FulltextSearch.tokenize word = [word].
Proof.
  intros Ha Hl. unfold FulltextSearch.tokenize, JS.split_ws.
  rewrite toLowerCase_alnum, replace_non_alnum_alnum by assumption.
  rewrite split_ws_from_word; [|assumption|].
  - simpl. apply Nat.ltb_lt in Hl. now rewrite Hl.
  - intros ->. simpl in Hl. lia.
Qed.

Lemma toLowerCase_app (a b : string) :
  JS.toLowerCase (a ++ b) = (JS.toLowerCase a ++ JS.toLowerCase b)%string.
Proof. induction a as [|c a IH]; simpl; [reflexivity|now rewrite IH]. Qed.

Lemma replace_non_alnum_app (a b : string) :
  JS.replace_non_alnum (a ++ b)
  = (JS.replace_non_alnum a ++ JS.replace_non_alnum b)%string.
Proof. induction a as [|c a IH]; simpl; [reflexivity|now rewrite IH]. Qed.

Lemma split_ws_from_not_nil (s : string) (prev : bool) : JS.split_ws_from prev s <> [].
Proof.
  revert prev. induction s as [|c s IH]; intros prev; simpl; [discriminate|].
  destruct (JS.is_space c).
  - destruct prev; [apply IH|discriminate].
  - destruct (JS.split_ws_from false s); discriminate.
Qed.

(** After a separator, the pieces that a filter keeps do not depend on the
    flag, provided the filter drops the empty piece. *)
Lemma split_ws_from_flag (f : string -> bool) (s : string) :
  f "" = false ->
  filter f (JS.split_ws_from true s) = filter f (JS.split_ws_from false s).
Proof.
  intros Hf. destruct s as [|c s]; [reflexivity|].
  cbn [JS.split_ws_from]. destruct (JS.is_space c); [|reflexivity].
  simpl. now rewrite Hf.
Qed.

(** The split of two texts joined by a space: the first piece is that of
    the left text, and nothing but empty pieces is gained or lost. *)
Lemma split_ws_from_joined (f : string -> bool) (a b : string) :
  f "" = false ->
  (exists h t t2,
      JS.split_ws_from false a = h :: t /\
      JS.split_ws_from false (a ++ String " " b) = h :: t2 /\
      filter f t2 = filter f t ++ filter f (JS.split_ws_from true b)) /\
  filter f (JS.split_ws_from true (a ++ String " " b))
  = filter f (JS.split_ws_from true a) ++ filter f (JS.split_ws_from true b).
Proof.
  intros Hf. induction a as [|c a [[h [t [t2 [E1 [E2 E3]]]]] IHtrue]].
  - split.
    + exists "", [], (JS.split_ws_from true b). repeat split.
    + simpl. now rewrite Hf.
  - cbn [append JS.split_ws_from]. destruct (JS.is_space c).
    + split; [|exact IHtrue].
      exists "", (JS.split_ws_from true a),
             (JS.split_ws_from true (a ++ String " " b)).
      repeat split. exact IHtrue.
    + rewrite E1, E2. split.
      * exists (String c h), t, t2. repeat split. exact E3.
      * simpl. rewrite E3. now destruct (f (String c h)).
Qed.

Lemma tokenize_joined (a b : string) :
  FulltextSearch.tokenize (a ++ " " ++ b)
  = FulltextSearch.tokenize a ++ FulltextSearch.tokenize b.
Proof.
  unfold FulltextSearch.tokenize, JS.split_ws.
  rewrite toLowerCase_app, replace_non_alnum_app.
  change (JS.replace_non_alnum (JS.toLowerCase (" " ++ b)))
    with (String " " (JS.replace_non_alnum (JS.toLowerCase b))).
  set (f := fun word => (2 <? String.length word)%nat).
  assert (Hf : f "" = false) by reflexivity.
  destruct (proj1 (split_ws_from_joined f
                     (JS.replace_non_alnum (JS.toLowerCase a))
                     (JS.replace_non_alnum (JS.toLowerCase b)) Hf))
    as [h [t [t2 [E1 [E2 E3]]]]].
  rewrite E1, E2. simpl. rewrite E3, (split_ws_from_flag f _ Hf).
  now destruct (f h).
Qed.

Lemma tokenize_join (parts : list string) :
  FulltextSearch.tokenize (JS.join " " parts)
  = flat_map FulltextSearch.tokenize parts.
Proof.
  induction parts as [|p parts IH]; [reflexivity|].
  destruct parts as [|q parts].
  - simpl. now rewrite app_nil_r.
  - change (JS.join " " (p :: q :: parts))
      with (p ++ " " ++ JS.join " " (q :: parts))%string.
    rewrite tokenize_joined, IH. reflexivity.
Qed.

(** X8.  A token that the tokenizer produces is left as it is when it is
    tokenized again, so a query made of an indexed token looks that very
    key up; more generally every word over [a-z0-9] of 3 code units or more
    is its own single token. *)
Theorem X8_tokens_are_fixed_points (text token : string) :
  In token (FulltextSearch.tokenize text) ->
  FulltextSearch.tokenize token = [token] /\
  SwaggerLoader.tokenize token = [token] /\
  flat_map FulltextSearch.tokenize (FulltextSearch.tokenize text)
  = FulltextSearch.tokenize text.
Proof.
  intros H.
  assert (Hfix : forall t, In t (FulltextSearch.tokenize text) ->
                           FulltextSearch.tokenize t = [t]).
  { intros t Ht. apply tokenize_token in Ht as [Hl Ha]. now apply tokenize_word. }
  split; [now apply Hfix|]. split; [now apply Hfix|].
  clear H. induction (FulltextSearch.tokenize text) as [|t l IH]; [reflexivity|].
  simpl. rewrite (Hfix t) by now left.
  simpl. f_equal. apply IH. intros t' Ht'. apply Hfix. now right.
Qed.

Lemma X8_tokens_are_fixed_points_witness :
  In "upload" (FulltextSearch.tokenize "File-Upload (v2)") /\
  FulltextSearch.tokenize "upload" = ["upload"].
Proof.
  assert (H : In "upload" (FulltextSearch.tokenize "File-Upload (v2)"))
    by (vm_compute; tauto).
  split; [exact H|].
  exact (proj1 (X8_tokens_are_fixed_points "File-Upload (v2)" "upload" H)).
Defined.

(** X9.  The tokens of texts joined by single spaces are the tokens of the
    texts, one after the other: no token is formed across a joint and none
    is lost.  The tokens of a document's content are thus those of its
    summary, its description and, for each parameter, its description and
    its name, in this order. *)
Theorem X9_tokens_of_joined_texts :
  (forall a b,
      FulltextSearch.tokenize (a ++ " " ++ b)
      = FulltextSearch.tokenize a ++ FulltextSearch.tokenize b) /\
  (forall parts,
      FulltextSearch.tokenize (JS.join " " parts)
      = flat_map FulltextSearch.tokenize parts) /\
  (forall operation,
      SwaggerLoader.tokenize (JS.join " " (SwaggerLoader.contentParts operation))
      = flat_map SwaggerLoader.tokenize (SwaggerLoader.contentParts operation)).
Proof.
  split; [exact tokenize_joined|]. split; [exact tokenize_join|].
  intros operation. apply tokenize_join.
Qed.

(** ** Fulltext Query: the sign and the order of the scores *)

Lemma ln_nonneg (x : R) : (1 <= x)%R -> (0 <= ln x)%R.
Proof.
  intros [H|<-].
  - left. now apply ln_pos.
  - rewrite ln_1. lra.
Qed.

Lemma term_nonnegative (x : R) (tokens total df : nat) :
  (0 <= x)%R -> (1 <= tokens)%nat -> (1 <= df <= total)%nat ->
  nonnegative
    (JS.add (JS.Finite x)
       (JS.mul (JS.div (JS.Finite 1) (JS.of_nat tokens))
          (JS.Math_log (JS.div (JS.of_nat total) (JS.of_nat df))))).
Proof.
  intros Hx Ht Hdf. rewrite div_sizes by assumption. rewrite idf_finite by assumption.
  cbn [JS.mul JS.add]. eexists. split; [reflexivity|].
  assert (H1 : (0 < INR tokens)%R) by (apply lt_0_INR; lia).
  assert (H2 : (0 < INR df)%R) by (apply lt_0_INR; lia).
  assert (H3 : (INR df <= INR total)%R) by (apply le_INR; lia).
  assert (H4 : (0 <= ln (INR total / INR df))%R).
  { apply ln_nonneg. apply (Rmult_le_reg_r (INR df)); [assumption|].
    unfold Rdiv. rewrite Rmult_assoc, Rinv_l by lra. lra. }
  assert (H5 : (0 <= 1 / INR tokens)%R).
  { unfold Rdiv. rewrite Rmult_1_l. left. now apply Rinv_0_lt_compat. }
  pose proof (Rmult_le_pos _ _ H5 H4). lra.
Qed.

Lemma score_step_nonnegative (index : FulltextIndex.t) (queryTokens : list string)
    (token : string) (docIds : JS.StrSet)
    (acc : JS.Result (JS.Map FulltextSearch.ScoreData)) (docId : string) :
  (1 <= length queryTokens)%nat ->
  (1 <= length docIds <= JS.map_size (FulltextIndex.documents index))%nat ->
  In docId (JS.map_keys (FulltextIndex.documents index)) ->
  scores_nonnegative index acc ->
  scores_nonnegative index
    (FulltextSearch.score_step index queryTokens token docIds acc docId).
Proof.
  intros Hq Hdf Hdoc [scores [-> Hs]].
  unfold FulltextSearch.score_step. cbn [JS.bind].
  set (scores1 := if JS.map_has scores docId then scores
                  else JS.map_set scores docId (FulltextSearch.mkScore (JS.Finite 0) [])).
  assert (Hs1 : forall d data, In (d, data) scores1 ->
            nonnegative (FulltextSearch.score data) /\
            In d (JS.map_keys (FulltextIndex.documents index))).
  { subst scores1. destruct (JS.map_has scores docId); [assumption|].
    intros d data Hin. apply map_set_In in Hin as [[-> ->]|Hin]; auto.
    split; [|assumption]. exists 0%R. split; [reflexivity|lra]. }
  assert (Hget : exists data, JS.map_get scores1 docId = Some data).
  { subst scores1. destruct (JS.map_has scores docId) eqn:E.
    - apply map_get_keys. now apply map_has_true.
    - rewrite map_get_set_same. eauto. }
  destruct Hget as [data Hget]. rewrite Hget.
  destruct (map_get_keys _ _ Hdoc) as [doc ->].
  eexists. split; [reflexivity|].
  intros d data' Hin. apply map_set_In in Hin as [[-> ->]|Hin]; [|now apply Hs1].
  split; [|assumption]. cbn [FulltextSearch.score].
  apply map_get_In in Hget. apply Hs1 in Hget as [[x [-> Hx]] _].
  now apply term_nonnegative.
Qed.

Lemma scores_loop_nonnegative (index : FulltextIndex.t) (queryTokens : list string) :
  fulltext_wf (FulltextIndex.words index, FulltextIndex.documents index) ->
  (1 <= length queryTokens)%nat ->
  scores_nonnegative index
    (fold_left (FulltextSearch.token_step index queryTokens) queryTokens (JS.Ok [])).
Proof.
  intros Hwf Hq. apply fold_left_invariant.
  - intros acc token _ Hacc. unfold FulltextSearch.token_step.
    destruct (JS.map_get (FulltextIndex.words index) token) as [docIds|] eqn:E;
      [|assumption].
    apply map_get_In in E.
    pose proof (fulltext_wf_sizes _ _ _ _ Hwf E) as Hsz.
    destruct Hwf as [_ Hw]. destruct (Hw _ _ E) as [_ [_ Hincl]].
    apply fold_left_invariant; [|assumption].
    intros s docId Hin Hs. apply score_step_nonnegative; auto.
  - exists []. split; [reflexivity|]. intros d data [].
Qed.

Lemma results_nonnegative (index : FulltextIndex.t)
    (scores : JS.Map FulltextSearch.ScoreData) :
  (forall docId data, In (docId, data) scores ->
      nonnegative (FulltextSearch.score data) /\
      In docId (JS.map_keys (FulltextIndex.documents index))) ->
  exists results,
    fold_left (FulltextSearch.result_step index) scores (JS.Ok []) = JS.Ok results /\
    forall r, In r results -> nonnegative (FulltextSearchResult.score r).
Proof.
  intros Hs.
  apply (fold_left_invariant
           (fun acc => exists results, acc = JS.Ok results /\
              forall r, In r results -> nonnegative (FulltextSearchResult.score r))).
  - intros acc [docId data] Hin [results [-> Hr]].
    destruct (Hs docId data Hin) as [Hfin Hdoc].
    unfold FulltextSearch.result_step. simpl.
    destruct (map_get_keys _ _ Hdoc) as [doc ->].
    eexists. split; [reflexivity|].
    intros r Hr'. apply in_app_or in Hr' as [Hr'|[<-|[]]]; auto.
  - exists []. split; [reflexivity|]. intros r [].
Qed.

Lemma Sorted_on {A} (P : A -> Prop) (le le' : A -> A -> Prop) (l : list A) :
  (forall x y, P x -> P y -> le x y -> le' x y) ->
  Forall P l -> Sorted le l -> Sorted le' l.
Proof.
  intros Himp Hall Hs. induction Hs as [|x l Hs IH Hhd]; [constructor|].
  inversion Hall as [|? ? Hx Hl]; subst.
  constructor; [now apply IH|].
  destruct Hhd as [|y l' Hxy]; constructor.
  inversion Hl; subst. now apply Himp.
Qed.

Lemma StronglySorted_firstn {A} (le : A -> A -> Prop) (n : nat) (l : list A) :
  StronglySorted le l -> StronglySorted le (firstn n l).
Proof.
  revert n. induction l as [|x l IH]; intros [|n] Hs; simpl; try constructor.
  - apply IH. now inversion Hs.
  - inversion Hs as [|? ? _ Hall]; subst.
    rewrite Forall_forall in *. intros y Hy. apply Hall. now apply In_firstn in Hy.
Qed.

Lemma StronglySorted_skipn {A} (le : A -> A -> Prop) (n : nat) (l : list A) :
  StronglySorted le l -> StronglySorted le (skipn n l).
Proof.
  revert n. induction l as [|x l IH]; intros [|n] Hs; simpl; try assumption.
  apply IH. now inversion Hs.
Qed.

Lemma outranks_sorted (l : list FulltextSearchResult.t) :
  (forall r, In r l -> nonnegative (FulltextSearchResult.score r)) ->
  StronglySorted outranks (JS.sort FulltextSearch.after l).
Proof.
  intros Hfin.
  apply Sorted_StronglySorted.
  { intros a b c [x [y [Ha [Hb Hxy]]]] [y' [z [Hb' [Hc Hyz]]]].
    rewrite Hb in Hb'. injection Hb' as <-.
    exists x, z. repeat split; try assumption. lra. }
  apply (Sorted_on (fun r => nonnegative (FulltextSearchResult.score r))
           (fun a b => nonnegative (FulltextSearchResult.score a) ->
                       nonnegative (FulltextSearchResult.score b) -> outranks a b)).
  - intros x y Hx Hy H. now apply H.
  - rewrite Forall_forall. intros r Hr. apply Hfin. now apply sort_In in Hr.
  - apply sort_Sorted.
    + intros a b H [x [Ha _]] [y [Hb _]].
      unfold FulltextSearch.after in H. rewrite Ha, Hb in H.
      cbn [JS.sub JS.neg JS.add JS.positive] in H. unfold JS.sign in H.
      exists x, y. split; [assumption|]. split; [assumption|].
      destruct (Rlt_dec 0 (y + - x)); [discriminate|lra].
    + intros a b H [y [Hb _]] [x [Ha _]].
      unfold FulltextSearch.after in H. rewrite Ha, Hb in H.
      cbn [JS.sub JS.neg JS.add JS.positive] in H. unfold JS.sign in H.
      exists y, x. split; [assumption|]. split; [assumption|].
      destruct (Rlt_dec 0 (y + - x)); [lra|].
      destruct (Rlt_dec (y + - x) 0); discriminate.
Qed.

(** X10.  On a loaded document, Fulltext Query returns its results in the
    order of their scores, the largest first (every result is followed
    only by results whose score is not larger), and every score is a
    finite number that is not negative. *)
Theorem X10_fulltext_results_sorted
    (spec : SwaggerSpec.t) (loader : SwaggerLoader.t)
    (query : string) (limit : option Z) :
  loaded spec loader ->
  exists results,
    FulltextSearch.fulltextSearch loader (FulltextSearch.mkParams query limit)
    = JS.Ok results /\
    StronglySorted outranks results /\
    forall r, In r results -> nonnegative (FulltextSearchResult.score r).
Proof.
  intros Hl. apply loaded_inv in Hl as [entries [_ ->]].
  pose proof (fulltextIndex_of_wf entries) as Hwf.
  set (index := fulltextIndex_of entries) in *.
  unfold FulltextSearch.fulltextSearch, SwaggerLoader.getFulltextIndex.
  cbn [SwaggerLoader.fulltextIndex JS.bind FulltextSearch.query FulltextSearch.limit].
  fold index.
  destruct (length (FulltextSearch.tokenize query) =? 0)%nat eqn:E.
  - exists []. split; [reflexivity|]. split; [constructor|intros r []].
  - apply Nat.eqb_neq in E.
    destruct (scores_loop_nonnegative index (FulltextSearch.tokenize query) Hwf)
      as [scores [-> Hs]]; [lia|].
    cbn [JS.bind].
    destruct (results_nonnegative index scores Hs) as [results [-> Hr]].
    cbn [JS.bind]. eexists. split; [reflexivity|]. split.
    + unfold JS.slice. apply StronglySorted_firstn, StronglySorted_skipn.
      now apply outranks_sorted.
    + intros r Hin. apply slice_incl in Hin. apply sort_In in Hin. now apply Hr.
Qed.

Lemma X10_fulltext_results_sorted_witness :
  loaded files_and_nodes files_and_nodes_loader /\
  exists results,
    FulltextSearch.fulltextSearch files_and_nodes_loader
      (FulltextSearch.mkParams "list files" None) = JS.Ok results /\
    StronglySorted outranks results.
Proof.
  split; [apply files_and_nodes_loaded|].
  destruct (X10_fulltext_results_sorted files_and_nodes files_and_nodes_loader
              "list files" None files_and_nodes_loaded) as [results [H1 [H2 _]]].
  exists results. split; assumption.
Defined.

(** ** The schema index against the document *)

Lemma stored_push_at {V} (m : JS.Map (list V)) (k : string) (x : V) (k' : string) :
  stored (SwaggerLoader.push_at m k x) k' =
  stored m k' ++ (if (k =? k')%string then [x] else []).
Proof.
  rewrite push_at_spec. unfold stored.
  destruct (String.eqb_spec k k') as [->|Hne].
  - now rewrite map_get_set_same.
  - rewrite map_get_set_other by assumption. now rewrite app_nil_r.
Qed.

Lemma stored_push_all {V} (x : V) (names : list string) (m : JS.Map (list V))
    (k : string) :
  stored (fold_left (fun m name => SwaggerLoader.push_at m name x) names m) k =
  stored m k ++ flat_map (fun name => if (name =? k)%string then [x] else []) names.
Proof.
  revert m. induction names as [|name names IH]; intros m; simpl.
  - now rewrite app_nil_r.
  - rewrite IH, stored_push_at, <- app_assoc. reflexivity.
Qed.

Lemma registers_refl (st : JS.Map (list SchemaResult.t) * JS.Map (list SchemaResult.t)) :
  registers st st [].
Proof. intros name. simpl. now rewrite !app_nil_r. Qed.

Lemma registers_trans
    (st1 st2 st3 : JS.Map (list SchemaResult.t) * JS.Map (list SchemaResult.t))
    (l1 l2 : list SchemaResult.t) :
  registers st1 st2 l1 -> registers st2 st3 l2 -> registers st1 st3 (l1 ++ l2).
Proof.
  intros H1 H2 name. destruct (H1 name) as [A1 B1]. destruct (H2 name) as [A2 B2].
  rewrite A2, A1, B2, B1, filter_app, flat_map_app, <- !app_assoc. split; reflexivity.
Qed.

Lemma register_registers
    (st : JS.Map (list SchemaResult.t) * JS.Map (list SchemaResult.t))
    (r : SchemaResult.t) :
  registers st (register st r) [r].
Proof.
  intros name. unfold register. cbn [fst snd filter flat_map]. split.
  - unfold named at 1.
    destruct (JS.truthy (SchemaResult.schemaName r)); cbn [andb].
    + rewrite stored_push_at.
      now destruct (JS.value (SchemaResult.schemaName r) =? name)%string.
    + now rewrite app_nil_r.
  - rewrite stored_push_all. unfold copies at 1. now rewrite app_nil_r.
Qed.

Lemma register_fold_registers (l : list SchemaResult.t)
    (st : JS.Map (list SchemaResult.t) * JS.Map (list SchemaResult.t)) :
  registers st (fold_left register l st) l.
Proof.
  revert st. induction l as [|r l IH]; intros st; [apply registers_refl|].
  cbn [fold_left]. change (r :: l) with ([r] ++ l).
  eapply registers_trans; [apply register_registers|apply IH].
Qed.

(** What the two maps of the schema index store under a key. *)
Lemma schemaIndex_of_stored (entries : list (string * PathItem.t)) (name : string) :
  stored (SchemaIndex.byName (schemaIndex_of entries)) name =
    filter (named name) (occurrences entries) /\
  stored (SchemaIndex.byProperty (schemaIndex_of entries)) name =
    flat_map (copies name) (occurrences entries).
Proof.
  unfold schemaIndex_of. cbn [SchemaIndex.byName SchemaIndex.byProperty].
  exact (register_fold_registers (occurrences entries) ([], []) name).
Qed.

Lemma push_at_wf {V} (m : JS.Map (list V)) (k : string) (x : V) :
  lists_wf m -> lists_wf (SwaggerLoader.push_at m k x).
Proof.
  intros [Hn Hl]. split; [now apply push_at_keys_NoDup|].
  rewrite push_at_spec. intros k' l Hin.
  apply map_set_In in Hin as [[_ ->]|Hin]; [|now apply (Hl k')].
  now destruct (match JS.map_get m k with Some l => l | None => [] end).
Qed.

Lemma push_all_wf {V} (x : V) (names : list string) (m : JS.Map (list V)) :
  lists_wf m ->
  lists_wf (fold_left (fun m name => SwaggerLoader.push_at m name x) names m).
Proof.
  intros H. apply (fold_left_invariant lists_wf); [|assumption].
  intros m' name _ Hm'. now apply push_at_wf.
Qed.

Lemma schemaIndex_of_wf (entries : list (string * PathItem.t)) :
  lists_wf (SchemaIndex.byName (schemaIndex_of entries)) /\
  lists_wf (SchemaIndex.byProperty (schemaIndex_of entries)).
Proof.
  unfold schemaIndex_of. cbn [SchemaIndex.byName SchemaIndex.byProperty].
  set (Q := fun st : JS.Map (list SchemaResult.t) * JS.Map (list SchemaResult.t) =>
              lists_wf (fst st) /\ lists_wf (snd st)).
  change (Q (fold_left register (occurrences entries) ([], []))).
  apply (fold_left_invariant Q);
    [|split; (split; [constructor|intros k l []])].
  intros st r _ [H1 H2]. unfold register. split; cbn [fst snd].
  - destruct (JS.truthy _); [now apply push_at_wf|assumption].
  - now apply push_all_wf.
Qed.

Lemma stored_has {V} (m : JS.Map (list V)) (key : string) :
  lists_wf m -> (JS.map_has m key = true <-> stored m key <> []).
Proof.
  intros [_ Hl]. unfold stored, JS.map_has.
  destruct (JS.map_get m key) as [l|] eqn:E.
  - apply map_get_In in E. apply Hl in E. tauto.
  - split; [discriminate|congruence].
Qed.

Lemma stored_In {V} (m : JS.Map (list V)) (key : string) (x : V) :
  NoDup (JS.map_keys m) ->
  (In x (stored m key) <-> exists l, In (key, l) m /\ In x l).
Proof.
  intros Hn. unfold stored. split.
  - destruct (JS.map_get m key) as [l|] eqn:E; [|intros []].
    intros H. exists l. split; [now apply map_get_In|assumption].
  - intros [l [Hin Hx]]. now rewrite (NoDup_map_fst_get m key l Hn Hin).
Qed.

Lemma In_copies (name : string) (r x : SchemaResult.t) :
  In x (copies name r) <-> x = r /\ In name (chain_names (SchemaResult.schema r)).
Proof.
  unfold copies. rewrite in_flat_map. split.
  - intros [propName [Hin H]].
    destruct (String.eqb_spec propName name) as [->|]; [|destruct H].
    destruct H as [<-|[]]. now split.
  - intros [-> Hin]. exists name. split; [assumption|].
    rewrite String.eqb_refl. now left.
Qed.

Lemma In_occurrences_in (path method : string) (operation : Operation.t)
    (responses : list (string * Response.t)) (r : SchemaResult.t) :
  In r (occurrences_in path method operation responses) ->
  SchemaResult.path r = Some path /\
  SchemaResult.method r = Some (JS.toUpperCase method).
Proof.
  unfold occurrences_in. rewrite in_flat_map. intros [entry [_ H]].
  destruct (Response.schema (snd entry)); [|destruct H].
  destruct H as [<-|[]]. now split.
Qed.

Lemma In_response_occurrences (path method : string) (operation : Operation.t)
    (r : SchemaResult.t) :
  In r (response_occurrences path method operation) ->
  SchemaResult.path r = Some path /\
  SchemaResult.method r = Some (JS.toUpperCase method).
Proof.
  unfold response_occurrences. destruct (Operation.responses operation); [|intros []].
  apply In_occurrences_in.
Qed.

Lemma response_occurrences_method (path method method' : string)
    (operation : Operation.t) :
  JS.toUpperCase method = JS.toUpperCase method' ->
  response_occurrences path method operation =
  response_occurrences path method' operation.
Proof.
  intros H. unfold response_occurrences, occurrences_in. now rewrite H.
Qed.

Lemma In_occurrences (entries : list (string * PathItem.t)) (r : SchemaResult.t) :
  In r (occurrences entries) <->
  exists path method operation,
    declares entries path method operation /\
    In r (response_occurrences path method operation).
Proof.
  unfold occurrences. rewrite in_flat_map. split.
  - intros [[path pathItem] [Hin H]]. cbn [fst snd] in H.
    apply in_flat_map in H as [method [Hm H]]. unfold method_occurrences in H.
    destruct (PathItem.at_ pathItem method) as [operation|] eqn:E; [|destruct H].
    exists path, method, operation. split; [|assumption]. now exists pathItem.
  - intros [path [method [operation [[pathItem [Hin [Hm Hat]]] H]]]].
    exists (path, pathItem). split; [assumption|]. cbn [fst snd].
    apply in_flat_map. exists method. split; [assumption|].
    unfold method_occurrences. now rewrite Hat.
Qed.

Lemma of_endpoint_occurrences (index : EndpointIndex.t) (path method : string) :
  SchemaSearch.of_endpoint index path method =
  match EndpointSearch.operation_at index path (JS.toUpperCase method) with
  | Some operation => response_occurrences path method operation
  | None => []
  end.
Proof. reflexivity. Qed.

Lemma operation_at_inv (entries : list (string * PathItem.t))
    (path methodStr : string) (operation : Operation.t) :
  NoDup (map fst entries) ->
  EndpointSearch.operation_at (endpointIndex_of entries) path methodStr = Some operation ->
  exists method, methodStr = JS.toUpperCase method /\
                 declares entries path method operation.
Proof.
  intros Hn H. unfold EndpointSearch.operation_at in H.
  destruct (JS.map_get _ path) as [methodMap|] eqn:E; [|discriminate].
  apply map_get_In in E, H. rewrite (paths_exact entries Hn) in E.
  apply indexed_paths_In in E as [pathItem [He [-> _]]].
  apply methodMap_of_In in H as [method [Hm [-> Hat]]].
  exists method. split; [reflexivity|]. now exists pathItem.
Qed.

Lemma In_collect (m : JS.Map (list SchemaResult.t)) (name : string)
    (r : SchemaResult.t) :
  In r (SchemaSearch.collect m name) <->
  exists k l, In (k, l) m /\
              JS.includes (JS.toLowerCase k) (JS.toLowerCase name) = true /\ In r l.
Proof.
  unfold SchemaSearch.collect. rewrite in_flat_map. split.
  - intros [[k l] [Hin H]]. cbn [fst snd] in H.
    destruct (JS.includes _ _) eqn:E; [|destruct H]. now exists k, l.
  - intros [k [l [Hin [E H]]]]. exists (k, l). split; [assumption|].
    cbn [fst snd]. now rewrite E.
Qed.

Lemma named_true (name : string) (r : SchemaResult.t) :
  named name r = true <->
  JS.truthy (SchemaResult.schemaName r) = true /\
  JS.value (SchemaResult.schemaName r) = name.
Proof.
  unfold named. rewrite andb_true_iff, String.eqb_eq. reflexivity.
Qed.

(** What Schema Query collects before it removes the duplicates. *)
Lemma schema_query_collected (loader : SwaggerLoader.t) (spec : SwaggerSpec.t)
    (entries : list (string * PathItem.t)) (params : SchemaSearch.SchemaSearchParams) :
  document_of loader spec entries ->
  exists collected,
    SchemaSearch.searchSchemas loader params
    = JS.Ok (SchemaSearch.removeDuplicates collected) /\
    forall r, In r collected <-> In r (occurrences entries) /\ selects params r.
Proof.
  intros Hdoc. pose proof Hdoc as [_ [_ Hn]].
  rewrite (document_of_loader _ _ _ Hdoc).
  destruct (schemaIndex_of_wf entries) as [[Hk1 _] [Hk2 _]].
  unfold SchemaSearch.searchSchemas, SwaggerLoader.getSchemaIndex,
    SwaggerLoader.getEndpointIndex, selects.
  cbn [SwaggerLoader.schemaIndex SwaggerLoader.endpointIndex JS.bind].
  destruct (JS.truthy (SchemaSearch.schemaName params)); [|
    destruct (JS.truthy (SchemaSearch.property params)); [|
      destruct (JS.truthy (SchemaSearch.path params)
                && JS.truthy (SchemaSearch.method params))]];
    cbn [JS.bind]; eexists; (split; [reflexivity|]); intros r.
  - rewrite In_collect. split.
    + intros [k [l [Hin [E Hr]]]].
      assert (H : In r (stored (SchemaIndex.byName (schemaIndex_of entries)) k)).
      { apply stored_In; [assumption|]. now exists l. }
      rewrite (proj1 (schemaIndex_of_stored entries k)) in H.
      apply filter_In in H as [Ho Hnamed].
      apply named_true in Hnamed as [Ht <-]. auto.
    + intros [Ho [Ht E]].
      set (k := JS.value (SchemaResult.schemaName r)) in *.
      assert (H : In r (stored (SchemaIndex.byName (schemaIndex_of entries)) k)).
      { rewrite (proj1 (schemaIndex_of_stored entries k)).
        apply filter_In. split; [assumption|]. now apply named_true. }
      apply stored_In in H as [l [Hin Hr]]; [|assumption].
      now exists k, l.
  - rewrite In_collect. split.
    + intros [k [l [Hin [E Hr]]]].
      assert (H : In r (stored (SchemaIndex.byProperty (schemaIndex_of entries)) k)).
      { apply stored_In; [assumption|]. now exists l. }
      rewrite (proj2 (schemaIndex_of_stored entries k)) in H.
      apply in_flat_map in H as [r' [Ho H]].
      apply In_copies in H as [-> Hc]. split; [assumption|]. now exists k.
    + intros [Ho [k [Hc E]]].
      assert (H : In r (stored (SchemaIndex.byProperty (schemaIndex_of entries)) k)).
      { rewrite (proj2 (schemaIndex_of_stored entries k)).
        apply in_flat_map. exists r. split; [assumption|]. now apply In_copies. }
      apply stored_In in H as [l [Hin Hr]]; [|assumption].
      now exists k, l.
  - rewrite of_endpoint_occurrences.
    set (path := JS.value (SchemaSearch.path params)).
    set (method := JS.value (SchemaSearch.method params)).
    split.
    + destruct (EndpointSearch.operation_at _ path _) as [operation|] eqn:E;
        [|intros []].
      intros Hr. split; [|now apply In_response_occurrences in Hr].
      apply operation_at_inv in E as [method0 [Hm Hd]]; [|assumption].
      apply In_occurrences. exists path, method0, operation.
      split; [assumption|].
      now rewrite <- (response_occurrences_method path method method0 operation Hm).
    + intros [Ho [Hp Hm]].
      apply In_occurrences in Ho as [path0 [method0 [operation [Hd Hr]]]].
      pose proof (In_response_occurrences _ _ _ _ Hr) as [Hp0 Hm0].
      rewrite Hp in Hp0. injection Hp0 as <-.
      rewrite Hm in Hm0. injection Hm0 as Hm0.
      rewrite Hm0, (operation_at_declared entries path method0 operation Hn Hd).
      now rewrite (response_occurrences_method path method method0 operation Hm0).
  - split; [intros []|tauto].
Qed.

(** X11.  On a loaded document, the schema index stores under a schema
    name exactly the occurrences that carry this name, and under a
    property name every occurrence once for each time the name is a
    property on the item chain of its schema, both in document order; a
    key is present only with a list that is not empty.  An occurrence is
    a response with a schema, under its path and upper-case method. *)
Theorem X11_schema_index_matches_document
    (spec : SwaggerSpec.t) (loader : SwaggerLoader.t) :
  loaded spec loader ->
  exists index,
    SwaggerLoader.getSchemaIndex loader = JS.Ok index /\
    forall name,
      stored (SchemaIndex.byName index) name =
        filter (named name) (occurrences (entries_of spec)) /\
      stored (SchemaIndex.byProperty index) name =
        flat_map (copies name) (occurrences (entries_of spec)) /\
      (JS.map_has (SchemaIndex.byName index) name = true <->
       stored (SchemaIndex.byName index) name <> []) /\
      (JS.map_has (SchemaIndex.byProperty index) name = true <->
       stored (SchemaIndex.byProperty index) name <> []).
Proof.
  intros Hl. apply loaded_inv in Hl as [entries [Hp ->]].
  unfold entries_of. rewrite Hp.
  exists (schemaIndex_of entries). split; [reflexivity|].
  intros name. destruct (schemaIndex_of_stored entries name) as [H1 H2].
  destruct (schemaIndex_of_wf entries) as [W1 W2].
  split; [assumption|]. split; [assumption|].
  split; now apply stored_has.
Qed.

Lemma X11_schema_index_matches_document_witness :
  loaded colon_paths colon_paths_loader /\
  exists index,
    SwaggerLoader.getSchemaIndex colon_paths_loader = JS.Ok index /\
    stored (SchemaIndex.byName index) "B" = [occurrence_a_GET].
Proof.
  split; [apply colon_paths_loaded|].
  destruct (X11_schema_index_matches_document colon_paths colon_paths_loader
              colon_paths_loaded) as [index [Hget H]].
  exists index. split; [assumption|].
  destruct (H "B"%string) as [-> _]. reflexivity.
Defined.

(** X12.  On a loaded document, Schema Query answers with occurrences of
    the document that meet the criterion of the first mode whose
    parameters are given (schema name, else property name, else path and
    method; none: nothing); every occurrence that meets it is represented
    by a result with the same path, method and schema name key, and no two
    results share this key. *)
Theorem X12_schema_query_results
    (loader : SwaggerLoader.t) (spec : SwaggerSpec.t)
    (entries : list (string * PathItem.t)) (params : SchemaSearch.SchemaSearchParams) :
  document_of loader spec entries ->
  exists results,
    SchemaSearch.searchSchemas loader params = JS.Ok results /\
    NoDup (map SchemaSearch.key results) /\
    (forall r, In r results -> In r (occurrences entries) /\ selects params r) /\
    (forall r, In r (occurrences entries) -> selects params r ->
       exists r', In r' results /\ SchemaSearch.key r' = SchemaSearch.key r).
Proof.
  intros Hdoc.
  destruct (schema_query_collected loader spec entries params Hdoc)
    as [collected [-> Hc]].
  eexists. split; [reflexivity|]. split; [apply removeDuplicates_keys|]. split.
  - intros r Hr. apply Hc. now apply removeDuplicates_incl.
  - intros r Ho Hs. apply removeDuplicates_covers. apply Hc. now split.
Qed.

Lemma X12_schema_query_results_witness :
  document_of files_and_nodes_loader files_and_nodes (entries_of files_and_nodes) /\
  exists results,
    SchemaSearch.searchSchemas files_and_nodes_loader
      (SchemaSearch.mkParams None (Some "data") None None) = JS.Ok results /\
    NoDup (map SchemaSearch.key results).
Proof.
  split; [apply files_and_nodes_document|].
  destruct (X12_schema_query_results files_and_nodes_loader files_and_nodes
              (entries_of files_and_nodes)
              (SchemaSearch.mkParams None (Some "data") None None)
              files_and_nodes_document) as [results [H1 [H2 _]]].
  exists results. split; assumption.
Defined.

(** ** Limits below zero, and the pages of Endpoint Listing *)

Lemma slice_whole {A} (l : list A) (n : Z) :
  (Z.of_nat (length (JS.slice l 0 n)) < n)%Z -> JS.slice l 0 n = l.
Proof.
  intros H. assert (Hn : (0 <= n)%Z) by lia.
  rewrite slice_from_0 in * by assumption.
  rewrite length_firstn in H. apply firstn_all2. lia.
Qed.

Lemma slice_drop_last {A} (l : list A) (n : Z) :
  (0 < n)%Z -> JS.slice l 0 (- n) = firstn (length l - Z.to_nat n) l.
Proof.
  intros H. unfold JS.slice.
  destruct (0 <? 0)%Z eqn:E0; [discriminate|].
  destruct (- n <? 0)%Z eqn:E1; [|apply Z.ltb_ge in E1; lia].
  rewrite Z.min_l by lia. cbn [Z.to_nat skipn]. f_equal. lia.
Qed.

(** X13.  A limit below zero is not rejected by Endpoint Query or by
    Fulltext Query: the limit -n leaves out the last n results of the
    unlimited answer (the answer under a limit that it does not reach) and
    returns the others. *)
Theorem X13_negative_limit_drops_the_last
    (loader : SwaggerLoader.t) (n large : Z) :
  (0 < n)%Z ->
  (forall path method operationId tag results,
      EndpointSearch.searchEndpoints loader
        (EndpointSearch.mkParams path method operationId tag (Some large))
      = JS.Ok results ->
      (Z.of_nat (length results) < large)%Z ->
      EndpointSearch.searchEndpoints loader
        (EndpointSearch.mkParams path method operationId tag (Some (- n)%Z))
      = JS.Ok (firstn (length results - Z.to_nat n) results)) /\
  (forall query results,
      FulltextSearch.fulltextSearch loader (FulltextSearch.mkParams query (Some large))
      = JS.Ok results ->
      (Z.of_nat (length results) < large)%Z ->
      FulltextSearch.fulltextSearch loader (FulltextSearch.mkParams query (Some (- n)%Z))
      = JS.Ok (firstn (length results - Z.to_nat n) results)).
Proof.
  intros H. split.
  - intros path method operationId tag results Hlarge Hlen.
    destruct (searchEndpoints_shape loader path method operationId tag)
      as [[l|m] Hshape]; rewrite Hshape in Hlarge |- *; cbn [JS.bind] in *;
      [|discriminate].
    injection Hlarge as <-. rewrite (slice_whole l large Hlen).
    now rewrite slice_drop_last.
  - intros query results Hlarge Hlen.
    destruct (fulltextSearch_shape loader query)
      as [[l|m] Hshape]; rewrite Hshape in Hlarge |- *; cbn [JS.bind] in *;
      [|discriminate].
    injection Hlarge as <-. rewrite (slice_whole l large Hlen).
    now rewrite slice_drop_last.
Qed.

Lemma X13_negative_limit_drops_the_last_witness :
  (0 < 1)%Z /\
  EndpointSearch.searchEndpoints b_then_a_loader
    (EndpointSearch.mkParams None None None None (Some (- 1)%Z))
  = JS.Ok [EndpointResult.mk "/b/" "GET" (Some "B") None (Some "b_list") None None].
Proof.
  split; [lia|].
  exact (proj1 (X13_negative_limit_drops_the_last b_then_a_loader 1 10 ltac:(lia))
           None None None None _ eq_refl ltac:(vm_compute; reflexivity)).
Defined.

Lemma firstn_add {A} (a b : nat) (l : list A) :
  firstn (a + b) l = firstn a l ++ firstn b (skipn a l).
Proof.
  revert l. induction a as [|a IH]; intros [|x l]; simpl; try reflexivity.
  - now rewrite firstn_nil.
  - now rewrite IH.
Qed.

(** X14.  Consecutive pages of Endpoint Listing join up: with offsets and
    limits that are not negative, the page of [first] entries at [offset]
    followed by the page of [second] entries at [offset + first] is the
    page of [first + second] entries at [offset]; a page never exceeds its
    limit, and the page after one that was not full is empty. *)
Theorem X14_listing_pages_join
    (localeCompare : string -> string -> Z)
    (loader : SwaggerLoader.t) (offset first second : Z)
    (whole : list ListEndpoints.EndpointListItem) :
  (0 <= offset)%Z -> (0 <= first)%Z -> (0 <= second)%Z ->
  ListEndpoints.listEndpoints localeCompare loader
    (ListEndpoints.mkParams (Some (first + second)%Z) (Some offset)) = JS.Ok whole ->
  exists a b,
    ListEndpoints.listEndpoints localeCompare loader
      (ListEndpoints.mkParams (Some first) (Some offset)) = JS.Ok a /\
    ListEndpoints.listEndpoints localeCompare loader
      (ListEndpoints.mkParams (Some second) (Some (offset + first)%Z)) = JS.Ok b /\
    whole = a ++ b /\
    (length a <= Z.to_nat first)%nat /\
    ((length a < Z.to_nat first)%nat -> b = []).
Proof.
  intros Ho Hf Hs. unfold ListEndpoints.listEndpoints.
  destruct (SwaggerLoader.getEndpointIndex loader) as [index|m]; [|discriminate].
  cbn [JS.bind ListEndpoints.limit ListEndpoints.offset].
  set (sorted := JS.sort (ListEndpoints.after localeCompare)
                   (ListEndpoints.collect index)).
  rewrite !slice_nonneg by lia. intros [= <-].
  eexists. eexists. split; [reflexivity|]. split; [reflexivity|].
  replace (Z.to_nat (first + second)) with (Z.to_nat first + Z.to_nat second)%nat by lia.
  replace (Z.to_nat (offset + first)) with (Z.to_nat first + Z.to_nat offset)%nat by lia.
  rewrite firstn_add, <- skipn_skipn. split; [reflexivity|].
  split; [apply firstn_le_length|].
  intros Hlt. rewrite length_firstn in Hlt.
  rewrite skipn_all2 by lia. now rewrite firstn_nil.
Qed.

Lemma X14_listing_pages_join_witness :
  (0 <= 0)%Z /\ (0 <= 1)%Z /\
  exists a b,
    ListEndpoints.listEndpoints codeUnitCompare b_then_a_loader
      (ListEndpoints.mkParams (Some 1%Z) (Some 0%Z)) = JS.Ok a /\
    ListEndpoints.listEndpoints codeUnitCompare b_then_a_loader
      (ListEndpoints.mkParams (Some 1%Z) (Some 1%Z)) = JS.Ok b /\
    length (a ++ b) = 2%nat.
Proof.
  split; [lia|]. split; [lia|].
  destruct (X14_listing_pages_join codeUnitCompare b_then_a_loader 0 1 1 _
              ltac:(lia) ltac:(lia) ltac:(lia) eq_refl) as [a [b [Ha [Hb [Hw _]]]]].
  exists a, b. split; [exact Ha|]. split; [exact Hb|].
  now rewrite <- Hw.
Defined.
(** ** The resolvers and the state of the loader *)

(** The instance that a failed load leaves: the indexes as they were, or,
    when the schema builder ran out of stack, the document and its
    endpoint index assigned and the two other indexes as they were. *)
Lemma failed_load_indexes (room : N) (this : SwaggerLoader.t)
    (file : SwaggerLoader.Source) (message : string) :
  snd (SwaggerLoader.load room this file) = JS.Throw message ->
  (exists spec,
      fst (SwaggerLoader.load room this file) =
      SwaggerLoader.mk spec (SwaggerLoader.endpointIndex this)
        (SwaggerLoader.schemaIndex this) (SwaggerLoader.fulltextIndex this)) \/
  (exists spec entries,
      file = SwaggerLoader.Parsed (Some spec) /\
      SwaggerSpec.paths spec = Some entries /\
      fits room entries = false /\
      message = "Maximum call stack size exceeded"%string /\
      fst (SwaggerLoader.load room this file) =
      SwaggerLoader.mk (Some spec) (Some (endpointIndex_of entries))
        (SwaggerLoader.schemaIndex this) (SwaggerLoader.fulltextIndex this)).
Proof.
  destruct file as [m|m|[spec|]].
  - intros _. left. exists (SwaggerLoader.spec this). now destruct this.
  - intros _. left. exists (SwaggerLoader.spec this). now destruct this.
  - destruct (SwaggerSpec.paths spec) as [entries|] eqn:Hp.
    + destruct (fits room entries) eqn:Hfits.
      * rewrite (load_document room this spec entries Hp Hfits). discriminate.
      * rewrite (load_overflow room this spec entries Hp Hfits).
        intros [= <-]. right. now exists spec, entries.
    + rewrite (load_without_paths room this spec Hp). intros _. left.
      now exists (Some spec).
  - intros _. left. exists None. reflexivity.
Qed.

(** X15.  A load that fails, whatever the reason, leaves the schema index
    and the fulltext index as they were: Fulltext Query, and Schema Query
    by schema name or by property, answer after it exactly as before it.
    So do Endpoint Query, Endpoint Listing and Schema Query by path and
    method, with one exception: when the schema builder runs out of stack
    on an item chain, the document and its endpoint index have been
    assigned already, and the accessors return them while the two other
    indexes are the old ones.  A load that completes leaves nothing of the
    earlier state: the instance depends on the document alone. *)
Theorem X15_failed_load_and_the_answers
    (room : N) (this : SwaggerLoader.t) (file : SwaggerLoader.Source)
    (message : string) :
  snd (SwaggerLoader.load room this file) = JS.Throw message ->
  (forall params,
      FulltextSearch.fulltextSearch (fst (SwaggerLoader.load room this file)) params =
      FulltextSearch.fulltextSearch this params) /\
  (forall params,
      JS.truthy (SchemaSearch.schemaName params)
      || JS.truthy (SchemaSearch.property params) = true ->
      SchemaSearch.searchSchemas (fst (SwaggerLoader.load room this file)) params =
      SchemaSearch.searchSchemas this params) /\
  (((forall params,
        SchemaSearch.searchSchemas (fst (SwaggerLoader.load room this file)) params =
        SchemaSearch.searchSchemas this params) /\
    (forall params,
        EndpointSearch.searchEndpoints (fst (SwaggerLoader.load room this file)) params =
        EndpointSearch.searchEndpoints this params) /\
    (forall localeCompare params,
        ListEndpoints.listEndpoints localeCompare
          (fst (SwaggerLoader.load room this file)) params =
        ListEndpoints.listEndpoints localeCompare this params)) \/
   (exists spec entries,
       file = SwaggerLoader.Parsed (Some spec) /\
       SwaggerSpec.paths spec = Some entries /\
       message = "Maximum call stack size exceeded"%string /\
       SwaggerLoader.getSpec (fst (SwaggerLoader.load room this file)) = JS.Ok spec /\
       SwaggerLoader.getEndpointIndex (fst (SwaggerLoader.load room this file))
       = JS.Ok (endpointIndex_of entries) /\
       SwaggerLoader.getSchemaIndex (fst (SwaggerLoader.load room this file))
       = SwaggerLoader.getSchemaIndex this /\
       SwaggerLoader.getFulltextIndex (fst (SwaggerLoader.load room this file))
       = SwaggerLoader.getFulltextIndex this)) /\
  (forall spec other,
      loaded spec this -> loaded spec other -> other = this).
Proof.
  intros H.
  assert (Hlast : forall spec other,
             loaded spec this -> loaded spec other -> other = this).
  { intros doc other H1 H2.
    apply loaded_inv in H1 as [entries [Hp ->]].
    apply loaded_inv in H2 as [entries' [Hp' ->]].
    rewrite Hp in Hp'. now injection Hp' as <-. }
  destruct (failed_load_indexes room this file message H)
    as [[spec ->]|[spec [entries [-> [Hp [_ [-> ->]]]]]]].
  - split; [reflexivity|]. split; [reflexivity|].
    split; [left; split; [reflexivity|split; reflexivity]|exact Hlast].
  - split; [reflexivity|]. split.
    + intros params Hmode. unfold SchemaSearch.searchSchemas.
      destruct this as [s e [si|] f]; [|reflexivity].
      cbn [SwaggerLoader.getSchemaIndex SwaggerLoader.schemaIndex JS.bind].
      destruct (JS.truthy (SchemaSearch.schemaName params)); [reflexivity|].
      destruct (JS.truthy (SchemaSearch.property params)); [reflexivity|].
      discriminate.
    + split; [|exact Hlast]. right. exists spec, entries.
      split; [reflexivity|]. split; [exact Hp|].
      repeat (split; [reflexivity|]). reflexivity.
Qed.

(** The theorem at a load of three nested arrays on a stack with room for
    three calls, after a load of the two-endpoint fixture: the load fails,
    Fulltext Query answers from the earlier document and Endpoint Query
    from the new one. *)
Lemma X15_failed_load_and_the_answers_witness :
  let after :=
    fst (SwaggerLoader.load 3 files_and_nodes_loader
           (SwaggerLoader.Parsed (Some (nested_arrays 3)))) in
  snd (SwaggerLoader.load 3 files_and_nodes_loader
         (SwaggerLoader.Parsed (Some (nested_arrays 3))))
  = JS.Throw "Maximum call stack size exceeded" /\
  (forall params,
      FulltextSearch.fulltextSearch after params =
      FulltextSearch.fulltextSearch files_and_nodes_loader params) /\
  EndpointSearch.searchEndpoints after
    (EndpointSearch.mkParams None None None None None)
  = JS.Ok [EndpointResult.mk "/deep/" "GET" None None None None None].
Proof.
  cbv zeta. split; [reflexivity|]. split; [|reflexivity].
  exact (proj1
           (X15_failed_load_and_the_answers 3 files_and_nodes_loader
              (SwaggerLoader.Parsed (Some (nested_arrays 3))) _ eq_refl)).
Defined.

(** X16.  Without indexes every resolver throws before it looks at its
    parameters: Endpoint Query, Schema Query, Fulltext Query (also on a
    query without tokens) and Endpoint Listing with "Indexes not built.
    Call load() first."; Tag Query asks for the document first, and throws
    "Swagger spec not loaded. Call load() first." when there is none. *)
Theorem X16_resolvers_need_the_indexes (loader : SwaggerLoader.t) :
  SwaggerLoader.endpointIndex loader = None ->
  SwaggerLoader.schemaIndex loader = None ->
  SwaggerLoader.fulltextIndex loader = None ->
  (forall params,
      EndpointSearch.searchEndpoints loader params
      = JS.Throw "Indexes not built. Call load() first.") /\
  (forall params,
      SchemaSearch.searchSchemas loader params
      = JS.Throw "Indexes not built. Call load() first.") /\
  (forall params,
      FulltextSearch.fulltextSearch loader params
      = JS.Throw "Indexes not built. Call load() first.") /\
  (forall localeCompare params,
      ListEndpoints.listEndpoints localeCompare loader params
      = JS.Throw "Indexes not built. Call load() first.") /\
  (forall params,
      TagSearch.searchByTag loader params
      = match SwaggerLoader.spec loader with
        | Some _ => JS.Throw "Indexes not built. Call load() first."
        | None => JS.Throw "Swagger spec not loaded. Call load() first."
        end).
Proof.
  intros H1 H2 H3.
  split; [|split; [|split; [|split]]]; intros.
  - unfold EndpointSearch.searchEndpoints, SwaggerLoader.getEndpointIndex.
    now rewrite H1.
  - unfold SchemaSearch.searchSchemas, SwaggerLoader.getSchemaIndex.
    now rewrite H2.
  - unfold FulltextSearch.fulltextSearch, SwaggerLoader.getFulltextIndex.
    now rewrite H3.
  - unfold ListEndpoints.listEndpoints, SwaggerLoader.getEndpointIndex.
    now rewrite H1.
  - unfold TagSearch.searchByTag, SwaggerLoader.getSpec, SwaggerLoader.getEndpointIndex.
    rewrite H1. now destruct (SwaggerLoader.spec loader).
Qed.

Lemma X16_resolvers_need_the_indexes_witness :
  FulltextSearch.fulltextSearch SwaggerLoader.new (FulltextSearch.mkParams "" None)
  = JS.Throw "Indexes not built. Call load() first.".
Proof.
  exact (proj1 (proj2 (proj2
           (X16_resolvers_need_the_indexes SwaggerLoader.new eq_refl eq_refl eq_refl)))
           (FulltextSearch.mkParams "" None)).
Defined.

(** ** The tool calls of the server *)

Section ToolCalls.

Variable stringify : McpServer.Payload -> string.
Variable x_tagGroups : SwaggerSpec.t -> option (list McpServer.TagGroup).

(** X17.  On a loaded document, the tool [get_endpoint_details] answers
    for a path and a method, the method in any letter case and the path
    exactly as the document writes it, with the summary, description,
    operationId, tags, parameters and responses that the document declares
    for this operation, under the upper-case method; when the document
    declares no such operation the answer is the text "Error: Endpoint not
    found: METHOD path". *)
Theorem X17_endpoint_details_of_the_document
    (loader : SwaggerLoader.t) (spec : SwaggerSpec.t)
    (entries : list (string * PathItem.t))
    (args : McpServer.Arguments) (path method : string) :
  document_of loader spec entries ->
  McpServer.path args = Some path -> path <> ""%string ->
  McpServer.method args = Some method -> method <> ""%string ->
  (forall declared operation,
      declares entries path declared operation ->
      JS.toUpperCase declared = JS.toUpperCase method ->
      McpServer.callTool stringify x_tagGroups loader "get_endpoint_details" (Some args)
      = McpServer.respond stringify
          (McpServer.Details
             (McpServer.mkDetails path (JS.toUpperCase method)
                (Operation.summary operation) (Operation.description operation)
                (Operation.operationId operation) (Operation.tags operation)
                (Operation.parameters operation) (Operation.responses operation)))) /\
  ((forall declared operation,
       declares entries path declared operation ->
       JS.toUpperCase declared <> JS.toUpperCase method) ->
   McpServer.callTool stringify x_tagGroups loader "get_endpoint_details" (Some args)
   = McpServer.mkResult
       [McpServer.mkText "text"
          ("Error: Endpoint not found: " ++ JS.toUpperCase method ++ " " ++ path)]).
Proof.
  intros Hdoc Hp Hpne Hm Hmne. pose proof Hdoc as [_ [_ Hn]].
  rewrite (document_of_loader _ _ _ Hdoc).
  unfold McpServer.callTool. cbn [String.eqb Ascii.eqb Bool.eqb].
  unfold McpServer.handleGetEndpointDetails.
  rewrite Hp, Hm, !truthy_Some by assumption.
  cbn [negb orb JS.value SwaggerLoader.getEndpointIndex SwaggerLoader.endpointIndex JS.bind].
  split.
  - intros declared operation Hd Hu.
    rewrite <- Hu, (operation_at_declared entries path declared operation Hn Hd).
    reflexivity.
  - intros Hnone.
    destruct (EndpointSearch.operation_at (endpointIndex_of entries) path
                (JS.toUpperCase method)) as [operation|] eqn:E; [|reflexivity].
    apply operation_at_inv in E as [declared [Hu Hd]]; [|assumption].
    exfalso. now apply (Hnone declared operation).
Qed.

Lemma outcome_text (outcome : JS.Result McpServer.CallToolResult) :
  (forall result, outcome = JS.Ok result ->
     exists text, result = McpServer.mkResult [McpServer.mkText "text" text]) ->
  exists text,
    match outcome with
    | JS.Ok result => result
    | JS.Throw errorMessage =>
        McpServer.mkResult [McpServer.mkText "text" ("Error: " ++ errorMessage)]
    end = McpServer.mkResult [McpServer.mkText "text" text].
Proof.
  destruct outcome as [result|m]; intros H; [now apply H|eauto].
Qed.

(** X18.  A tool call never fails: the answer is always one item of type
    "text".  An error thrown on the way becomes the text "Error: " with
    the message: "Unknown tool: " and the name for a name that is not one
    of the six tools, and the message that names the required parameter
    when [tag] ([search_by_tag]), [query] ([fulltext_search]) or one of
    [path] and [method] ([get_endpoint_details]) is absent or empty, which
    is checked before the document is looked at, so also when none is
    loaded. *)
Theorem X18_tool_calls_answer_in_text
    (loader : SwaggerLoader.t) (name : string)
    (arguments : option McpServer.Arguments) :
  let args := match arguments with
              | Some args => args
              | None => McpServer.no_arguments
              end in
  let answer := McpServer.callTool stringify x_tagGroups loader in
  let error := fun message =>
    McpServer.mkResult [McpServer.mkText "text" ("Error: " ++ message)] in
  (exists text,
      answer name arguments = McpServer.mkResult [McpServer.mkText "text" text]) /\
  (~ In name ["search_endpoints"; "search_by_tag"; "search_schemas";
              "fulltext_search"; "get_endpoint_details"; "list_tags"]%string ->
   answer name arguments = error ("Unknown tool: " ++ name)%string) /\
  (JS.truthy (McpServer.tag args) = false ->
   answer "search_by_tag"%string arguments = error "tag parameter is required"%string) /\
  (JS.truthy (McpServer.query args) = false ->
   answer "fulltext_search"%string arguments = error "query parameter is required"%string) /\
  (JS.truthy (McpServer.path args) = false \/ JS.truthy (McpServer.method args) = false ->
   answer "get_endpoint_details"%string arguments
   = error "path and method parameters are required"%string).
Proof.
  intros args answer error. subst answer error. cbv beta.
  split; [|split; [|split; [|split]]].
  - unfold McpServer.callTool. fold args. apply outcome_text. intros result.
    repeat match goal with
           | |- context [if (name =? ?s)%string then _ else _] =>
               destruct (name =? s)%string
           end; try discriminate.
    + unfold McpServer.handleSearchEndpoints.
      destruct (EndpointSearch.searchEndpoints _ _); [|discriminate].
      intros [= <-]. unfold McpServer.respond. eauto.
    + unfold McpServer.handleSearchByTag.
      destruct (negb _); [discriminate|].
      destruct (TagSearch.searchByTag _ _); [|discriminate].
      intros [= <-]. unfold McpServer.respond. eauto.
    + unfold McpServer.handleSearchSchemas.
      destruct (SchemaSearch.searchSchemas _ _); [|discriminate].
      intros [= <-]. unfold McpServer.respond. eauto.
    + unfold McpServer.handleFulltextSearch.
      destruct (negb _); [discriminate|].
      destruct (FulltextSearch.fulltextSearch _ _); [|discriminate].
      intros [= <-]. unfold McpServer.respond. eauto.
    + unfold McpServer.handleGetEndpointDetails.
      destruct (_ || _); [discriminate|].
      destruct (SwaggerLoader.getEndpointIndex loader) as [index|]; [|discriminate].
      cbn [JS.bind]. destruct (EndpointSearch.operation_at _ _ _); [|discriminate].
      intros [= <-]. unfold McpServer.respond. eauto.
    + unfold McpServer.handleListTags.
      destruct (SwaggerLoader.getSpec loader) as [spec|]; [|discriminate].
      cbn [JS.bind].
      destruct (fold_left (McpServer.group_step spec) _ _) as [groups|];
        [|discriminate].
      cbn [JS.bind]. destruct (SwaggerSpec.tags spec) as [tags|]; [|discriminate].
      cbn [JS.bind]. intros [= <-]. unfold McpServer.respond. eauto.
  - intros Hname. unfold McpServer.callTool.
    repeat match goal with
           | |- context [if (name =? ?s)%string then _ else _] =>
               destruct (String.eqb_spec name s) as [->|_];
               [exfalso; apply Hname; simpl; tauto|]
           end.
    reflexivity.
  - intros H. unfold McpServer.callTool. fold args.
    cbn [String.eqb Ascii.eqb Bool.eqb]. unfold McpServer.handleSearchByTag.
    now rewrite H.
  - intros H. unfold McpServer.callTool. fold args.
    cbn [String.eqb Ascii.eqb Bool.eqb]. unfold McpServer.handleFulltextSearch.
    now rewrite H.
  - intros H. unfold McpServer.callTool. fold args.
    cbn [String.eqb Ascii.eqb Bool.eqb]. unfold McpServer.handleGetEndpointDetails.
    destruct H as [H|H]; rewrite H; [reflexivity|].
    now rewrite orb_true_r.
Qed.

End ToolCalls.

Lemma X17_endpoint_details_of_the_document_witness :
  document_of files_and_nodes_loader files_and_nodes (entries_of files_and_nodes) /\
  McpServer.callTool (fun _ => "{}"%string) (fun _ => None) files_and_nodes_loader
    "get_endpoint_details"
    (Some (McpServer.mkArguments (Some "/nodes/") (Some "Get")
             None None None None None None None))
  = McpServer.respond (fun _ => "{}"%string)
      (McpServer.Details
         (McpServer.mkDetails "/nodes/" "GET" (Some "List all nodes") None
            (Some "nodes_list") (Some ["Nodes"]) None None)).
Proof.
  split; [apply files_and_nodes_document|].
  refine (proj1 (X17_endpoint_details_of_the_document (fun _ => "{}"%string)
                   (fun _ => None)
                   files_and_nodes_loader files_and_nodes (entries_of files_and_nodes)
                   (McpServer.mkArguments (Some "/nodes/") (Some "Get")
                      None None None None None None None)
                   "/nodes/" "Get" files_and_nodes_document eq_refl _ eq_refl _)
            "get"
            (operation (Some "List all nodes") None (Some "nodes_list")
               (Some ["Nodes"]) None None) _ eq_refl).
  - discriminate.
  - discriminate.
  - eexists. split; [right; left; reflexivity|]. split; [now left|reflexivity].
Defined.

Lemma X18_tool_calls_answer_in_text_witness :
  McpServer.callTool (fun _ => "{}"%string) (fun _ => None) SwaggerLoader.new
    "search_by_tag" None
  = McpServer.mkResult [McpServer.mkText "text" "Error: tag parameter is required"].
Proof.
  exact (proj1 (proj2 (proj2
           (X18_tool_calls_answer_in_text (fun _ => "{}"%string) (fun _ => None)
              SwaggerLoader.new "search_by_tag" None))) eq_refl).
Defined.

(** ** The fulltext index against the document *)

Lemma fold_left_flat_map {S X Y : Type} (f : S -> Y -> S) (g : X -> list Y)
    (l : list X) (st : S) :
  fold_left f (flat_map g l) st = fold_left (fun st x => fold_left f (g x) st) l st.
Proof.
  revert st. induction l as [|x l IH]; intros st; simpl; [reflexivity|].
  now rewrite fold_left_app, IH.
Qed.

Lemma fulltext_method_step_operation (path : string) (pathItem : PathItem.t)
    (st : JS.Map JS.StrSet * JS.Map Document.t) (method : string) :
  SwaggerLoader.fulltext_method_step path pathItem st method =
  fold_left fulltext_operation_step
    match PathItem.at_ pathItem method with
    | Some operation => [(path, method, operation)]
    | None => []
    end st.
Proof.
  unfold SwaggerLoader.fulltext_method_step. destruct st as [words documents].
  now destruct (PathItem.at_ pathItem method).
Qed.

Lemma fulltext_fold_operations (entries : list (string * PathItem.t))
    (st : JS.Map JS.StrSet * JS.Map Document.t) :
  fold_left SwaggerLoader.fulltext_path_step entries st =
  fold_left fulltext_operation_step (operations entries) st.
Proof.
  unfold operations. rewrite fold_left_flat_map.
  revert st. induction entries as [|[path pathItem] entries IH]; intros st;
    [reflexivity|].
  cbn [fold_left]. rewrite IH. f_equal.
  unfold SwaggerLoader.fulltext_path_step. cbn [fst snd].
  rewrite fold_left_flat_map.
  generalize SwaggerLoader.methods. intros l. revert st.
  induction l as [|m l IHl]; intros st; [reflexivity|].
  cbn [fold_left]. now rewrite fulltext_method_step_operation, IHl.
Qed.

Lemma fulltextIndex_of_fold (entries : list (string * PathItem.t)) :
  fulltextIndex_of entries =
  FulltextIndex.mk
    (fst (fold_left fulltext_operation_step (operations entries) ([], [])))
    (snd (fold_left fulltext_operation_step (operations entries) ([], []))).
Proof.
  unfold fulltextIndex_of. rewrite fulltext_fold_operations.
  now destruct (fold_left fulltext_operation_step (operations entries) ([], [])).
Qed.

Lemma In_operations (entries : list (string * PathItem.t))
    (path method : string) (operation : Operation.t) :
  In (path, method, operation) (operations entries) <->
  declares entries path method operation.
Proof.
  unfold operations, declares. rewrite in_flat_map. split.
  - intros [[p pathItem] [Hin H]]. cbn [fst snd] in H.
    apply in_flat_map in H as [m [Hm H]].
    destruct (PathItem.at_ pathItem m) as [op|] eqn:E; [|destruct H].
    destruct H as [[= <- <- <-]|[]]. now exists pathItem.
  - intros [pathItem [Hin [Hm Hat]]]. exists (path, pathItem).
    split; [assumption|]. cbn [fst snd]. apply in_flat_map.
    exists method. split; [assumption|]. rewrite Hat. now left.
Qed.

Lemma docId_injective (path path' method method' : string) :
  In method SwaggerLoader.methods -> In method' SwaggerLoader.methods ->
  (JS.toUpperCase method ++ ":" ++ path)%string
  = (JS.toUpperCase method' ++ ":" ++ path')%string ->
  method = method' /\ path = path'.
Proof.
  intros Hm Hm' H. simpl in Hm, Hm'.
  repeat (destruct Hm as [<-|Hm]; [|]); try destruct Hm;
    repeat (destruct Hm' as [<-|Hm']; [|]); try destruct Hm';
    vm_compute in H; try discriminate; injection H as <-; now split.
Qed.

Lemma NoDup_fst_functional {K V : Type} (l : list (K * V)) (k : K) (a b : V) :
  NoDup (map fst l) -> In (k, a) l -> In (k, b) l -> a = b.
Proof.
  induction l as [|[k0 v0] l IH]; simpl; [tauto|].
  intros Hn Ha Hb. inversion Hn as [|? ? Hk Hn']; subst.
  destruct Ha as [Ha|Ha], Hb as [Hb|Hb].
  - congruence.
  - exfalso. apply Hk. apply (in_map fst) in Hb. now inversion Ha; subst.
  - exfalso. apply Hk. apply (in_map fst) in Ha. now inversion Hb; subst.
  - now apply IH.
Qed.

(** With distinct paths, an identifier names one operation. *)
Lemma docId_of_unique (entries : list (string * PathItem.t))
    (x y : string * string * Operation.t) :
  NoDup (map fst entries) ->
  In x (operations entries) -> In y (operations entries) ->
  docId_of x = docId_of y -> x = y.
Proof.
  destruct x as [[p m] op], y as [[p' m'] op']. intros Hn Hx Hy Hid.
  apply In_operations in Hx as [pathItem [Hin [Hm Hat]]].
  apply In_operations in Hy as [pathItem' [Hin' [Hm' Hat']]].
  unfold docId_of in Hid. cbn [fst snd] in Hid.
  apply docId_injective in Hid as [<- <-]; try assumption.
  rewrite (NoDup_fst_functional entries p pathItem pathItem' Hn Hin Hin') in Hat.
  rewrite Hat in Hat'. now injection Hat' as <-.
Qed.

Lemma stored_add_word (docId : string) (words : JS.Map JS.StrSet)
    (token token' : string) (d : string) :
  In d (stored (SwaggerLoader.add_word docId words token) token') <->
  In d (stored words token') \/ (d = docId /\ token = token').
Proof.
  rewrite add_word_spec. unfold stored.
  destruct (string_dec token token') as [->|Hne].
  - rewrite map_get_set_same, set_add_In. tauto.
  - rewrite map_get_set_other by assumption. tauto.
Qed.

Lemma stored_add_words (docId : string) (tokens : list string)
    (words : JS.Map JS.StrSet) (token : string) (d : string) :
  In d (stored (fold_left (SwaggerLoader.add_word docId) tokens words) token) <->
  In d (stored words token) \/ (d = docId /\ In token tokens).
Proof.
  revert words. induction tokens as [|t tokens IH]; intros words; simpl; [tauto|].
  rewrite IH, stored_add_word. intuition.
Qed.

(** The identifiers stored under a token. *)
Lemma operations_words (ops : list (string * string * Operation.t))
    (st : JS.Map JS.StrSet * JS.Map Document.t) (token d : string) :
  In d (stored (fst (fold_left fulltext_operation_step ops st)) token) <->
  In d (stored (fst st) token) \/
  exists x, In x ops /\ d = docId_of x /\
            In token (SwaggerLoader.tokenize (content_of (snd x))).
Proof.
  revert st. induction ops as [|x ops IH]; intros st; simpl.
  - split; [tauto|]. intros [H|[x [[] _]]]. assumption.
  - rewrite IH. unfold fulltext_operation_step. cbn [fst].
    rewrite stored_add_words. split.
    + intros [[H|[-> H]]|[y [Hy H]]]; eauto 6.
    + intros [H|[y [[<-|Hy] [-> H]]]]; eauto 6.
Qed.

(** The documents of the index. *)
Lemma operations_documents (ops : list (string * string * Operation.t))
    (st : JS.Map JS.StrSet * JS.Map Document.t) (d : string) (doc : Document.t) :
  In (d, doc) (snd (fold_left fulltext_operation_step ops st)) ->
  In (d, doc) (snd st) \/
  exists x, In x ops /\ d = docId_of x /\ doc = indexed_document x.
Proof.
  revert st. induction ops as [|x ops IH]; intros st; simpl; [tauto|].
  intros H. apply IH in H as [H|[y [Hy H]]]; [|eauto].
  unfold fulltext_operation_step in H. cbn [snd] in H.
  apply map_set_In in H as [[-> ->]|H]; eauto 6.
Qed.

Lemma operations_keys (ops : list (string * string * Operation.t))
    (st : JS.Map JS.StrSet * JS.Map Document.t) (x : string * string * Operation.t) :
  In x ops ->
  In (docId_of x) (JS.map_keys (snd (fold_left fulltext_operation_step ops st))).
Proof.
  revert st. induction ops as [|y ops IH]; intros st; simpl; [tauto|].
  intros [->|H]; [|now apply IH].
  apply (fold_left_invariant
           (fun st : JS.Map JS.StrSet * JS.Map Document.t =>
              In (docId_of x) (JS.map_keys (snd st)))).
  - intros s z _ Hs. unfold fulltext_operation_step. cbn [snd].
    apply map_keys_set. now right.
  - unfold fulltext_operation_step. cbn [snd]. apply map_keys_set. now left.
Qed.

(** The fulltext index of a document with distinct paths. *)
Lemma fulltextIndex_of_exact (entries : list (string * PathItem.t)) :
  NoDup (map fst entries) ->
  let index := fulltextIndex_of entries in
  (forall token d,
      In d (stored (FulltextIndex.words index) token) <->
      exists x, In x (operations entries) /\ d = docId_of x /\
                In token (SwaggerLoader.tokenize (content_of (snd x)))) /\
  (forall x, In x (operations entries) ->
      JS.map_get (FulltextIndex.documents index) (docId_of x)
      = Some (indexed_document x)) /\
  (forall d doc,
      JS.map_get (FulltextIndex.documents index) d = Some doc ->
      exists x, In x (operations entries) /\ d = docId_of x /\
                doc = indexed_document x).
Proof.
  intros Hn index. subst index. rewrite fulltextIndex_of_fold.
  cbn [FulltextIndex.words FulltextIndex.documents].
  assert (Hsound : forall d doc,
    JS.map_get (snd (fold_left fulltext_operation_step (operations entries) ([], [])))
      d = Some doc ->
    exists x, In x (operations entries) /\ d = docId_of x /\ doc = indexed_document x).
  { intros d doc H. apply map_get_In in H.
    apply operations_documents in H as [[]|H]. exact H. }
  split; [|split; [|exact Hsound]].
  - intros token d. rewrite operations_words. cbn [fst stored JS.map_get].
    split; [intros [[]|H]; exact H|auto].
  - intros x Hx.
    destruct (map_get_keys _ _ (operations_keys _ ([], []) x Hx)) as [doc Hget].
    rewrite Hget. destruct (Hsound _ _ Hget) as [y [Hy [Hid ->]]].
    now rewrite (docId_of_unique entries x y Hn Hx Hy Hid).
Qed.

(** X19.  On a loaded document with distinct paths, the fulltext index
    stores under a token exactly the identifiers [METHOD:path] of the
    operations whose content (the summary, the description and, for each
    parameter, its description and its name, joined by spaces) has this
    token, and under each identifier the document of that operation: its
    path, upper-case method, content, summary and description.  Nothing
    else is stored. *)
Theorem X19_fulltext_index_matches_document
    (loader : SwaggerLoader.t) (spec : SwaggerSpec.t)
    (entries : list (string * PathItem.t)) :
  document_of loader spec entries ->
  exists index,
    SwaggerLoader.getFulltextIndex loader = JS.Ok index /\
    (forall token docId,
        In docId (stored (FulltextIndex.words index) token) <->
        exists path method operation,
          declares entries path method operation /\
          docId = (JS.toUpperCase method ++ ":" ++ path)%string /\
          In token (SwaggerLoader.tokenize (content_of operation))) /\
    (forall path method operation,
        declares entries path method operation ->
        JS.map_get (FulltextIndex.documents index)
          (JS.toUpperCase method ++ ":" ++ path)%string
        = Some (Document.mk path (JS.toUpperCase method) (content_of operation)
                  (Operation.summary operation) (Operation.description operation))) /\
    (forall docId doc,
        JS.map_get (FulltextIndex.documents index) docId = Some doc ->
        exists method operation,
          declares entries (Document.path doc) method operation /\
          docId = (JS.toUpperCase method ++ ":" ++ Document.path doc)%string /\
          Document.method doc = JS.toUpperCase method).
Proof.
  intros Hdoc. pose proof Hdoc as [_ [_ Hn]].
  rewrite (document_of_loader _ _ _ Hdoc).
  exists (fulltextIndex_of entries). split; [reflexivity|].
  destruct (fulltextIndex_of_exact entries Hn) as [Hwords [Hdocs Hsound]].
  split; [|split].
  - intros token docId. rewrite Hwords. split.
    + intros [[[path method] operation] [Hx [-> Htok]]].
      exists path, method, operation. split; [now apply In_operations|]. now split.
    + intros [path [method [operation [Hd [-> Htok]]]]].
      exists (path, method, operation). split; [now apply In_operations|]. now split.
  - intros path method operation Hd. apply In_operations in Hd.
    exact (Hdocs _ Hd).
  - intros docId doc Hget.
    destruct (Hsound docId doc Hget) as [[[path method] operation] [Hx [-> ->]]].
    exists method, operation. split; [now apply In_operations|]. now split.
Qed.

Lemma X19_fulltext_index_matches_document_witness :
  document_of files_and_nodes_loader files_and_nodes (entries_of files_and_nodes) /\
  exists index,
    SwaggerLoader.getFulltextIndex files_and_nodes_loader = JS.Ok index /\
    In "GET:/nodes/"%string (stored (FulltextIndex.words index) "nodes").
Proof.
  split; [apply files_and_nodes_document|].
  destruct (X19_fulltext_index_matches_document files_and_nodes_loader files_and_nodes
              (entries_of files_and_nodes) files_and_nodes_document)
    as [index [Hget [Hwords _]]].
  exists index. split; [exact Hget|].
  apply Hwords.
  exists "/nodes/"%string, "get"%string,
    (operation (Some "List all nodes") None (Some "nodes_list") (Some ["Nodes"]) None None).
  split; [|split; [reflexivity|vm_compute; tauto]].
  eexists. split; [right; left; reflexivity|]. split; [now left|reflexivity].
Defined.

(** ** Fulltext Query against the document *)

Lemma stored_get {V} (m : JS.Map (list V)) (k : string) (l : list V) :
  JS.map_get m k = Some l -> stored m k = l.
Proof. unfold stored. now intros ->. Qed.

Lemma stored_none {V} (m : JS.Map (list V)) (k : string) :
  JS.map_get m k = None -> stored m k = [].
Proof. unfold stored. now intros ->. Qed.

Lemma score_step_keys (index : FulltextIndex.t) (queryTokens : list string)
    (token : string) (docIds : JS.StrSet)
    (scores : JS.Map FulltextSearch.ScoreData) (docId : string) :
  In docId (JS.map_keys (FulltextIndex.documents index)) ->
  exists scores',
    FulltextSearch.score_step index queryTokens token docIds (JS.Ok scores) docId
    = JS.Ok scores' /\
    (forall k, In k (JS.map_keys scores') <-> In k (JS.map_keys scores) \/ k = docId) /\
    (NoDup (JS.map_keys scores) -> NoDup (JS.map_keys scores')).
Proof.
  intros Hdoc. unfold FulltextSearch.score_step. cbn [JS.bind].
  set (scores1 := if JS.map_has scores docId then scores
                  else JS.map_set scores docId (FulltextSearch.mkScore (JS.Finite 0) [])).
  assert (Hk1 : forall k, In k (JS.map_keys scores1) <->
                          In k (JS.map_keys scores) \/ k = docId).
  { intros k. subst scores1. destruct (JS.map_has scores docId) eqn:E.
    - apply map_has_true in E. split; [tauto|]. intros [H| ->]; assumption.
    - rewrite map_keys_set. tauto. }
  assert (Hn1 : NoDup (JS.map_keys scores) -> NoDup (JS.map_keys scores1)).
  { subst scores1. destruct (JS.map_has scores docId); [tauto|].
    apply map_keys_set_NoDup. }
  destruct (map_get_keys scores1 docId) as [data ->]; [apply Hk1; now right|].
  destruct (map_get_keys _ _ Hdoc) as [doc ->].
  eexists. split; [reflexivity|]. split.
  - intros k. rewrite map_keys_set, Hk1. split; [intros [->|H]; tauto|tauto].
  - intros H. now apply map_keys_set_NoDup, Hn1.
Qed.

Lemma score_fold_keys (index : FulltextIndex.t) (queryTokens : list string)
    (token : string) (all : JS.StrSet) (docIds : list string)
    (scores : JS.Map FulltextSearch.ScoreData) :
  incl docIds (JS.map_keys (FulltextIndex.documents index)) ->
  exists scores',
    fold_left (FulltextSearch.score_step index queryTokens token all) docIds
      (JS.Ok scores) = JS.Ok scores' /\
    (forall k, In k (JS.map_keys scores') <-> In k (JS.map_keys scores) \/ In k docIds) /\
    (NoDup (JS.map_keys scores) -> NoDup (JS.map_keys scores')).
Proof.
  revert scores. induction docIds as [|d docIds IH]; intros scores Hincl.
  - exists scores. split; [reflexivity|]. split; [simpl; tauto|tauto].
  - cbn [fold_left].
    destruct (score_step_keys index queryTokens token all scores d)
      as [scores1 [-> [Hk1 Hn1]]]; [apply Hincl; now left|].
    destruct (IH scores1) as [scores' [-> [Hk Hn]]];
      [intros x Hx; apply Hincl; now right|].
    exists scores'. split; [reflexivity|]. split; [|tauto].
    intros k. rewrite Hk, Hk1. simpl. intuition.
Qed.

Lemma token_fold_keys (index : FulltextIndex.t) (queryTokens tokens : list string)
    (scores : JS.Map FulltextSearch.ScoreData) :
  fulltext_wf (FulltextIndex.words index, FulltextIndex.documents index) ->
  exists scores',
    fold_left (FulltextSearch.token_step index queryTokens) tokens (JS.Ok scores)
    = JS.Ok scores' /\
    (forall k, In k (JS.map_keys scores') <->
               In k (JS.map_keys scores) \/
               exists token, In token tokens /\
                             In k (stored (FulltextIndex.words index) token)) /\
    (NoDup (JS.map_keys scores) -> NoDup (JS.map_keys scores')).
Proof.
  intros Hwf. revert scores. induction tokens as [|t tokens IH]; intros scores.
  - exists scores. split; [reflexivity|]. split; [|tauto].
    intros k. split; [tauto|]. intros [H|[token [[] _]]]. assumption.
  - cbn [fold_left]. unfold FulltextSearch.token_step at 2.
    assert (H1 : exists scores1,
      match JS.map_get (FulltextIndex.words index) t with
      | Some docIds =>
          fold_left (FulltextSearch.score_step index queryTokens t docIds) docIds
            (JS.Ok scores)
      | None => JS.Ok scores
      end = JS.Ok scores1 /\
      (forall k, In k (JS.map_keys scores1) <->
                 In k (JS.map_keys scores) \/
                 In k (stored (FulltextIndex.words index) t)) /\
      (NoDup (JS.map_keys scores) -> NoDup (JS.map_keys scores1))).
    { destruct (JS.map_get (FulltextIndex.words index) t) as [docIds|] eqn:E.
      - rewrite (stored_get _ _ _ E). apply score_fold_keys. apply map_get_In in E.
        destruct Hwf as [_ Hw]. now destruct (Hw _ _ E) as [_ [_ Hincl]].
      - rewrite (stored_none _ _ E).
        exists scores. split; [reflexivity|]. split; [simpl; tauto|tauto]. }
    destruct H1 as [scores1 [-> [Hk1 Hn1]]].
    destruct (IH scores1) as [scores' [-> [Hk Hn]]].
    exists scores'. split; [reflexivity|]. split; [|tauto].
    intros k. rewrite Hk, Hk1. split.
    + intros [[H|H]|[token [Ht H]]]; [tauto| |]; right.
      * exists t. split; [now left|assumption].
      * exists token. split; [now right|assumption].
    + intros [H|[token [[<-|Ht] H]]]; [tauto|tauto|].
      right. now exists token.
Qed.

Lemma result_fold_reports (index : FulltextIndex.t)
    (scores : JS.Map FulltextSearch.ScoreData) (acc : list FulltextSearchResult.t) :
  incl (JS.map_keys scores) (JS.map_keys (FulltextIndex.documents index)) ->
  exists results,
    fold_left (FulltextSearch.result_step index) scores (JS.Ok acc)
    = JS.Ok (acc ++ results) /\
    Forall2 (reports (FulltextIndex.documents index)) scores results.
Proof.
  revert acc. induction scores as [|[d data] scores IH]; intros acc Hincl.
  - exists []. split; [now rewrite app_nil_r|constructor].
  - cbn [fold_left]. unfold FulltextSearch.result_step at 2. cbn [JS.bind fst snd].
    destruct (map_get_keys (FulltextIndex.documents index) d) as [doc Hdoc];
      [apply Hincl; now left|].
    rewrite Hdoc.
    destruct (IH (acc ++ [FulltextSearchResult.mk (Document.path doc) (Document.method doc)
                            (Document.summary doc) (Document.description doc)
                            (FulltextSearch.score data)
                            (FulltextSearch.matchedFields data)]))
      as [results [-> HF]]; [intros x Hx; apply Hincl; now right|].
    eexists (_ :: results). split; [now rewrite <- app_assoc|].
    constructor; [|assumption]. exists doc. now split.
Qed.

Lemma Forall2_In_l {A B : Type} (R : A -> B -> Prop) (l : list A) (l' : list B) (x : A) :
  Forall2 R l l' -> In x l -> exists y, In y l' /\ R x y.
Proof.
  induction 1 as [|a b l l' Hab _ IH]; simpl; [tauto|].
  intros [<-|H]; [eauto|]. destruct (IH H) as [y [Hy Hxy]]. eauto.
Qed.

Lemma Forall2_In_r {A B : Type} (R : A -> B -> Prop) (l : list A) (l' : list B) (y : B) :
  Forall2 R l l' -> In y l' -> exists x, In x l /\ R x y.
Proof.
  induction 1 as [|a b l l' Hab _ IH]; simpl; [tauto|].
  intros [<-|H]; [eauto|]. destruct (IH H) as [x [Hx Hxy]]. eauto.
Qed.

Lemma reports_ids (documents : JS.Map Document.t)
    (scores : JS.Map FulltextSearch.ScoreData) (results : list FulltextSearchResult.t) :
  (forall d doc, JS.map_get documents d = Some doc ->
     (Document.method doc ++ ":" ++ Document.path doc)%string = d) ->
  Forall2 (reports documents) scores results ->
  map (fun r => (FulltextSearchResult.method r ++ ":" ++ FulltextSearchResult.path r)%string)
      results
  = JS.map_keys scores.
Proof.
  intros Hid. induction 1 as [|[d data] r scores results [doc [Hdoc ->]] _ IH];
    [reflexivity|].
  cbn [map JS.map_keys fst FulltextSearchResult.method FulltextSearchResult.path].
  cbn [fst] in Hdoc. rewrite (Hid d doc Hdoc). f_equal. exact IH.
Qed.

(** X20.  On a loaded document with distinct paths, Fulltext Query finds,
    before the cut by [slice(0, limit)], exactly the operations whose
    indexed content (summary, description, parameter descriptions and
    names) shares a token with the query, each once: every result carries
    the path, the upper-case method, the summary and the description of
    such an operation, and every such operation has its result. *)
Theorem X20_fulltext_query_matches_document
    (loader : SwaggerLoader.t) (spec : SwaggerSpec.t)
    (entries : list (string * PathItem.t)) (query : string) :
  document_of loader spec entries ->
  exists unlimited,
    (forall limit,
        FulltextSearch.fulltextSearch loader (FulltextSearch.mkParams query limit)
        = JS.Ok (JS.slice unlimited 0 match limit with Some l => l | None => 10%Z end)) /\
    NoDup (map (fun r => (FulltextSearchResult.path r, FulltextSearchResult.method r))
               unlimited) /\
    (forall r, In r unlimited ->
       exists method operation,
         declares entries (FulltextSearchResult.path r) method operation /\
         FulltextSearchResult.method r = JS.toUpperCase method /\
         FulltextSearchResult.summary r = Operation.summary operation /\
         FulltextSearchResult.description r = Operation.description operation /\
         shares_a_token query operation) /\
    (forall path method operation,
       declares entries path method operation ->
       shares_a_token query operation ->
       exists r, In r unlimited /\
                 FulltextSearchResult.path r = path /\
                 FulltextSearchResult.method r = JS.toUpperCase method).
Proof.
  intros Hdoc. pose proof Hdoc as [_ [_ Hn]].
  rewrite (document_of_loader _ _ _ Hdoc).
  pose proof (fulltextIndex_of_wf entries) as Hwf.
  destruct (fulltextIndex_of_exact entries Hn) as [Hwords [Hdocs Hsound]].
  set (index := fulltextIndex_of entries) in *.
  unfold FulltextSearch.fulltextSearch, SwaggerLoader.getFulltextIndex.
  cbn [SwaggerLoader.fulltextIndex JS.bind FulltextSearch.query FulltextSearch.limit].
  fold index.
  destruct (FulltextSearch.tokenize query) as [|t ts] eqn:Etok.
  { exists []. cbn [length Nat.eqb]. split; [intros limit; now rewrite slice_nil|].
    split; [constructor|]. split; [intros r []|].
    intros path method operation _ [token [Hq _]]. rewrite Etok in Hq. destruct Hq. }
  cbn [length Nat.eqb]. rewrite <- Etok.
  set (queryTokens := FulltextSearch.tokenize query).
  destruct (token_fold_keys index queryTokens queryTokens [] Hwf)
    as [scores [Hfold [Hkeys Hnodup]]].
  assert (Hk : forall k, In k (JS.map_keys scores) <->
                 exists token, In token queryTokens /\
                               In k (stored (FulltextIndex.words index) token)).
  { intros k. rewrite Hkeys. simpl. tauto. }
  assert (Hincl : incl (JS.map_keys scores) (JS.map_keys (FulltextIndex.documents index))).
  { intros k Hin. apply Hk in Hin as [token [_ Hin]].
    apply Hwords in Hin as [x [Hx [-> _]]].
    apply Hdocs in Hx. apply map_get_In in Hx. now apply (in_map fst) in Hx. }
  destruct (result_fold_reports index scores [] Hincl) as [results [Hres HF]].
  cbn [app] in Hres.
  exists (JS.sort FulltextSearch.after results).
  split.
  { intros limit.
    match goal with
    | |- context [fold_left ?f ?l ?a] =>
        replace (fold_left f l a) with (JS.Ok scores) by (symmetry; exact Hfold)
    end.
    cbn [JS.bind].
    match goal with
    | |- context [fold_left ?f ?l ?a] =>
        replace (fold_left f l a) with (JS.Ok results) by (symmetry; exact Hres)
    end.
    reflexivity. }
  split; [|split].
  - apply (NoDup_map_inv
             (fun pm : string * string => (snd pm ++ ":" ++ fst pm)%string)).
    rewrite map_map. cbn [fst snd].
    apply (Permutation_NoDup
             (l := map (fun r => (FulltextSearchResult.method r ++ ":" ++
                                  FulltextSearchResult.path r)%string) results)).
    + apply Permutation_map. symmetry. apply sort_perm.
    + rewrite (reports_ids (FulltextIndex.documents index) scores results);
        [apply Hnodup; constructor| |exact HF].
      intros d doc Hget. now destruct (Hsound d doc Hget) as [x [_ [-> ->]]].
  - intros r Hr. apply sort_In in Hr.
    destruct (Forall2_In_r _ _ _ r HF Hr) as [[d data] [Hin [doc [Hget ->]]]].
    cbn [fst snd] in Hget.
    apply (in_map fst) in Hin. cbn [fst] in Hin.
    apply (proj1 (Hk d)) in Hin as [token [Hq Hin]].
    apply Hwords in Hin as [x [Hx [-> Htok]]].
    rewrite (Hdocs x Hx) in Hget. injection Hget as <-.
    destruct x as [[path method] operation]. apply In_operations in Hx.
    exists method, operation. cbn. repeat (split; [assumption || reflexivity|]).
    now exists token.
  - intros path method operation Hd [token [Hq Htok]].
    apply In_operations in Hd.
    assert (Hin : In (docId_of (path, method, operation)) (JS.map_keys scores)).
    { apply Hk. exists token. split; [assumption|]. apply Hwords.
      now exists (path, method, operation). }
    apply in_map_iff in Hin as [[d data] [Hd' Hin]]. cbn [fst] in Hd'. subst d.
    destruct (Forall2_In_l _ _ _ _ HF Hin) as [r [Hr [doc [Hget ->]]]].
    cbn [fst] in Hget. rewrite (Hdocs _ Hd) in Hget. injection Hget as <-.
    eexists. split; [apply sort_In; exact Hr|]. now split.
Qed.

Lemma X20_fulltext_query_matches_document_witness :
  document_of files_and_nodes_loader files_and_nodes (entries_of files_and_nodes) /\
  exists unlimited,
    FulltextSearch.fulltextSearch files_and_nodes_loader
      (FulltextSearch.mkParams "nodes" None) = JS.Ok (JS.slice unlimited 0 10) /\
    exists r, In r unlimited /\
              FulltextSearchResult.path r = "/nodes/"%string /\
              FulltextSearchResult.method r = "GET"%string.
Proof.
  split; [apply files_and_nodes_document|].
  destruct (X20_fulltext_query_matches_document files_and_nodes_loader files_and_nodes
              (entries_of files_and_nodes) "nodes" files_and_nodes_document)
    as [unlimited [Hq [_ [_ Hc]]]].
  exists unlimited. split; [exact (Hq None)|].
  apply (Hc "/nodes/"%string "get"%string
            (operation (Some "List all nodes") None (Some "nodes_list")
               (Some ["Nodes"]) None None)).
  - eexists. split; [right; left; reflexivity|]. split; [now left|reflexivity].
  - exists "nodes"%string. split; [now left|]. vm_compute. tauto.
Defined.

(** ** The score and the matched fields of a result *)

Lemma entry_of_set_same (scores : JS.Map FulltextSearch.ScoreData) (k : string)
    (data : FulltextSearch.ScoreData) :
  entry_of (JS.map_set scores k data) k = data.
Proof. unfold entry_of. now rewrite map_get_set_same. Qed.

Lemma entry_of_set_other (scores : JS.Map FulltextSearch.ScoreData) (k k' : string)
    (data : FulltextSearch.ScoreData) :
  k <> k' -> entry_of (JS.map_set scores k data) k' = entry_of scores k'.
Proof. intros H. unfold entry_of. now rewrite map_get_set_other. Qed.

Lemma score_step_entry (index : FulltextIndex.t) (queryTokens : list string)
    (token : string) (docIds : JS.StrSet)
    (scores : JS.Map FulltextSearch.ScoreData) (docId : string) :
  In docId (JS.map_keys (FulltextIndex.documents index)) ->
  exists scores',
    FulltextSearch.score_step index queryTokens token docIds (JS.Ok scores) docId
    = JS.Ok scores' /\
    forall k,
      entry_of scores' k =
      if (docId =? k)%string
      then bump index queryTokens token (length docIds) docId (entry_of scores k)
      else entry_of scores k.
Proof.
  intros Hdoc. unfold FulltextSearch.score_step. cbn [JS.bind].
  set (scores1 := if JS.map_has scores docId then scores
                  else JS.map_set scores docId (FulltextSearch.mkScore (JS.Finite 0) [])).
  assert (H1 : JS.map_get scores1 docId = Some (entry_of scores docId)).
  { subst scores1. unfold entry_of, JS.map_has.
    destruct (JS.map_get scores docId) as [data|] eqn:E; [exact E|].
    apply map_get_set_same. }
  assert (H2 : forall k, docId <> k -> entry_of scores1 k = entry_of scores k).
  { intros k Hne. subst scores1. destruct (JS.map_has scores docId); [reflexivity|].
    now apply entry_of_set_other. }
  rewrite H1. unfold bump.
  destruct (map_get_keys _ _ Hdoc) as [doc Hget]. rewrite Hget.
  eexists. split; [reflexivity|].
  intros k. destruct (String.eqb_spec docId k) as [<-|Hne].
  - now rewrite entry_of_set_same.
  - rewrite entry_of_set_other by assumption. now apply H2.
Qed.

Lemma set_has_cons (d k : string) (l : list string) :
  JS.set_has (d :: l) k = (k =? d)%string || JS.set_has l k.
Proof. reflexivity. Qed.

Lemma score_fold_entry (index : FulltextIndex.t) (queryTokens : list string)
    (token : string) (all : JS.StrSet) (docIds : list string)
    (scores : JS.Map FulltextSearch.ScoreData) :
  NoDup docIds ->
  incl docIds (JS.map_keys (FulltextIndex.documents index)) ->
  exists scores',
    fold_left (FulltextSearch.score_step index queryTokens token all) docIds
      (JS.Ok scores) = JS.Ok scores' /\
    forall k,
      entry_of scores' k =
      if JS.set_has docIds k
      then bump index queryTokens token (length all) k (entry_of scores k)
      else entry_of scores k.
Proof.
  revert scores. induction docIds as [|d docIds IH]; intros scores Hn Hincl.
  - exists scores. split; reflexivity.
  - inversion Hn as [|? ? Hd Hn']; subst. cbn [fold_left].
    destruct (score_step_entry index queryTokens token all scores d)
      as [scores1 [-> H1]]; [apply Hincl; now left|].
    destruct (IH scores1 Hn') as [scores' [-> H']];
      [intros x Hx; apply Hincl; now right|].
    exists scores'. split; [reflexivity|].
    intros k. rewrite H', H1, set_has_cons, (String.eqb_sym k d).
    destruct (String.eqb_spec d k) as [<-|Hne]; cbn [orb]; [|reflexivity].
    destruct (JS.set_has docIds d) eqn:E; [|reflexivity].
    apply set_has_true in E. contradiction.
Qed.

Lemma token_fold_entry (index : FulltextIndex.t) (queryTokens tokens : list string)
    (scores : JS.Map FulltextSearch.ScoreData) :
  fulltext_wf (FulltextIndex.words index, FulltextIndex.documents index) ->
  exists scores',
    fold_left (FulltextSearch.token_step index queryTokens) tokens (JS.Ok scores)
    = JS.Ok scores' /\
    forall k,
      entry_of scores' k =
      fold_left (visit index queryTokens k) tokens (entry_of scores k).
Proof.
  intros Hwf. revert scores. induction tokens as [|t tokens IH]; intros scores.
  - exists scores. split; reflexivity.
  - cbn [fold_left]. unfold FulltextSearch.token_step at 2.
    assert (H1 : exists scores1,
      match JS.map_get (FulltextIndex.words index) t with
      | Some docIds =>
          fold_left (FulltextSearch.score_step index queryTokens t docIds) docIds
            (JS.Ok scores)
      | None => JS.Ok scores
      end = JS.Ok scores1 /\
      forall k, entry_of scores1 k = visit index queryTokens k (entry_of scores k) t).
    { unfold visit.
      destruct (JS.map_get (FulltextIndex.words index) t) as [docIds|] eqn:E.
      - rewrite (stored_get _ _ _ E). apply map_get_In in E.
        destruct Hwf as [_ Hw]. destruct (Hw _ _ E) as [_ [Hn Hincl]].
        now apply score_fold_entry.
      - rewrite (stored_none _ _ E). exists scores. split; reflexivity. }
    destruct H1 as [scores1 [-> H1]].
    destruct (IH scores1) as [scores' [-> H']].
    exists scores'. split; [reflexivity|].
    intros k. now rewrite H', H1.
Qed.

(** The two components of the entry that the visits build. *)
Lemma visits_score (index : FulltextIndex.t) (queryTokens tokens : list string)
    (docId : string) (data : FulltextSearch.ScoreData) :
  In docId (JS.map_keys (FulltextIndex.documents index)) ->
  FulltextSearch.score (fold_left (visit index queryTokens docId) tokens data) =
  fold_left
    (fun (sum : JS.number) token =>
       if JS.set_has (stored (FulltextIndex.words index) token) docId
       then JS.add sum
              (fulltext_term index queryTokens
                 (length (stored (FulltextIndex.words index) token)))
       else sum)
    tokens (FulltextSearch.score data).
Proof.
  intros Hdoc. destruct (map_get_keys _ _ Hdoc) as [doc Hget].
  revert data. induction tokens as [|t tokens IH]; intros data; [reflexivity|].
  cbn [fold_left]. rewrite IH. f_equal. unfold visit, bump. rewrite Hget.
  now destruct (JS.set_has _ docId).
Qed.

Lemma In_matched_fields (doc : Document.t) (token : string) (fields : JS.StrSet)
    (f : string) :
  In f (matched_fields doc token fields) <->
  In f fields \/
  (f = "summary"%string /\
   FulltextSearch.field_includes (Document.summary doc) token = true) \/
  (f = "description"%string /\
   FulltextSearch.field_includes (Document.description doc) token = true).
Proof.
  unfold matched_fields.
  destruct (FulltextSearch.field_includes (Document.summary doc) token),
           (FulltextSearch.field_includes (Document.description doc) token);
    rewrite ?set_add_In; intuition congruence.
Qed.

Lemma matched_fields_NoDup (doc : Document.t) (token : string) (fields : JS.StrSet) :
  NoDup fields -> NoDup (matched_fields doc token fields).
Proof.
  intros H. unfold matched_fields.
  destruct (FulltextSearch.field_includes (Document.summary doc) token),
           (FulltextSearch.field_includes (Document.description doc) token);
    auto using set_add_NoDup.
Qed.

Lemma visits_fields (index : FulltextIndex.t) (queryTokens tokens : list string)
    (docId : string) (doc : Document.t) (data : FulltextSearch.ScoreData) (f : string) :
  JS.map_get (FulltextIndex.documents index) docId = Some doc ->
  In f (FulltextSearch.matchedFields
          (fold_left (visit index queryTokens docId) tokens data)) <->
  In f (FulltextSearch.matchedFields data) \/
  (f = "summary"%string /\ field_matches index tokens docId (Document.summary doc)) \/
  (f = "description"%string /\
   field_matches index tokens docId (Document.description doc)).
Proof.
  intros Hget. revert data. induction tokens as [|t tokens IH]; intros data.
  - cbn [fold_left]. unfold field_matches. split; [tauto|].
    intros [H|[[_ [t [[] _]]]|[_ [t [[] _]]]]]. assumption.
  - cbn [fold_left]. rewrite IH. unfold visit, bump. rewrite Hget.
    destruct (JS.set_has (stored (FulltextIndex.words index) t) docId) eqn:E.
    + apply set_has_true in E. cbn [FulltextSearch.matchedFields].
      rewrite In_matched_fields. unfold field_matches. split.
      * intros [[H|[[-> H]|[-> H]]]|[[-> [t' [Ht' H]]]|[-> [t' [Ht' H]]]]]; auto.
        -- right. left. split; [reflexivity|]. exists t. simpl. auto.
        -- right. right. split; [reflexivity|]. exists t. simpl. auto.
        -- right. left. split; [reflexivity|]. exists t'. simpl. auto.
        -- right. right. split; [reflexivity|]. exists t'. simpl. auto.
      * intros [H|[[-> [t' [[<-|Ht'] [H1 H2]]]]|[-> [t' [[<-|Ht'] [H1 H2]]]]]]; auto.
        -- right. left. split; [reflexivity|]. now exists t'.
        -- right. right. split; [reflexivity|]. now exists t'.
    + assert (Hnot : ~ In docId (stored (FulltextIndex.words index) t)).
      { intros H. apply set_has_true in H. congruence. }
      unfold field_matches. split.
      * intros [H|[[-> [t' [Ht' H]]]|[-> [t' [Ht' H]]]]]; auto.
        -- right. left. split; [reflexivity|]. exists t'. simpl. auto.
        -- right. right. split; [reflexivity|]. exists t'. simpl. auto.
      * intros [H|[[-> [t' [[<-|Ht'] [H1 H2]]]]|[-> [t' [[<-|Ht'] [H1 H2]]]]]];
          auto; try contradiction.
        -- right. left. split; [reflexivity|]. now exists t'.
        -- right. right. split; [reflexivity|]. now exists t'.
Qed.

Lemma visits_fields_NoDup (index : FulltextIndex.t) (queryTokens tokens : list string)
    (docId : string) (data : FulltextSearch.ScoreData) :
  NoDup (FulltextSearch.matchedFields data) ->
  NoDup (FulltextSearch.matchedFields
           (fold_left (visit index queryTokens docId) tokens data)).
Proof.
  intros H.
  apply (fold_left_invariant
           (fun data => NoDup (FulltextSearch.matchedFields data))); [|assumption].
  intros s t _ Hs. unfold visit, bump.
  destruct (JS.set_has _ docId); [|assumption].
  destruct (JS.map_get _ docId); [|assumption].
  now apply matched_fields_NoDup.
Qed.

Lemma stored_incl (words : JS.Map JS.StrSet) (documents : JS.Map Document.t)
    (token : string) :
  fulltext_wf (words, documents) ->
  incl (stored words token) (JS.map_keys documents).
Proof.
  intros [_ Hw].
  destruct (JS.map_get words token) as [docIds|] eqn:E.
  - rewrite (stored_get _ _ _ E). apply map_get_In in E.
    now destruct (Hw _ _ E) as [_ [_ Hincl]].
  - rewrite (stored_none _ _ E). intros x [].
Qed.

(** Every result of Fulltext Query reports a document of the index, with
    the entry that the visits of the query tokens build for it. *)
Lemma fulltext_query_entries (entries : list (string * PathItem.t))
    (query : string) (limit : option Z) :
  let index := fulltextIndex_of entries in
  let loader := SwaggerLoader.mk None None None (Some index) in
  exists results,
    FulltextSearch.fulltextSearch loader (FulltextSearch.mkParams query limit)
    = JS.Ok results /\
    forall r, In r results ->
      exists doc,
        JS.map_get (FulltextIndex.documents index)
          (Document.method doc ++ ":" ++ Document.path doc)%string = Some doc /\
        r = FulltextSearchResult.mk
              (Document.path doc) (Document.method doc)
              (Document.summary doc) (Document.description doc)
              (FulltextSearch.score
                 (fold_left (visit index (FulltextSearch.tokenize query)
                               (Document.method doc ++ ":" ++ Document.path doc)%string)
                    (FulltextSearch.tokenize query)
                    (FulltextSearch.mkScore (JS.Finite 0) [])))
              (FulltextSearch.matchedFields
                 (fold_left (visit index (FulltextSearch.tokenize query)
                               (Document.method doc ++ ":" ++ Document.path doc)%string)
                    (FulltextSearch.tokenize query)
                    (FulltextSearch.mkScore (JS.Finite 0) []))).
Proof.
  intros index loader. subst loader.
  pose proof (fulltextIndex_of_wf entries) as Hwf. fold index in Hwf.
  unfold FulltextSearch.fulltextSearch, SwaggerLoader.getFulltextIndex.
  cbn [SwaggerLoader.fulltextIndex JS.bind FulltextSearch.query FulltextSearch.limit].
  destruct (length (FulltextSearch.tokenize query) =? 0)%nat.
  { exists []. split; [reflexivity|]. intros r []. }
  set (queryTokens := FulltextSearch.tokenize query).
  destruct (token_fold_keys index queryTokens queryTokens [] Hwf)
    as [scores [Hfold [Hkeys Hnodup]]].
  destruct (token_fold_entry index queryTokens queryTokens [] Hwf)
    as [scores' [Hfold' Hentry]].
  rewrite Hfold in Hfold'. injection Hfold' as <-.
  assert (Hincl : incl (JS.map_keys scores) (JS.map_keys (FulltextIndex.documents index))).
  { intros k Hin. apply (proj1 (Hkeys k)) in Hin as [Hin|[token [_ Hin]]];
      [destruct Hin|].
    now apply (stored_incl _ _ token Hwf). }
  destruct (result_fold_reports index scores [] Hincl) as [results [Hres HF]].
  cbn [app] in Hres.
  exists (JS.slice (JS.sort FulltextSearch.after results) 0
            match limit with Some l => l | None => 10%Z end).
  split.
  { match goal with
    | |- context [fold_left ?f ?l ?a] =>
        replace (fold_left f l a) with (JS.Ok scores) by (symmetry; exact Hfold)
    end.
    cbn [JS.bind].
    match goal with
    | |- context [fold_left ?f ?l ?a] =>
        replace (fold_left f l a) with (JS.Ok results) by (symmetry; exact Hres)
    end.
    reflexivity. }
  intros r Hr. apply slice_incl in Hr. apply sort_In in Hr.
  destruct (Forall2_In_r _ _ _ r HF Hr) as [[d data] [Hin [doc [Hget ->]]]].
  cbn [fst snd] in Hget |- *.
  assert (Hdata : data = entry_of scores d).
  { unfold entry_of.
    now rewrite (NoDup_map_fst_get scores d data (Hnodup (NoDup_nil _)) Hin). }
  assert (Hid : (Document.method doc ++ ":" ++ Document.path doc)%string = d).
  { pose proof Hget as H. apply map_get_In in H.
    unfold index in H. rewrite fulltextIndex_of_fold in H.
    cbn [FulltextIndex.documents] in H.
    now apply operations_documents in H as [[]|[x [Hx [-> ->]]]]. }
  exists doc. rewrite Hid. split; [exact Hget|].
  rewrite Hdata, Hentry. reflexivity.
Qed.

(** X21.  On a loaded document, the score of a result of Fulltext Query is
    the sum, over the query tokens whose set in the index holds the
    result's identifier [METHOD:path] (a token that the query repeats
    counting each time), of [(1 / queryTokens.length) *
    Math.log(documents.size / docIds.size)].  Its matched fields are
    "summary" and "description", each at most once and exactly when one of
    these query tokens is a substring of that field in lower case. *)
Theorem X21_score_and_matched_fields
    (loader : SwaggerLoader.t) (spec : SwaggerSpec.t) (query : string) (limit : option Z) :
  loaded spec loader ->
  exists index results,
    SwaggerLoader.getFulltextIndex loader = JS.Ok index /\
    FulltextSearch.fulltextSearch loader (FulltextSearch.mkParams query limit)
    = JS.Ok results /\
    forall r, In r results ->
      let docId := (FulltextSearchResult.method r ++ ":" ++
                    FulltextSearchResult.path r)%string in
      let queryTokens := FulltextSearch.tokenize query in
      FulltextSearchResult.score r = score_sum index queryTokens docId /\
      NoDup (FulltextSearchResult.matchedFields r) /\
      forall field,
        In field (FulltextSearchResult.matchedFields r) <->
        (field = "summary"%string /\
         field_matches index queryTokens docId (FulltextSearchResult.summary r)) \/
        (field = "description"%string /\
         field_matches index queryTokens docId (FulltextSearchResult.description r)).
Proof.
  intros Hl. apply loaded_inv in Hl as [entries [_ ->]].
  exists (fulltextIndex_of entries).
  destruct (fulltext_query_entries entries query limit) as [results [Hq Hr]].
  exists results. split; [reflexivity|]. split; [exact Hq|].
  intros r Hin. destruct (Hr r Hin) as [doc [Hget ->]].
  cbn [FulltextSearchResult.method FulltextSearchResult.path FulltextSearchResult.score
       FulltextSearchResult.matchedFields FulltextSearchResult.summary
       FulltextSearchResult.description].
  cbv zeta.
  set (docId := (Document.method doc ++ ":" ++ Document.path doc)%string) in *.
  split; [|split].
  - unfold score_sum. rewrite visits_score; [reflexivity|].
    apply map_get_In in Hget. now apply (in_map fst) in Hget.
  - apply visits_fields_NoDup. constructor.
  - intros field. rewrite (visits_fields _ _ _ docId doc _ field Hget).
    cbn [FulltextSearch.matchedFields In]. tauto.
Qed.

Lemma X21_score_and_matched_fields_witness :
  loaded files_and_nodes files_and_nodes_loader /\
  exists index results,
    SwaggerLoader.getFulltextIndex files_and_nodes_loader = JS.Ok index /\
    FulltextSearch.fulltextSearch files_and_nodes_loader
      (FulltextSearch.mkParams "nodes" None) = JS.Ok results /\
    forall r, In r results -> NoDup (FulltextSearchResult.matchedFields r).
Proof.
  split; [apply files_and_nodes_loaded|].
  destruct (X21_score_and_matched_fields files_and_nodes_loader files_and_nodes
              "nodes" None files_and_nodes_loaded) as [index [results [H1 [H2 H3]]]].
  exists index, results. split; [exact H1|]. split; [exact H2|].
  intros r Hr. exact (proj1 (proj2 (H3 r Hr))).
Defined.
